(** * Plover translation core: dictionaries, orthography, translator state

    A shallow embedding of
      - [plover/steno_dictionary.py]  (StenoDictionary, StenoDictionaryCollection)
      - [plover/system/__init__.py]   (the exported symbols, _key_order)
      - [plover/orthography.py]       (add_suffix)
      - [plover/translation.py]       (escape/unescape, Translation, Translator, _State)
    followed by the properties established about them.

    Python values are modelled as follows: [str] is [string]; a tuple of
    RTFCRE strings (a dictionary key) is [list string]; [dict] is [gmap];
    a raised exception is the left injection of [result]; a tuple whose
    identity the code tests with [is] is a [tuple], which records that
    identity. *)

From Stdlib Require Import ssreflect.
From Stdlib Require Import ZArith Lia Ascii String List.
From stdpp Require Import base gmap sets list strings option.

Set Warnings "-rewrite-rw,-clear-no-such-hyp".
Local Open Scope general_if_scope.

Local Open Scope Z_scope.
Local Open Scope nat_scope.

(* ===================================================================== *)
(** * Exceptions *)
(* ===================================================================== *)

Inductive exn : Type :=
  | AssertionError
  | KeyError
  | IndexError.

Inductive result (A : Type) : Type :=
  | Ok (a : A)
  | Raise (e : exn).
Arguments Ok {A} a.
Arguments Raise {A} e.

#[global] Instance result_ret : MRet result := fun A a => Ok a.
#[global] Instance result_bind : MBind result := fun A B k m =>
  match m with
  | Ok a => k a
  | Raise e => Raise e
  end.

(** [assert cond] *)
Definition py_assert (cond : bool) : result unit :=
  if cond then Ok tt else Raise AssertionError.

(** [l[i]] for a Python index (negative indices count from the end). *)
Definition py_index {A} (l : list A) (i : Z) : result A :=
  let n := Z.of_nat (length l) in
  let j := if (i <? 0)%Z then (i + n)%Z else i in
  if ((0 <=? j) && (j <? n))%Z
  then match l !! Z.to_nat j with Some a => Ok a | None => Raise IndexError end
  else Raise IndexError.

(** [l[i] = v] for a Python index. *)
Definition py_setitem {A} (l : list A) (i : Z) (v : A) : result (list A) :=
  let n := Z.of_nat (length l) in
  let j := if (i <? 0)%Z then (i + n)%Z else i in
  if ((0 <=? j) && (j <? n))%Z
  then Ok (<[Z.to_nat j := v]> l)
  else Raise IndexError.

(** The bound of a slice, clipped the way Python clips it. *)
Definition py_slice_bound (n : nat) (i : Z) : nat :=
  if (i <? 0)%Z then Z.to_nat (Z.max 0 (i + Z.of_nat n)) else Nat.min (Z.to_nat i) n.

(** [l[:stop]] *)
Definition py_slice_to {A} (l : list A) (stop : Z) : list A :=
  take (py_slice_bound (length l) stop) l.

(** [l[start:]] *)
Definition py_slice_from {A} (l : list A) (start : Z) : list A :=
  drop (py_slice_bound (length l) start) l.

(** [table.get(key)] on a literal dict of strings. *)
Fixpoint dict_get (table : list (string * string)) (key : string) : option string :=
  match table with
  | [] => None
  | (k, v) :: table' => if String.eqb k key then Some v else dict_get table' key
  end.

(** A tuple object of key names.  [ident] stands for the identity of the
    object, which [is] compares: two tuples with the same [ident] are one
    object, and then they have the same items. *)
Record tuple := mkTuple {
  ident : nat;
  items : list string
}.

(** [()] *)
Definition empty_tuple : tuple := {| ident := 0; items := [] |}.

(* ===================================================================== *)
(** * translation.py: escape_translation / unescape_translation *)
(* ===================================================================== *)

Module Escape.

Definition BS : ascii := "\"%char.
Definition LF : ascii := "010"%char.
Definition CR : ascii := "013"%char.
Definition TAB : ascii := "009"%char.

(** The character class [[nrt]]. *)
Definition is_nrt (c : ascii) : bool :=
  Ascii.eqb c "n" || Ascii.eqb c "r" || Ascii.eqb c "t".

(** The character class [[\n\r\t]] (the three control characters). *)
Definition is_ctrl (c : ascii) : bool :=
  Ascii.eqb c LF || Ascii.eqb c CR || Ascii.eqb c TAB.

Definition is_bs (c : ascii) : bool := Ascii.eqb c BS.

(** A compiled pattern, as [re.sub] uses it: given the character just
    before the current position (for look-behind) and the text from the
    current position on, the length of the match that starts here. *)
Definition pattern : Type := option ascii -> string -> option nat.

(** [re.compile('(\\\\[nrt]|[\n\r\t])')]: a backslash followed by one of
    n, r, t; or one of the three control characters. *)
Definition _ESCAPE_RX : pattern := fun _ s =>
  match s with
  | EmptyString => None
  | String c rest =>
      match rest with
      | String l _ =>
          if is_bs c && is_nrt l then Some 2
          else if is_ctrl c then Some 1 else None
      | EmptyString => if is_ctrl c then Some 1 else None
      end
  end.

(** [re.compile(r'((?<!\\)|\\)\\([nrt])')]: either a position not
    preceded by a backslash, or a backslash; then a backslash and one of
    n, r, t.  The first alternative is tried first. *)
Definition _UNESCAPE_RX : pattern := fun prev s =>
  match s with
  | String c (String l rest) =>
      if negb (bool_decide (prev = Some BS)) && is_bs c && is_nrt l then Some 2
      else match rest with
           | String m _ => if is_bs c && is_bs l && is_nrt m then Some 3 else None
           | EmptyString => None
           end
  | _ => None
  end.

Definition str2 (a b : ascii) : string := String a (String b EmptyString).
Definition str3 (a b c : ascii) : string := String a (str2 b c).

Definition _ESCAPE_REPLACEMENTS : list (string * string) :=
  [ (String LF EmptyString, str2 BS "n");
    (String CR EmptyString, str2 BS "r");
    (String TAB EmptyString, str2 BS "t");
    (str2 BS "n", str3 BS BS "n");
    (str2 BS "r", str3 BS BS "r");
    (str2 BS "t", str3 BS BS "t") ].

Definition _UNESCAPE_REPLACEMENTS : list (string * string) :=
  [ (str3 BS BS "n", str2 BS "n");
    (str3 BS BS "r", str2 BS "r");
    (str3 BS BS "t", str2 BS "t");
    (str2 BS "n", String LF EmptyString);
    (str2 BS "r", String CR EmptyString);
    (str2 BS "t", String TAB EmptyString) ].

(** [lambda m: table[m.group(0)]].  Every text either pattern matches is
    a key of its table ([escape_group_is_key], [unescape_group_is_key]
    below), so the [KeyError] branch of the subscript is never taken; the
    default stands in its place. *)
Definition replacement (table : list (string * string)) (group : string) : string :=
  default group (dict_get table group).

(** [rx.sub(repl, s)]: scan left to right; where the pattern matches,
    emit the replacement and resume after the match; elsewhere copy the
    character.  [skip] counts the characters of the current match still
    to be passed over, [prev] is the character before the position. *)
Fixpoint re_sub (rx : pattern) (table : list (string * string))
         (prev : option ascii) (skip : nat) (s : string) : string :=
  match s with
  | EmptyString => EmptyString
  | String c rest =>
      match skip with
      | S k => re_sub rx table (Some c) k rest
      | O =>
          match rx prev s with
          | Some (S k) =>
              replacement table (substring 0 (S k) s)
                +:+ re_sub rx table (Some c) k rest
          | _ => String c (re_sub rx table (Some c) 0 rest)
          end
      end
  end.

Definition escape_translation (translation : string) : string :=
  re_sub _ESCAPE_RX _ESCAPE_REPLACEMENTS None 0 translation.

Definition unescape_translation (translation : string) : string :=
  re_sub _UNESCAPE_RX _UNESCAPE_REPLACEMENTS None 0 translation.

(** No backslash stands immediately before a control character. *)
Fixpoint no_bs_before_ctrl (s : string) : bool :=
  match s with
  | EmptyString => true
  | String c rest =>
      match rest with
      | String d _ => negb (is_bs c && is_ctrl d) && no_bs_before_ctrl rest
      | EmptyString => true
      end
  end.

(** No control character occurs. *)
Fixpoint no_ctrl (s : string) : bool :=
  match s with
  | EmptyString => true
  | String c rest => negb (is_ctrl c) && no_ctrl rest
  end.

End Escape.

(* ===================================================================== *)
(** * steno_dictionary.py: StenoDictionary *)
(* ===================================================================== *)

(** A dictionary key: a tuple of RTFCRE strings. *)
Abbreviation key := (list string).

(** Modelled from the spec: [ReverseStenoDict] ([plover/dictionary/base.py])
    is not part of the sources at hand.  The spec gives it as an "index from
    translation text -> set of stroke-tuples that produce it"; the four
    methods the dictionary calls are modelled on that sentence. *)
Module ReverseStenoDict.

Abbreviation t := (gmap string (gset key)).

Definition clear (r : t) : t := ∅.

Definition get (r : t) (value : string) : gset key := default ∅ (r !! value).

(** [append_key(value, key)]: [key] now produces [value]. *)
Definition append_key (value : string) (k : key) (r : t) : t :=
  <[value := get r value ∪ {[k]}]> r.

(** [remove_key(value, key)]: [key] no longer produces [value]. *)
Definition remove_key (value : string) (k : key) (r : t) : t :=
  match r !! value with
  | Some ks =>
      let ks' := ks ∖ {[k]} in
      if decide (ks' = ∅) then delete value r else <[value := ks']> r
  | None => r
  end.

(** [match_forward(fdict)]: rebuild the index from a forward mapping. *)
Definition match_forward (fdict : gmap key string) : t :=
  map_fold (fun k value r => append_key value k r) ∅ fdict.

End ReverseStenoDict.

Module Dict.

Record StenoDictionary := mkDict {
  (** the contents of the [dict] base class *)
  data : gmap key string;
  _longest_key_length : nat;
  reverse : ReverseStenoDict.t;
  timestamp : Z;
  readonly : bool;
  enabled : bool;
  path : option string;
  (** the calls made so far to the registered longest-key callbacks: one
      entry, the value passed, per round of [callback(longest_key)] *)
  fired : list nat
}.

(** [StenoDictionary()] *)
Definition __init__ : StenoDictionary :=
  {| data := ∅; _longest_key_length := 0; reverse := ∅; timestamp := 0%Z;
     readonly := false; enabled := true; path := None; fired := [] |}.

Definition with_contents (d : StenoDictionary)
           (data' : gmap key string) (reverse' : ReverseStenoDict.t) : StenoDictionary :=
  {| data := data'; _longest_key_length := _longest_key_length d;
     reverse := reverse'; timestamp := timestamp d; readonly := readonly d;
     enabled := enabled d; path := path d; fired := fired d |}.

Definition with_flags (d : StenoDictionary) (readonly' enabled' : bool) : StenoDictionary :=
  {| data := data d; _longest_key_length := _longest_key_length d;
     reverse := reverse d; timestamp := timestamp d; readonly := readonly';
     enabled := enabled'; path := path d; fired := fired d |}.

(** The [longest_key] property. *)
Definition longest_key (d : StenoDictionary) : nat := _longest_key_length d.

(** The [_longest_key] setter: store, and call the callbacks, only on a
    change. *)
Definition set_longest_key (d : StenoDictionary) (longest_key : nat) : StenoDictionary :=
  if decide (longest_key = _longest_key_length d) then d
  else {| data := data d; _longest_key_length := longest_key;
          reverse := reverse d; timestamp := timestamp d; readonly := readonly d;
          enabled := enabled d; path := path d;
          fired := fired d ++ [longest_key] |}.

(** [max(map(len, self), default=0)] *)
Definition max_key_length (m : gmap key string) : nat :=
  map_fold (fun k _ acc => Nat.max (length k) acc) 0 m.

Definition _calculate_longest_key (d : StenoDictionary) : StenoDictionary :=
  set_longest_key d (max_key_length (data d)).

(** [key in self] *)
Definition contains (d : StenoDictionary) (k : key) : bool :=
  bool_decide (is_Some (data d !! k)).

Definition clear (d : StenoDictionary) : StenoDictionary :=
  set_longest_key (with_contents d ∅ (ReverseStenoDict.clear (reverse d))) 0.

Definition __setitem__ (d : StenoDictionary) (k : key) (value : string)
  : result StenoDictionary :=
  _ ← py_assert (negb (readonly d));
  let d1 :=
    match data d !! k with
    | Some old => with_contents d (data d) (ReverseStenoDict.remove_key old k (reverse d))
    | None => set_longest_key d (Nat.max (_longest_key_length d) (length k))
    end in
  Ok (with_contents d1 (<[k := value]> (data d1))
                    (ReverseStenoDict.append_key value k (reverse d1))).

Definition __delitem__ (d : StenoDictionary) (k : key) : result StenoDictionary :=
  _ ← py_assert (negb (readonly d));
  value ← (match data d !! k with Some v => Ok v | None => Raise KeyError end);
  let d1 := with_contents d (delete k (data d))
                          (ReverseStenoDict.remove_key value k (reverse d)) in
  Ok (if decide (length k = longest_key d1) then _calculate_longest_key d1 else d1).

(** [dict(pairs).items()]: every key once, at the place of its first
    occurrence, with the value of its last. *)
Fixpoint assoc_set (k : key) (v : string) (l : list (key * string)) : list (key * string) :=
  match l with
  | [] => [(k, v)]
  | (k', v') :: l' => if decide (k' = k) then (k, v) :: l' else (k', v') :: assoc_set k v l'
  end.

Definition dict_items (pairs : list (key * string)) : list (key * string) :=
  foldl (fun acc kv => assoc_set kv.1 kv.2 acc) [] pairs.

Fixpoint setitems (d : StenoDictionary) (items : list (key * string))
  : result StenoDictionary :=
  match items with
  | [] => Ok d
  | (k, v) :: items' => d' ← __setitem__ d k v; setitems d' items'
  end.

(** [update(pairs)] with a single iterable of (key, value) pairs. *)
Definition update (d : StenoDictionary) (pairs : list (key * string))
  : result StenoDictionary :=
  _ ← py_assert (negb (readonly d));
  if decide (data d = ∅) then
    let data' := foldl (fun m kv => <[kv.1 := kv.2]> m) (data d) pairs in
    Ok (_calculate_longest_key
          (with_contents d data' (ReverseStenoDict.match_forward data')))
  else setitems d (dict_items pairs).

(** [reverse_lookup(value)], as the set of its elements. *)
Definition reverse_lookup (d : StenoDictionary) (value : string) : gset key :=
  match reverse d !! value with
  | Some ks => ks
  | None => ∅
  end.

(** The reverse index says exactly what the forward mapping says. *)
Definition reverse_consistent (d : StenoDictionary) : Prop :=
  ∀ (k : key) (value : string), k ∈ reverse_lookup d value ↔ data d !! k = Some value.

End Dict.

(* ===================================================================== *)
(** * steno_dictionary.py: StenoDictionaryCollection *)
(* ===================================================================== *)

Module Collection.
Import Dict.

Record StenoDictionaryCollection := mkCollection {
  dicts : list StenoDictionary;
  (** a filter returns [true] to suppress a lookup result *)
  filters : list (key -> string -> bool);
  longest_key : nat;
  (** handles of the registered collection-level callbacks *)
  longest_key_callbacks : list nat;
  (** the calls made so far: (callback handle, value passed) *)
  called : list (nat * nat)
}.

(** [max(d.longest_key for d in self.dicts)] if there are dicts, else 0 *)
Definition new_longest_key (ds : list StenoDictionary) : nat :=
  match ds with
  | [] => 0
  | d :: ds' => foldl Nat.max (Dict.longest_key d) (map Dict.longest_key ds')
  end.

Definition _longest_key_listener (c : StenoDictionaryCollection) : StenoDictionaryCollection :=
  let new_longest_key := new_longest_key (dicts c) in
  if decide (new_longest_key ≠ longest_key c) then
    {| dicts := dicts c; filters := filters c; longest_key := new_longest_key;
       longest_key_callbacks := longest_key_callbacks c;
       called := called c
                 ++ map (fun cb => (cb, new_longest_key)) (longest_key_callbacks c) |}
  else c.

Definition with_dicts (c : StenoDictionaryCollection) (ds : list StenoDictionary)
  : StenoDictionaryCollection :=
  {| dicts := ds; filters := filters c; longest_key := longest_key c;
     longest_key_callbacks := longest_key_callbacks c; called := called c |}.

(** [set_dicts(dicts)]: the collection's listener is registered on every
    child it holds, then run once. *)
Definition set_dicts (c : StenoDictionaryCollection) (ds : list StenoDictionary)
  : StenoDictionaryCollection :=
  _longest_key_listener (with_dicts c ds).

(** [StenoDictionaryCollection(dicts)] *)
Definition __init__ (ds : list StenoDictionary) : StenoDictionaryCollection :=
  set_dicts {| dicts := []; filters := []; longest_key := 0;
               longest_key_callbacks := []; called := [] |} ds.

Definition add_longest_key_listener (c : StenoDictionaryCollection) (cb : nat)
  : StenoDictionaryCollection :=
  {| dicts := dicts c; filters := filters c; longest_key := longest_key c;
     longest_key_callbacks :=
       if bool_decide (cb ∈ longest_key_callbacks c) then longest_key_callbacks c
       else longest_key_callbacks c ++ [cb];
     called := called c |}.

(** A child held by the collection has changed from [d] to [d'] (it is
    the same object) in an operation that calls the child's callbacks at
    most once: if it did, the collection's listener has run. *)
Definition child_changed (c : StenoDictionaryCollection) (i : nat)
           (d d' : StenoDictionary) : StenoDictionaryCollection :=
  let c' := with_dicts c (<[i := d']> (dicts c)) in
  if decide (Dict.fired d' = Dict.fired d) then c' else _longest_key_listener c'.

Fixpoint lookup_in (fs : list (key -> string -> bool)) (ds : list StenoDictionary)
         (k : key) : option string :=
  match ds with
  | [] => None
  | d :: ds' =>
      match (if enabled d then data d !! k else None) with
      | Some value => if existsb (fun f => f k value) fs then None else Some value
      | None => lookup_in fs ds' k
      end
  end.

Definition lookup (c : StenoDictionaryCollection) (k : key) : option string :=
  lookup_in (filters c) (dicts c) k.

Fixpoint raw_lookup_in (ds : list StenoDictionary) (k : key) : option string :=
  match ds with
  | [] => None
  | d :: ds' =>
      match (if enabled d then data d !! k else None) with
      | Some value => Some value
      | None => raw_lookup_in ds' k
      end
  end.

Definition raw_lookup (c : StenoDictionaryCollection) (k : key) : option string :=
  raw_lookup_in (dicts c) k.

(** One turn of the loop of [reverse_lookup]. *)
Definition reverse_lookup_step (d : StenoDictionary) (value : string)
           (keys : gset key) : gset key :=
  if enabled d then
    let keys :=
      if bool_decide (keys ≠ ∅) then
        let overrides := filter (fun k => is_Some (data d !! k)) keys in
        keys ∖ overrides
      else keys in
    keys ∪ Dict.reverse_lookup d value
  else keys.

(** [reversed_dicts] is [reversed(self.dicts)]: lowest priority first. *)
Fixpoint reverse_lookup_loop (reversed_dicts : list StenoDictionary)
         (value : string) (keys : gset key) : gset key :=
  match reversed_dicts with
  | [] => keys
  | d :: rest => reverse_lookup_loop rest value (reverse_lookup_step d value keys)
  end.

Definition reverse_lookup (c : StenoDictionaryCollection) (value : string) : gset key :=
  reverse_lookup_loop (rev (dicts c)) value ∅.

(** What the collection's [longest_key] would be if only enabled
    children counted. *)
Definition max_enabled_longest_key (ds : list StenoDictionary) : nat :=
  foldr Nat.max 0 (map Dict.longest_key (filter (fun d => enabled d = true) ds)).

(** [first_writable()] as an index into [dicts]. *)
Fixpoint first_writable_from (i : nat) (ds : list StenoDictionary) : result nat :=
  match ds with
  | [] => Raise KeyError
  | d :: ds' => if readonly d then first_writable_from (S i) ds' else Ok i
  end.

Definition first_writable (c : StenoDictionaryCollection) : result nat :=
  first_writable_from 0 (dicts c).

(** [get(path)] as an index into [dicts]. *)
Fixpoint get_from (i : nat) (ds : list StenoDictionary) (p : string) : option nat :=
  match ds with
  | [] => None
  | d :: ds' => if decide (path d = Some p) then Some i else get_from (S i) ds' p
  end.

(** [set(key, value, path)] *)
Definition set (c : StenoDictionaryCollection) (k : key) (value : string)
           (p : option string) : result StenoDictionaryCollection :=
  i ← (match p with
       | None => first_writable c
       | Some p => match get_from 0 (dicts c) p with
                   | Some i => Ok i
                   | None => Raise KeyError
                   end
       end);
  d ← (match dicts c !! i with Some d => Ok d | None => Raise IndexError end);
  d' ← Dict.__setitem__ d k value;
  Ok (child_changed c i d d').

(** [get(path)] *)
Definition get (c : StenoDictionaryCollection) (p : string) : option StenoDictionary :=
  i ← get_from 0 (dicts c) p; dicts c !! i.

(** [__getitem__(path)] *)
Definition __getitem__ (c : StenoDictionaryCollection) (p : string)
  : result StenoDictionary :=
  match get c p with
  | Some d => Ok d
  | None => Raise KeyError
  end.

Section MultiReverseLookup.
(** [str.lower], of the Python runtime: the case folding of every
    cased character is left to it. *)
Variable str_lower : string -> string.





End MultiReverseLookup.

End Collection.

(* ===================================================================== *)
(** * system/__init__.py: the symbols a system plugin exports *)
(* ===================================================================== *)

(** The attributes of [plover.system] the code below reads.
    [PREFIX_KEYS] and [SUFFIX_KEYS] are tuple objects: [tuple(x)] is [x]
    itself when [x] is a tuple, so a plugin that binds both names to one
    tuple exports one object twice.  A rule of
    [ORTHOGRAPHY_RULES] is a pair of the bound [match] method of a compiled
    case-insensitive pattern and a replacement template; [MatchObject] and
    [expand] stand for the match objects of [re] and their [expand]
    method. *)
Record System := mkSystem {
  MatchObject : Type;
  expand : MatchObject -> string -> string;
  PREFIX_KEYS : tuple;
  SUFFIX_KEYS : tuple;
  ORTHOGRAPHY_RULES : list ((string -> option MatchObject) * string);
  ORTHOGRAPHY_RULES_ALIASES : gmap string string;
  ORTHOGRAPHY_WORDS : gmap string nat
}.

(** The two helpers of [system/__init__.py] that compute exported symbols. *)
Module SystemInit.

(** [dict(zip(keys, count()))] *)
Definition zip_count (keys : list string) : gmap string Z :=
  foldl (fun m ki => <[ki.1 := ki.2]> m) ∅
        (zip keys (Z.of_nat <$> seq 0 (length keys))).

(** The loop of [_key_order] over [numbers.items()]. *)
Fixpoint number_loop (items : list (string * string)) (key_order : gmap string Z)
  : result (gmap string Z) :=
  match items with
  | [] => Ok key_order
  | (key, number) :: items' =>
      match key_order !! key with
      | Some ordinal => number_loop items' (<[number := ordinal]> key_order)
      | None => Raise KeyError
      end
  end.

(** [_key_order(keys, numbers)], [numbers] given by its items; the
    result is the mapping the [defaultdict] is made from. *)
Definition _key_order (keys : list string) (numbers : list (string * string))
  : result (gmap string Z) :=
  number_loop numbers (zip_count keys).

(** The value of a subscript of the [defaultdict(lambda: -1, key_order)]
    returned; that a missing key is then entered with this value is left
    out. *)
Definition key_order_get (key_order : gmap string Z) (k : string) : Z :=
  default (-1)%Z (key_order !! k).

End SystemInit.

(* ===================================================================== *)
(** * orthography.py *)
(* ===================================================================== *)

Module Orthography.

Definition SPACE : ascii := " "%char.

(** [s.partition(' ')] *)
Fixpoint partition_space (s : string) : string * string * string :=
  match s with
  | EmptyString => (EmptyString, EmptyString, EmptyString)
  | String c s' =>
      if Ascii.eqb c SPACE then (EmptyString, String SPACE EmptyString, s')
      else let '(head, sep, rest) := partition_space s' in (String c head, sep, rest)
  end.

(** [min(l, key=key)] for a non-empty [l], [best] being the least so far:
    a later element replaces it only when strictly smaller. *)
Fixpoint min_from {A} (rank : A -> nat) (best : A) (l : list A) : A :=
  match l with
  | [] => best
  | x :: l' => if rank x <? rank best then min_from rank x l' else min_from rank best l'
  end.

Section WithSystem.
Variable system : System.

(** [system.ORTHOGRAPHY_WORDS.__contains__] *)
Definition in_dict_f (w : string) : bool :=
  bool_decide (is_Some (ORTHOGRAPHY_WORDS system !! w)).

(** [system.ORTHOGRAPHY_WORDS.__getitem__], applied to words of the
    word list only. *)
Definition word_rank (w : string) : nat :=
  default 0 (ORTHOGRAPHY_WORDS system !! w).

(** The loop of [_add_candidates_from_rules] over the rules. *)
Fixpoint add_candidates_loop (rules : list ((string -> option (MatchObject system)) * string))
         (candidates : list string) (input : string) : list string :=
  match rules with
  | [] => candidates
  | (rx_match, replacement) :: rules' =>
      match rx_match input with
      | Some m => add_candidates_loop rules' (candidates ++ [expand system m replacement]) input
      | None => add_candidates_loop rules' candidates input
      end
  end.

Definition _add_candidates_from_rules (candidates : list string)
           (word suffix : string) : list string :=
  let input := word +:+ " ^ " +:+ suffix in
  add_candidates_loop (ORTHOGRAPHY_RULES system) candidates input.

(** The list [candidates] of [_add_suffix] when the choice is made. *)
Definition collect_candidates (word suffix : string) : list string :=
  let candidates := [] in
  let simple := word +:+ suffix in
  let candidates := if in_dict_f simple then candidates ++ [simple] else candidates in
  let candidates := _add_candidates_from_rules candidates word suffix in
  match ORTHOGRAPHY_RULES_ALIASES system !! suffix with
  | Some alias => _add_candidates_from_rules candidates word alias
  | None => candidates
  end.

Definition _add_suffix (word suffix : string) : string :=
  let simple := word +:+ suffix in
  let candidates := collect_candidates word suffix in
  match candidates with
  | first :: _ =>
      let dict_candidates := List.filter in_dict_f candidates in
      match dict_candidates with
      | c :: cs => min_from word_rank c cs
      | [] => first
      end
  | [] => simple
  end.

Definition add_suffix (word suffix : string) : string :=
  let '(suffix, sep, rest) := partition_space suffix in
  let expanded := _add_suffix word suffix in
  expanded +:+ sep +:+ rest.

End WithSystem.

End Orthography.

(* ===================================================================== *)
(** * translation.py: Translation, Translator, _State *)
(* ===================================================================== *)

(** [plover.steno.Stroke], as far as the translator reads it. *)
Module Stroke.

Record t := mk {
  rtfcre : string;
  steno_keys : list string;
  is_correction : bool
}.

#[global] Instance eq_dec : EqDecision t.
Proof. solve_decision. Defined.

End Stroke.

Module Translation.
Import Collection.

(** A formatter action, as far as [has_undo] reads it. *)
Record Action := mkAction {
  text : option string;
  prev_replace : string
}.

#[warnings="-register-all"]
Inductive Translation := mkTranslation {
  strokes : list Stroke.t;
  rtfcre : key;
  english : option string;
  replaced : list Translation;
  formatting : list Action;
  is_retrospective_command : bool
}.

(** [Translation(outline, translation)] *)
Definition __init__ (outline : list Stroke.t) (translation : option string) : Translation :=
  {| strokes := outline; rtfcre := map Stroke.rtfcre outline; english := translation;
     replaced := []; formatting := []; is_retrospective_command := false |}.

Definition set_replaced (t : Translation) (r : list Translation) : Translation :=
  {| strokes := strokes t; rtfcre := rtfcre t; english := english t;
     replaced := r; formatting := formatting t;
     is_retrospective_command := is_retrospective_command t |}.

(** [len(t)]: a Translation is the list of its strokes. *)
Definition len (t : Translation) : nat := length (strokes t).

(** [t == u]: list equality, on the strokes. *)
Definition eqb (t u : Translation) : bool := bool_decide (strokes t = strokes u).

Definition truthy (s : string) : bool := negb (String.eqb s EmptyString).

Definition has_undo (t : Translation) : bool :=
  match formatting t with
  | [] => true
  | _ =>
      match replaced t with
      | _ :: _ => true
      | [] => existsb (fun a => match text a with
                                | Some s => truthy s
                                | None => false
                                end || truthy (prev_replace a))
                      (formatting t)
      end
  end.

(** ** _State *)

Record _State := mkState {
  translations : list Translation;
  tail : option Translation
}.

(** [_State()] *)
Definition empty_state : _State := {| translations := []; tail := None |}.

Definition prev (st : _State) (count : option Z) : option (list Translation) :=
  let prev :=
    match count with
    | Some count => py_slice_to (translations st) (- count)
    | None => translations st
    end in
  match prev with
  | _ :: _ => Some prev
  | [] =>
      match tail st with
      | Some t => Some [t]
      | None => None
      end
  end.

(** The loop of [restrict_size] over [reversed(self.translations)]; the
    result is [translation_count]. *)
Fixpoint restrict_size_loop (reversed_translations : list Translation) (n : Z)
         (stroke_count : Z) (translation_count : nat) : nat :=
  match reversed_translations with
  | [] => translation_count
  | t :: rest =>
      let stroke_count := (stroke_count + Z.of_nat (len t))%Z in
      let translation_count := translation_count + 1 in
      if (stroke_count >=? n)%Z then translation_count
      else restrict_size_loop rest n stroke_count translation_count
  end.

(** [translation_index] is between 0 and the length of the list, so the
    subscript [self.translations[translation_index - 1]], evaluated only
    when it is not 0, is in range; [restrict_size_tail_in_range] below
    shows the look-up never fails there. *)
Definition restrict_size (st : _State) (n : Z) : _State :=
  let translation_count := restrict_size_loop (rev (translations st)) n 0 0 in
  let translation_index := length (translations st) - translation_count in
  {| translations := drop translation_index (translations st);
     tail := if decide (translation_index ≠ 0)
             then translations st !! (translation_index - 1)
             else tail st |}.

(** ** Macros *)

Record Macro := mkMacro {
  name : string;
  stroke : Stroke.t;
  cmdline : string
}.

Definition _LEGACY_MACROS_ALIASES : list (string * string) :=
  [ ("{*}", "retrospective_toggle_asterisk");
    ("{*!}", "retrospective_delete_space");
    ("{*?}", "retrospective_insert_space");
    ("{*+}", "repeat_last_stroke") ]%string.

(** [s.split(':', 1)]: the part before the first colon and, if there is
    a colon, the part after it. *)
Fixpoint split_colon (s : string) : string * option string :=
  match s with
  | EmptyString => (EmptyString, None)
  | String c s' =>
      if Ascii.eqb c ":"%char then (EmptyString, Some s')
      else let '(head, rest) := split_colon s' in (String c head, rest)
  end.

Definition _mapping_to_macro (mapping : option string) (stroke : Stroke.t) : option Macro :=
  let '(macro, cmdline) :=
    match mapping with
    | None =>
        if Stroke.is_correction stroke then (Some "undo"%string, EmptyString)
        else (None, EmptyString)
    | Some mapping =>
        match dict_get _LEGACY_MACROS_ALIASES mapping with
        | Some alias => (Some alias, EmptyString)
        | None =>
            match mapping with
            | String c rest =>
                if Ascii.eqb c "="%char && (1 <? String.length mapping) then
                  let '(head, tail) := split_colon rest in
                  (Some head, default EmptyString tail)
                else (None, EmptyString)
            | EmptyString => (None, EmptyString)
            end
        end
    end in
  match macro with
  | Some m => if truthy m then Some (mkMacro m stroke cmdline) else None
  | None => None
  end.

(** ** Translator *)

(** One call [callback(undo, do, prev)]. *)
Record Output := mkOutput {
  listener : nat;
  undo : list Translation;
  do : list Translation;
  context : option (list Translation)
}.

Record Translator := mkTranslator {
  _undo_length : Z;
  _dictionary : StenoDictionaryCollection;
  (** handles of the registered listeners *)
  _listeners : list nat;
  _state : _State;
  _to_undo : list Translation;
  _to_do : nat;
  (** the calls made so far to the listeners *)
  emitted : list Output
}.

Definition with_state (tr : Translator) (st : _State) : Translator :=
  {| _undo_length := _undo_length tr; _dictionary := _dictionary tr;
     _listeners := _listeners tr; _state := st; _to_undo := _to_undo tr;
     _to_do := _to_do tr; emitted := emitted tr |}.

Definition with_pending (tr : Translator) (to_undo : list Translation) (to_do : nat)
  : Translator :=
  {| _undo_length := _undo_length tr; _dictionary := _dictionary tr;
     _listeners := _listeners tr; _state := _state tr; _to_undo := to_undo;
     _to_do := to_do; emitted := emitted tr |}.

Definition with_translations (tr : Translator) (ts : list Translation) : Translator :=
  with_state tr {| translations := ts; tail := tail (_state tr) |}.

Definition _output (tr : Translator) (undo do : list Translation)
           (prev : option (list Translation)) : Translator :=
  {| _undo_length := _undo_length tr; _dictionary := _dictionary tr;
     _listeners := _listeners tr; _state := _state tr; _to_undo := _to_undo tr;
     _to_do := _to_do tr;
     emitted := emitted tr ++ map (fun callback => mkOutput callback undo do prev)
                                  (_listeners tr) |}.

Definition _resize_translations (tr : Translator) : Translator :=
  with_state tr
    (restrict_size (_state tr)
       (Z.max (Z.of_nat (Collection.longest_key (_dictionary tr))) (_undo_length tr))).

Definition set_min_undo_length (tr : Translator) (n : Z) : Translator :=
  _resize_translations
    {| _undo_length := n; _dictionary := _dictionary tr;
       _listeners := _listeners tr; _state := _state tr; _to_undo := _to_undo tr;
       _to_do := _to_do tr; emitted := emitted tr |}.

Definition flush (tr : Translator) (extra_translations : option (list Translation))
  : Translator :=
  let '(prev, do) :=
    if decide (_to_do tr ≠ 0)
    then (prev (_state tr) (Some (Z.of_nat (_to_do tr))),
          py_slice_from (translations (_state tr)) (- Z.of_nat (_to_do tr)))
    else (prev (_state tr) None, []) in
  let do := match extra_translations with
            | Some extra => do ++ extra
            | None => do
            end in
  let undo := _to_undo tr in
  let tr := with_pending tr [] 0 in
  let tr := match undo, do with
            | [], [] => tr
            | _, _ => _output tr undo do prev
            end in
  _resize_translations tr.

(** The loop of [_undo] over [reversed(translations)]. *)
Fixpoint _undo_loop (tr : Translator) (reversed_translations : list Translation)
  : result Translator :=
  match reversed_translations with
  | [] => Ok tr
  | t :: rest =>
      popped ← py_index (translations (_state tr)) (-1);
      let tr := with_translations tr (removelast (translations (_state tr))) in
      _ ← py_assert (eqb t popped);
      let tr := if decide (_to_do tr ≠ 0)
                then with_pending tr (_to_undo tr) (_to_do tr - 1)
                else with_pending tr (t :: _to_undo tr) (_to_do tr) in
      _undo_loop tr rest
  end.

Definition _undo (tr : Translator) (ts : list Translation) : result Translator :=
  _undo_loop tr (rev ts).

Definition _do (tr : Translator) (ts : list Translation) : Translator :=
  with_pending (with_translations tr (translations (_state tr) ++ ts))
               (_to_undo tr) (_to_do tr + length ts).

Definition translate_translation (tr : Translator) (t : Translation) : result Translator :=
  tr ← _undo tr (replaced t);
  Ok (_do tr [t]).

Definition untranslate_translation (tr : Translator) (t : Translation) : result Translator :=
  tr ← _undo tr [t];
  Ok (_do tr (replaced t)).

(** [keys.remove(key)]: drop the first occurrence. *)
Fixpoint remove_first (x : string) (l : list string) : list string :=
  match l with
  | [] => []
  | y :: l' => if decide (y = x) then l' else y :: remove_first x l'
  end.

Definition nonempty {A} (l : list A) : bool :=
  match l with
  | [] => false
  | _ :: _ => true
  end.

(** What the tuple [(normal, suffixes, prefixes)] of [_find_translation]
    holds: a [bool] or a tuple object. *)
Inductive object :=
  | Bool (b : bool)
  | Tuple (t : tuple).

(** [a is b]: [True] and [False] are one object each, a tuple is the
    object of its identity, and a [bool] is no tuple. *)
Definition is_ (a b : object) : bool :=
  match a, b with
  | Bool x, Bool y => Bool.eqb x y
  | Tuple s, Tuple t => ident s =? ident t
  | _, _ => false
  end.

(** The truth value of an object. *)
Definition truth (a : object) : bool :=
  match a with
  | Bool b => b
  | Tuple t => nonempty (items t)
  end.

(** [filter(None, (normal, suffixes, prefixes))] *)
Definition modes (normal : bool) (suffixes prefixes : tuple) : list object :=
  List.filter truth [Bool normal; Tuple suffixes; Tuple prefixes].

Section Translate.
(** [Stroke(keys)], of [plover.steno]. *)
Variable new_stroke : list string -> Stroke.t.

Definition _test_and_remove_each (stroke_keys test_keys : list string)
  : list (string * string) :=
  flat_map (fun key =>
              if bool_decide (key ∈ stroke_keys)
              then let keys := remove_first key stroke_keys in
                   [(key, Stroke.rtfcre (new_stroke keys))]
              else [])
           test_keys.

(** The loop of [_lookup_affixes] over [test_pairs]; [lookup] is
    [self._dictionary.lookup]. *)
Fixpoint _lookup_affixes_loop (lookup : key -> option string) (test_index : Z)
         (prefix : bool) (test_seq : list string) (test_pairs : list (string * string))
  : result (option string) :=
  match test_pairs with
  | [] => Ok None
  | (key, removed) :: rest =>
      test_seq ← py_setitem test_seq test_index removed;
      match lookup test_seq with
      | None => _lookup_affixes_loop lookup test_index prefix test_seq rest
      | Some main_mapping =>
          match lookup [Stroke.rtfcre (new_stroke [key])] with
          | None => _lookup_affixes_loop lookup test_index prefix test_seq rest
          | Some affix_mapping =>
              Ok (Some (if prefix
                        then affix_mapping +:+ " " +:+ main_mapping
                        else main_mapping +:+ " " +:+ affix_mapping))
          end
      end
  end.

Definition _lookup_affixes (lookup : key -> option string) (rtfcre_seq : list string)
           (test_pairs : list (string * string)) (prefix : bool)
  : result (option string) :=
  let test_index := if prefix then 0%Z else (-1)%Z in
  _lookup_affixes_loop lookup test_index prefix rtfcre_seq test_pairs.

(** [Translator.lookup(strokes, suffixes)] *)
Definition lookup (tr : Translator) (strokes : list Stroke.t) (suffixes : tuple)
  : result (option string) :=
  let rtfcre_list := map Stroke.rtfcre strokes in
  match Collection.lookup (_dictionary tr) rtfcre_list with
  | Some r => Ok (Some r)
  | None =>
      if nonempty (items suffixes) then
        last ← py_index strokes (-1);
        _lookup_affixes (Collection.lookup (_dictionary tr)) rtfcre_list
          (_test_and_remove_each (Stroke.steno_keys last) (items suffixes)) false
      else Ok None
  end.

(** The first loop of [_find_translation], over
    [reversed(self._state.translations)]; the result is
    [translation_count]. *)
Fixpoint count_loop (reversed_translations : list Translation) (stroke_limit : nat)
         (num_strokes translation_count : nat) : nat :=
  match reversed_translations with
  | [] => translation_count
  | t :: rest =>
      let num_strokes := num_strokes + len t in
      if stroke_limit <? num_strokes then translation_count
      else count_loop rest stroke_limit num_strokes (translation_count + 1)
  end.

Section FindTranslation.
Variable lookup_f : key -> option string.
Variable stroke : Stroke.t.
Variable normal : bool.
Variables suffixes prefixes : tuple.
Variable translation_count : nat.
Variable translations : list Translation.

(** The body of [for i in range(translation_count+1)] up to
    [mapping]. *)
Definition mapping_for (mode : object) (last_stroke_mods : list (string * string))
           (i : nat) (test_seq : list string) : result (option string) :=
  if is_ mode (Bool normal) then Ok (lookup_f test_seq)
  else if is_ mode (Tuple suffixes)
  then _lookup_affixes lookup_f test_seq last_stroke_mods false
  else
    test_stroke ←
      (if i <? translation_count
       then t ← py_index translations (Z.of_nat i); py_index (strokes t) 0
       else Ok stroke);
    let first_stroke_mods :=
      _test_and_remove_each (Stroke.steno_keys test_stroke) (items prefixes) in
    if nonempty first_stroke_mods
    then _lookup_affixes lookup_f test_seq first_stroke_mods true
    else Ok None.

(** [for i in range(translation_count+1)], [indices] being the values
    of [i] still to come; [Ok None] when the loop ends without
    returning. *)
Fixpoint length_loop (mode : object) (last_stroke_mods : list (string * string))
         (indices : list nat) (test_seq : list string) : result (option Translation) :=
  match indices with
  | [] => Ok None
  | i :: indices' =>
      mapping ← mapping_for mode last_stroke_mods i test_seq;
      match mapping with
      | Some mapping =>
          let replaced := py_slice_from translations (Z.of_nat i) in
          let t := __init__ (concat (map strokes replaced) ++ [stroke]) (Some mapping) in
          Ok (Some (set_replaced t replaced))
      | None =>
          test_seq ←
            (if i <? translation_count
             then t ← py_index translations (Z.of_nat i); Ok (drop (len t) test_seq)
             else Ok test_seq);
          length_loop mode last_stroke_mods indices' test_seq
      end
  end.

(** [for mode in filter(None, (normal, suffixes, prefixes))], [ms]
    being the objects still to come.  [last_stroke_mods] is the value
    of that variable, which a pass for the object [suffixes] assigns
    and the other passes leave alone; it is read in the passes for
    that object only. *)
Fixpoint mode_loop (ms : list object) (last_stroke_mods : list (string * string))
         (rtfcre_list : list string) : result Translation :=
  match ms with
  | [] => Ok (__init__ [stroke] None)
  | mode :: ms' =>
      let last_stroke_mods :=
        if is_ mode (Tuple suffixes)
        then _test_and_remove_each (Stroke.steno_keys stroke) (items suffixes)
        else last_stroke_mods in
      if is_ mode (Tuple suffixes) && negb (nonempty last_stroke_mods)
      then mode_loop ms' last_stroke_mods rtfcre_list
      else
        found ← length_loop mode last_stroke_mods (seq 0 (translation_count + 1))
                            rtfcre_list;
        match found with
        | Some t => Ok t
        | None => mode_loop ms' last_stroke_mods rtfcre_list
        end
  end.

End FindTranslation.

Definition _find_translation (tr : Translator) (stroke : Stroke.t) (normal : bool)
           (suffixes prefixes : tuple) : result Translation :=
  let num_strokes := 1 in
  let translation_count := 0 in
  let stroke_limit := Collection.longest_key (_dictionary tr) in
  let translation_count :=
    count_loop (rev (translations (_state tr))) stroke_limit num_strokes translation_count in
  let translation_index := length (translations (_state tr)) - translation_count in
  let translations := drop translation_index (translations (_state tr)) in
  let rtfcre_list := concat (map rtfcre translations) ++ [Stroke.rtfcre stroke] in
  (* [last_stroke_mods] is not bound before the first pass for
     [suffixes]; the empty list stands for that. *)
  mode_loop (Collection.lookup (_dictionary tr)) stroke normal suffixes prefixes
            translation_count translations
            (modes normal suffixes prefixes) [] rtfcre_list.

(** [registry.get_plugin('macro', name).obj]: the macros registered,
    each a function of the translator, the stroke and the command
    line; [None] where the registry raises [KeyError]. *)
Variable registry_macro :
  string -> option (Translator -> Stroke.t -> string -> result Translator).

Definition translate_macro (tr : Translator) (macro : Macro) : result Translator :=
  match registry_macro (name macro) with
  | Some macro_fn => macro_fn tr (stroke macro) (cmdline macro)
  | None => Raise KeyError
  end.

Variable system : System.

Definition translate_stroke (tr : Translator) (stroke : Stroke.t) : result Translator :=
  mapping ← lookup tr [stroke] empty_tuple;
  match _mapping_to_macro mapping stroke with
  | Some macro => translate_macro tr macro
  | None =>
      t ← _find_translation tr stroke true (SUFFIX_KEYS system) (PREFIX_KEYS system);
      translate_translation tr t
  end.

Definition translate (tr : Translator) (stroke : Stroke.t) : result Translator :=
  tr ← translate_stroke tr stroke;
  Ok (flush tr None).

End Translate.

End Translation.

(* ===================================================================== *)
(** * Auxiliary definitions used in the statements and proofs *)
(* ===================================================================== *)

Module EscapeScan.
Import Escape.

(** The two scans, resumed in the middle of a text: [p] is the character
    before the position. *)
Definition escape_from (p : option ascii) (s : string) : string :=
  re_sub _ESCAPE_RX _ESCAPE_REPLACEMENTS p 0 s.
Definition unescape_from (p : option ascii) (s : string) : string :=
  re_sub _UNESCAPE_RX _UNESCAPE_REPLACEMENTS p 0 s.

Definition hd_char (s : string) : option ascii :=
  match s with
  | EmptyString => None
  | String c _ => Some c
  end.
Definition letter_of (c : ascii) : ascii :=
  if Ascii.eqb c LF then "n"%char else if Ascii.eqb c CR then "r"%char else "t"%char.
Definition ctrl_of (l : ascii) : ascii :=
  if Ascii.eqb l "n" then LF else if Ascii.eqb l "r" then CR else TAB.
Definition hd_is (f : ascii -> bool) (s : string) : bool :=
  match s with
  | EmptyString => false
  | String c _ => f c
  end.

Definition starts_bs_letter (s : string) : bool :=
  match s with
  | String c (String l _) => is_bs c && is_nrt l
  | _ => false
  end.

(** A text with a control character and an escaped letter, and a text
    with escaped letters only. *)
Definition text_with_newline : string :=
  String "a" (String LF (String BS (String "n" (String "b" EmptyString)))).
Definition text_with_backslashes : string :=
  String "a" (String BS (String BS (String "t" (String BS (String "n" EmptyString))))).

End EscapeScan.

(** The collection's [longest_key] with every child counted. *)
Definition max_longest_key (ds : list Dict.StenoDictionary) : nat :=
  foldr Nat.max 0 (map Dict.longest_key ds).

(** The dictionary obtained from an empty one by [update(pairs)]. *)
Definition build (pairs : list (key * string)) : Dict.StenoDictionary :=
  match Dict.update Dict.__init__ pairs with
  | Ok d => d
  | Raise _ => Dict.__init__
  end.

(** A disabled dictionary whose longest key has two strokes. *)
Definition disabled_sample : Dict.StenoDictionary :=
  Dict.with_flags (build [(["KAT"; "HROG"], "catalogue")]) false false.

(** A read-only dictionary holding one entry, as [load] leaves one read
    from a resource that cannot be written. *)
Definition readonly_sample : Dict.StenoDictionary :=
  Dict.with_flags (build [(["KAT"], "cat")]) true true.

(** A high-priority dictionary overriding one key of a low-priority one. *)
Definition override_collection : Collection.StenoDictionaryCollection :=
  Collection.__init__ [ build [(["A"], "hi")];
                        build [(["A"], "hello"); (["B"], "hello")] ].

(** The aggregate of a collection is the one of its children. *)
Definition aggregate_ok (c : Collection.StenoDictionaryCollection) : Prop :=
  Collection.longest_key c = max_longest_key (Collection.dicts c).

(** No space occurs. *)
Fixpoint no_space (s : string) : bool :=
  match s with
  | EmptyString => true
  | String c s' => negb (Ascii.eqb c Orthography.SPACE) && no_space s'
  end.

(** The expansions of the orthography rules that match [word ^ suffix],
    in the order of the rules. *)
Definition rule_expansions (system : System) (word suffix : string) : list string :=
  omap (fun rule => (fun m => expand system m rule.2)
                      <$> rule.1 (word +:+ " ^ " +:+ suffix))
       (ORTHOGRAPHY_RULES system).

(** The text before a final [" ^ "], if the text ends so. *)
Fixpoint stem_before_marker (input : string) : option string :=
  match input with
  | " ^ " => Some EmptyString
  | String c rest => String c <$> stem_before_marker rest
  | EmptyString => None
  end.

(** The [match] method of a pattern for a stem followed by the marker
    and an empty suffix; the match object is reduced to its group 1. *)
Definition plural_rule (input : string) : option string :=
  match stem_before_marker input with
  | Some EmptyString => None
  | r => r
  end.

(** A system with that one orthography rule, whose template appends an
    "s" to group 1; no aliases, an empty word list. *)
Definition sample_system : System :=
  {| MatchObject := string;
     expand := fun m template => m +:+ template;
     PREFIX_KEYS := empty_tuple; SUFFIX_KEYS := empty_tuple;
     ORTHOGRAPHY_RULES := [(plural_rule, "s")];
     ORTHOGRAPHY_RULES_ALIASES := ∅;
     ORTHOGRAPHY_WORDS := ∅ |}.

(** The same rule, with a word list that ranks "walk" and "walks". *)
Definition ranked_system (rank_walk rank_walks : nat) : System :=
  {| MatchObject := string;
     expand := fun m template => m +:+ template;
     PREFIX_KEYS := empty_tuple; SUFFIX_KEYS := empty_tuple;
     ORTHOGRAPHY_RULES := [(plural_rule, "s")];
     ORTHOGRAPHY_RULES_ALIASES := ∅;
     ORTHOGRAPHY_WORDS := {[ "walk" := rank_walk; "walks" := rank_walks ]} |}.

(** A system with no orthography rule at all. *)
Definition no_rule_system : System :=
  {| MatchObject := string;
     expand := fun m template => m +:+ template;
     PREFIX_KEYS := empty_tuple; SUFFIX_KEYS := empty_tuple;
     ORTHOGRAPHY_RULES := [];
     ORTHOGRAPHY_RULES_ALIASES := ∅;
     ORTHOGRAPHY_WORDS := {[ "run" := 49 ]} |}.

Module Samples.
Import Translation.

(** A toy [Stroke(keys)]: the RTFCRE form is the key names joined. *)
Definition new_stroke (keys : list string) : Stroke.t :=
  {| Stroke.rtfcre := String.concat EmptyString keys;
     Stroke.steno_keys := keys; Stroke.is_correction := false |}.

Definition toy_dict : Dict.StenoDictionary :=
build [(["KAT"], "cat"); (["KAT"; "HROG"], "catalogue"); (["TEFT"], "{*}")].

Definition toy_collection : Collection.StenoDictionaryCollection :=
  Collection.__init__ [toy_dict].

(** [Translator()] with the toy dictionary set and one listener added. *)
Definition toy_translator : Translator :=
  {| _undo_length := 0%Z; _dictionary := toy_collection; _listeners := [7];
     _state := empty_state; _to_undo := []; _to_do := 0; emitted := [] |}.

Definition stroke_KAT : Stroke.t := new_stroke ["KAT"].
Definition stroke_HROG : Stroke.t := new_stroke ["HROG"].
Definition stroke_TEFT : Stroke.t := new_stroke ["TEFT"].

(** A macro registry holding one macro, which returns without calling
    any operation of the translator. *)
Definition toy_registry (name : string)
  : option (Translator -> Stroke.t -> string -> result Translator) :=
  if String.eqb name "retrospective_toggle_asterisk"
  then Some (fun tr _ _ => Ok tr)
  else None.

Definition toy_system : System :=
  {| MatchObject := string;
     expand := fun m template => m +:+ template;
     PREFIX_KEYS := empty_tuple; SUFFIX_KEYS := empty_tuple;
     ORTHOGRAPHY_RULES := [];
     ORTHOGRAPHY_RULES_ALIASES := ∅;
     ORTHOGRAPHY_WORDS := ∅ |}.

Definition stroke_WORKD : Stroke.t :=
  {| Stroke.rtfcre := "WORKD"; Stroke.steno_keys := ["W"; "O"; "R"; "K"; "-D"];
     Stroke.is_correction := false |}.
Definition stroke_ZZZ : Stroke.t := new_stroke ["ZZZ"].

Definition t_cat : Translation := __init__ [stroke_KAT] (Some "cat").
Definition t_catalogue : Translation :=
  set_replaced (__init__ [stroke_KAT; stroke_HROG] (Some "catalogue")) [t_cat].

(** The toy translator after the stroke KAT. *)
Definition cat_translator : Translator :=
  {| _undo_length := 0%Z; _dictionary := toy_collection; _listeners := [7];
     _state := {| translations := [t_cat]; tail := None |};
     _to_undo := []; _to_do := 0; emitted := [] |}.

(** A translator over a dictionary with a suffix entry, in a system
    whose suffix key is [-D]. *)
Definition suffix_system : System :=
  {| MatchObject := string;
     expand := fun m template => m +:+ template;
     PREFIX_KEYS := empty_tuple;
     SUFFIX_KEYS := {| ident := 1; items := ["-D"] |};
     ORTHOGRAPHY_RULES := [];
     ORTHOGRAPHY_RULES_ALIASES := ∅;
     ORTHOGRAPHY_WORDS := ∅ |}.

Definition suffix_translator : Translator :=
  {| _undo_length := 0%Z;
     _dictionary := Collection.__init__ [build [(["WORK"], "work"); (["-D"], "{^ed}")]];
     _listeners := [7]; _state := empty_state; _to_undo := []; _to_do := 0;
     emitted := [] |}.

(** A translator over a dictionary with a prefix entry, after a stroke
    that has the prefix key [P]; and two tuple objects that hold this
    key. *)
Definition stroke_PA : Stroke.t := new_stroke ["P"; "A"].
Definition stroke_B : Stroke.t := new_stroke ["B"].
Definition t_pa : Translation := __init__ [stroke_PA] None.

Definition prefix_translator : Translator :=
  {| _undo_length := 0%Z;
     _dictionary := Collection.__init__ [build [(["A"; "B"], "ab"); (["P"], "pre")]];
     _listeners := [7];
     _state := {| translations := [t_pa]; tail := None |};
     _to_undo := []; _to_do := 0; emitted := [] |}.

Definition keys_P : tuple := {| ident := 1; items := ["P"] |}.
Definition other_keys_P : tuple := {| ident := 2; items := ["P"] |}.
End Samples.

(** A state holding one translation and no tail. *)
Definition one_translation_state : Translation._State :=
  {| Translation.translations := [Samples.t_cat]; Translation.tail := None |}.

(** What [prev] answers for a view of the translations. *)
Definition prev_answer (st : Translation._State) (view : list Translation.Translation)
  : option (list Translation.Translation) :=
  match view with
  | _ :: _ => Some view
  | [] => (fun t => [t]) <$> Translation.tail st
  end.

(** The number of strokes of a list of translations. *)
Definition strokes_in (ts : list Translation.Translation) : Z :=
  foldr (fun t acc => (Z.of_nat (Translation.len t) + acc)%Z) 0%Z ts.

(** [seq] with [v] in place of its first element, or of its last. *)
Definition replace_end (prefix : bool) (seq : list string) (v : string) : list string :=
  if prefix then <[0 := v]> seq else <[length seq - 1 := v]> seq.

(** The first pair of [test_pairs] for which both the sequence with the
    stroke replaced and the affix key alone have a mapping, and the two
    mappings joined. *)
Fixpoint affix_search (new_stroke : list string -> Stroke.t)
         (lookup : key -> option string) (prefix : bool) (seq : list string)
         (test_pairs : list (string * string)) : option string :=
  match test_pairs with
  | [] => None
  | (affix_key, removed) :: rest =>
      match lookup (replace_end prefix seq removed),
            lookup [Stroke.rtfcre (new_stroke [affix_key])] with
      | Some main_mapping, Some affix_mapping =>
          Some (if prefix then affix_mapping +:+ " " +:+ main_mapping
                else main_mapping +:+ " " +:+ affix_mapping)
      | _, _ => affix_search new_stroke lookup prefix seq rest
      end
  end.

(** The greedy lookup as the specification words it, to compare
    [_find_translation] with. *)
Module Greedy.
Import Translation.

(** The data-model invariant of a record: as many keys as strokes, and
    at least one stroke. *)
Definition wf_translation (t : Translation) : Prop :=
  length (rtfcre t) = length (strokes t) ∧ strokes t ≠ [].

(** The three lookup modes. *)
Inductive pass := NormalPass | SuffixPass | PrefixPass.

(** The first index of [indices] at which [att] yields a mapping. *)
Fixpoint first_hit (att : nat -> option string) (indices : list nat)
  : option (nat * string) :=
  match indices with
  | [] => None
  | j :: rest =>
      match att j with
      | Some mapping => Some (j, mapping)
      | None => first_hit att rest
      end
  end.

(** The first pass of [ps], and the first index in it, that yield a
    mapping. *)
Fixpoint first_hit_passes (att : pass -> nat -> option string)
         (indices : list nat) (ps : list pass) : option (pass * nat * string) :=
  match ps with
  | [] => None
  | p :: ps' =>
      match first_hit (att p) indices with
      | Some (j, mapping) => Some (p, j, mapping)
      | None => first_hit_passes att indices ps'
      end
  end.

Section Attempts.
Variable new_stroke : list string -> Stroke.t.
Variable lookup_f : key -> option string.
Variable stroke : Stroke.t.
Variables suffix_keys prefix_keys : list string.
(** the trailing translations selected *)
Variable recent : list Translation.

(** The keys under test once the [i] leftmost records are dropped:
    those of the records left, then the key of the new stroke. *)
Definition test_seq_at (i : nat) : list string :=
  concat (map rtfcre (drop i recent)) ++ [Stroke.rtfcre stroke].

(** The affix keys present in a stroke of keys [keys], each with the
    RTFCRE form of the stroke without just that key. *)
Definition variations (keys affixes : list string) : list (string * string) :=
  map (fun k => (k, Stroke.rtfcre (new_stroke (remove_first k keys))))
      (List.filter (fun k => bool_decide (k ∈ keys)) affixes).

(** The first stroke under test once the [i] leftmost records are
    dropped: the first stroke of the first record left, or the new stroke
    when no record is left. *)
Definition first_stroke_at (i : nat) : Stroke.t :=
  default stroke (t ← recent !! i; list.head (strokes t)).

(** What a mode yields with the [i] leftmost records dropped. *)
Definition yields (p : pass) (i : nat) : option string :=
  match p with
  | NormalPass => lookup_f (test_seq_at i)
  | SuffixPass =>
      affix_search new_stroke lookup_f false (test_seq_at i)
                   (variations (Stroke.steno_keys stroke) suffix_keys)
  | PrefixPass =>
      affix_search new_stroke lookup_f true (test_seq_at i)
                   (variations (Stroke.steno_keys (first_stroke_at i)) prefix_keys)
  end.

(** The record returned for a mapping found with [i] records dropped. *)
Definition found (i : nat) (mapping : string) : Translation :=
  set_replaced (__init__ (concat (map strokes (drop i recent)) ++ [stroke]) (Some mapping))
               (drop i recent).

End Attempts.

(** The mode of the pass [_find_translation] makes for an object of
    [(normal, suffixes, prefixes)]: the tests [mode is normal] and
    [mode is suffixes] decide it. *)
Definition pass_of (normal : bool) (suffixes : tuple) (mode : object) : pass :=
  if is_ mode (Bool normal) then NormalPass
  else if is_ mode (Tuple suffixes) then SuffixPass
  else PrefixPass.

(** The modes tried, in order: normal if asked for, suffix folding if
    there are suffix keys, prefix folding if there are prefix keys; when
    [prefixes] is the very object [suffixes] the third pass is a suffix
    pass again. *)
Definition passes (normal : bool) (suffixes prefixes : tuple) : list pass :=
  (if normal then [NormalPass] else [])
  ++ (if nonempty (items suffixes) then [SuffixPass] else [])
  ++ (if nonempty (items prefixes)
      then [if ident prefixes =? ident suffixes then SuffixPass else PrefixPass]
      else []).
End Greedy.


(* ===================================================================== *)
(** * Further notions used in the statements *)
(* ===================================================================== *)

(** No backslash is immediately followed by one of n, r, t. *)
Fixpoint no_bs_letter (s : string) : bool :=
  match s with
  | EmptyString => true
  | String c rest =>
      match rest with
      | String l _ => negb (Escape.is_bs c && Escape.is_nrt l) && no_bs_letter rest
      | EmptyString => true
      end
  end.

(** The recorded longest key length is what [_calculate_longest_key]
    would store. *)
Definition longest_key_ok (d : Dict.StenoDictionary) : Prop :=
  Dict.longest_key d = Dict.max_key_length (Dict.data d).

(** The recorded longest key length is the length of the longest key: no
    key is longer, some key is that long unless there is no key, and then
    it is 0. *)
Definition longest_key_is_longest (d : Dict.StenoDictionary) : Prop :=
  (forall k v, Dict.data d !! k = Some v -> length k <= Dict.longest_key d)
  ∧ (Dict.data d ≠ ∅ ->
     exists k v, Dict.data d !! k = Some v ∧ length k = Dict.longest_key d)
  ∧ (Dict.data d = ∅ -> Dict.longest_key d = 0).

(** What [update(pairs)] leaves in the forward mapping: the pairs written
    over the old contents in order, a later pair winning. *)
Definition updated_with (m : gmap key string) (pairs : list (key * string))
  : gmap key string :=
  foldl (fun m kv => <[kv.1 := kv.2]> m) m pairs.

(** What a mutator adds to the record of callback rounds: the new longest
    key length if it differs from the old one, nothing otherwise. *)
Definition announced (d d' : Dict.StenoDictionary) : list nat :=
  if decide (Dict.longest_key d' = Dict.longest_key d) then []
  else [Dict.longest_key d'].

(** What [_undo] leaves pending when it takes the records [ts] off the
    end of the history: the newest of them, as many as were still to do,
    are simply forgotten; the others are to be undone. *)
Definition undone (tr : Translation.Translator) (ts : list Translation.Translation)
  : list Translation.Translation :=
  take (length ts - Translation._to_do tr) ts ++ Translation._to_undo tr.

(** The horizon of a translator: [max(longest_key, min undo length)]. *)
Definition horizon (tr : Translation.Translator) : Z :=
  Z.max (Z.of_nat (Collection.longest_key (Translation._dictionary tr)))
        (Translation._undo_length tr).

(** No colon occurs. *)
Fixpoint no_colon (s : string) : bool :=
  match s with
  | EmptyString => true
  | String c s' => negb (Ascii.eqb c ":") && no_colon s'
  end.

(** The value a computation returns, or [default] if it raises. *)
Definition value_of {A} (r : result A) (default : A) : A :=
  match r with
  | Ok a => a
  | Raise _ => default
  end.

(** Pairs for [update], with a key given twice. *)
Definition update_pairs : list (key * string) :=
  [(["A"], "hello"); (["B"; "C"], "x"); (["A"], "hey")].

(** A state of three records, of 1, 2 and 1 strokes. *)
Definition three_records : Translation._State :=
  {| Translation.translations :=
       [ Translation.__init__ [Samples.stroke_TEFT] None;
         Translation.__init__ [Samples.stroke_KAT; Samples.stroke_HROG] (Some "catalogue");
         Translation.__init__ [Samples.stroke_ZZZ] None ];
     Translation.tail := None |}.

(* ===================================================================== *)
(** * Escaping and unescaping *)
(* ===================================================================== *)

Section EscapeFacts.
Import Escape EscapeScan.


Lemma is_ctrl_cases c : is_ctrl c = true -> c = LF \/ c = CR \/ c = TAB.
Proof.
  unfold is_ctrl. intros H.
  destruct (Ascii.eqb_spec c LF); [by left|].
  destruct (Ascii.eqb_spec c CR); [by right; left|].
  destruct (Ascii.eqb_spec c TAB); [by right; right|]. done.
Qed.

Lemma is_nrt_cases c :
  is_nrt c = true -> c = "n"%char \/ c = "r"%char \/ c = "t"%char.
Proof.
  unfold is_nrt. intros H.
  destruct (Ascii.eqb_spec c "n"); [by left|].
  destruct (Ascii.eqb_spec c "r"); [by right; left|].
  destruct (Ascii.eqb_spec c "t"); [by right; right|]. done.
Qed.

Lemma is_bs_eq c : is_bs c = true -> c = BS.
Proof. unfold is_bs. by intros ?%Ascii.eqb_eq. Qed.

Lemma nrt_not_ctrl l : is_nrt l = true -> is_ctrl l = false.
Proof. intros H. by destruct (is_nrt_cases _ H) as [-> | [-> | ->]]. Qed.

Lemma nrt_not_bs l : is_nrt l = true -> is_bs l = false.
Proof. intros H. by destruct (is_nrt_cases _ H) as [-> | [-> | ->]]. Qed.

Lemma ctrl_not_bs c : is_ctrl c = true -> is_bs c = false.
Proof. intros H. by destruct (is_ctrl_cases _ H) as [-> | [-> | ->]]. Qed.

Lemma ctrl_of_letter_of c : is_ctrl c = true -> ctrl_of (letter_of c) = c.
Proof. intros H. by destruct (is_ctrl_cases _ H) as [-> | [-> | ->]]. Qed.

Lemma letter_of_ctrl_of l : is_nrt l = true -> letter_of (ctrl_of l) = l.
Proof. intros H. by destruct (is_nrt_cases _ H) as [-> | [-> | ->]]. Qed.

Lemma letter_of_nrt c : is_nrt (letter_of c) = true.
Proof. unfold letter_of. by repeat case_match. Qed.

Lemma ctrl_of_ctrl l : is_ctrl (ctrl_of l) = true.
Proof. unfold ctrl_of. by repeat case_match. Qed.

Lemma substring_0_0 s : substring 0 0 s = EmptyString.
Proof. by destruct s. Qed.

Lemma re_sub_copy rx table p c s :
  rx p (String c s) = None ->
  re_sub rx table p 0 (String c s) = String c (re_sub rx table (Some c) 0 s).
Proof. intros H. simpl. by rewrite H. Qed.

(** Unfolding equations of the escaping scan. *)
Lemma escape_ctrl p c s :
  is_ctrl c = true ->
  escape_from p (String c s) = String BS (String (letter_of c) (escape_from (Some c) s)).
Proof.
  intros Hc. unfold escape_from.
  destruct (is_ctrl_cases _ Hc) as [-> | [-> | ->]]; by destruct s.
Qed.

Lemma escape_bs_letter p l s :
  is_nrt l = true ->
  escape_from p (String BS (String l s))
  = String BS (String BS (String l (escape_from (Some l) s))).
Proof.
  intros Hl. unfold escape_from.
  destruct (is_nrt_cases _ Hl) as [-> | [-> | ->]]; simpl; by rewrite substring_0_0.
Qed.

Lemma escape_copy p c s :
  is_ctrl c = false -> is_bs c && hd_is is_nrt s = false ->
  escape_from p (String c s) = String c (escape_from (Some c) s).
Proof.
  intros Hc Hb. apply re_sub_copy. unfold _ESCAPE_RX.
  destruct s as [|l s]; simpl in *; by rewrite ?Hc ?Hb.
Qed.

Lemma unescape_letter q l s :
  q ≠ Some BS -> is_nrt l = true ->
  unescape_from q (String BS (String l s)) = String (ctrl_of l) (unescape_from (Some l) s).
Proof.
  intros Hq Hl. unfold unescape_from. simpl.
  rewrite bool_decide_eq_false_2 //.
  destruct (is_nrt_cases _ Hl) as [-> | [-> | ->]]; simpl; by rewrite substring_0_0.
Qed.

Lemma unescape_bs_bs q m s :
  is_nrt m = true ->
  unescape_from q (String BS (String BS (String m s)))
  = String BS (String m (unescape_from (Some m) s)).
Proof.
  intros Hm. unfold unescape_from. simpl. rewrite andb_false_r.
  destruct (is_nrt_cases _ Hm) as [-> | [-> | ->]]; simpl; by rewrite substring_0_0.
Qed.

Lemma unescape_copy q c s :
  _UNESCAPE_RX q (String c s) = None ->
  unescape_from q (String c s) = String c (unescape_from (Some c) s).
Proof. apply re_sub_copy. Qed.

Lemma escape_hd p s :
  hd_char (escape_from p s)
  = match s with
    | EmptyString => None
    | String c _ => Some (if is_ctrl c then BS else c)
    end.
Proof.
  destruct s as [|c s]; [done|].
  destruct (is_ctrl c) eqn:Hc; [by rewrite escape_ctrl|].
  destruct (is_bs c && hd_is is_nrt s) eqn:Hb.
  - apply andb_true_iff in Hb as [->%is_bs_eq Hs].
    destruct s as [|l s]; [done|]. simpl in Hs. by rewrite escape_bs_letter.
  - by rewrite escape_copy.
Qed.

Lemma hd_is_escape p f s :
  f BS = false -> hd_is is_ctrl s = false -> hd_is f s = false ->
  hd_is f (escape_from p s) = false.
Proof.
  intros Hf Hc Hs. pose proof (escape_hd p s) as H.
  destruct (escape_from p s) as [|h e]; [done|]. simpl in *.
  destruct s as [|c s]; [done|]. simpl in *. rewrite Hc in H. by simplify_eq.
Qed.

(** Unescaping what escaping produced, from any point of the scan. *)
Lemma unescape_escape_from n : forall t p q,
  String.length t <= n ->
  no_bs_before_ctrl t = true ->
  (q = Some BS -> hd_is is_ctrl t = false) ->
  unescape_from q (escape_from p t) = t.
Proof.
  induction n as [|n IH]; intros t p q Hlen Hgood Hq.
  { destruct t; [done | simpl in Hlen; lia]. }
  destruct t as [|c t]; [done|]. simpl in Hlen.
  assert (Hgood' : no_bs_before_ctrl t = true).
  { simpl in Hgood. destruct t; [done|]. by apply andb_true_iff in Hgood as [_ ?]. }
  destruct (is_ctrl c) eqn:Hc.
  - (* a control character: escaped, then found again by the first alternative *)
    rewrite escape_ctrl // unescape_letter.
    + intros ->. specialize (Hq eq_refl). simpl in Hq. congruence.
    + apply letter_of_nrt.
    + rewrite ctrl_of_letter_of //. f_equal. apply IH; [lia | done |].
      intros [= Hbs]. pose proof (letter_of_nrt c) as H.
      rewrite Hbs in H. done.
  - destruct (is_bs c && hd_is is_nrt t) eqn:Hb.
    + (* a backslash and a letter: doubled, then found by the second alternative *)
      apply andb_true_iff in Hb as [->%is_bs_eq Hs].
      destruct t as [|l t]; [done|]. simpl in Hs, Hlen.
      rewrite escape_bs_letter // unescape_bs_bs //. do 2 f_equal.
      apply IH; [lia | |].
      * simpl in Hgood'. destruct t; [done|]. by apply andb_true_iff in Hgood' as [_ ?].
      * intros [= Heq]. rewrite Heq in Hs. done.
    + (* any other character: copied by both *)
      rewrite escape_copy // unescape_copy.
      * destruct (is_bs c) eqn:Hbs.
        2:{ unfold _UNESCAPE_RX. destruct (escape_from (Some c) t) as [|l [|m e]];
            by rewrite ?Hbs ?andb_false_r. }
        apply is_bs_eq in Hbs as ->. simpl in Hb.
        assert (Hct : hd_is is_ctrl t = false).
        { simpl in Hgood. destruct t as [|d t]; [done|].
          apply andb_true_iff in Hgood as [Hd _]. simpl in *. by destruct (is_ctrl d). }
        pose proof (hd_is_escape (Some BS) is_nrt t eq_refl Hct Hb) as Hh.
        unfold _UNESCAPE_RX.
        destruct (escape_from (Some BS) t) as [|l e] eqn:He; [done|].
        simpl in Hh. rewrite Hh andb_false_r.
        destruct e as [|m e]; [done|].
        destruct (is_bs l) eqn:Hl; [|done]. apply is_bs_eq in Hl as ->.
        (* the escaped rest starts with a backslash: so does the rest *)
        destruct t as [|d t]; [done|]. simpl in Hct, Hb.
        destruct (is_bs d && hd_is is_nrt t) eqn:Hd.
        -- apply andb_true_iff in Hd as [->%is_bs_eq Hs].
           destruct t as [|l t]; [done|]. simpl in Hs.
           rewrite escape_bs_letter // in He. by simplify_eq.
        -- rewrite escape_copy // in He. injection He as Hd' He'. subst d. simpl in Hd.
           assert (Hct' : hd_is is_ctrl t = false).
           { simpl in Hgood'. destruct t as [|d t]; [done|].
             apply andb_true_iff in Hgood' as [Hd' _]. simpl in *. by destruct (is_ctrl d). }
           pose proof (hd_is_escape (Some BS) is_nrt t eq_refl Hct' Hd) as Hh'.
           rewrite He' in Hh'. simpl in Hh'. by rewrite Hh' andb_false_r.
      * f_equal. apply IH; [lia | done |].
        intros [= ->]. simpl in Hgood. destruct t as [|d t]; [done|].
        apply andb_true_iff in Hgood as [Hd _]. simpl. simpl in Hd.
        by destruct (is_ctrl d).
Qed.


Lemma unescape_rx_cases q c s k :
  _UNESCAPE_RX q (String c s) = Some k ->
  (q ≠ Some BS /\ c = BS /\ exists l s', s = String l s' /\ is_nrt l = true)
  \/ (c = BS /\ exists m s', s = String BS (String m s') /\ is_nrt m = true).
Proof.
  unfold _UNESCAPE_RX. destruct s as [|l s]; [done|].
  destruct (negb (bool_decide (q = Some BS)) && is_bs c && is_nrt l) eqn:H1.
  - intros _. left.
    apply andb_true_iff in H1 as [H1 Hl]. apply andb_true_iff in H1 as [Hq Hc].
    apply negb_true_iff, bool_decide_eq_false in Hq.
    split; [done|]. split; [by apply is_bs_eq|]. by exists l, s.
  - destruct s as [|m s]; [done|].
    destruct (is_bs c && is_bs l && is_nrt m) eqn:H2; [|done].
    intros _. right.
    apply andb_true_iff in H2 as [H2 Hm]. apply andb_true_iff in H2 as [Hc Hl].
    apply is_bs_eq in Hl as ->. split; [by apply is_bs_eq|]. by exists m, s.
Qed.

Lemma unescape_hd_after_bs s :
  hd_char (unescape_from (Some BS) s) = hd_char s.
Proof.
  destruct s as [|d s]; [done|].
  destruct (_UNESCAPE_RX (Some BS) (String d s)) as [k|] eqn:Hrx.
  - apply unescape_rx_cases in Hrx as [[Hq _] | [-> (m & s' & -> & Hm)]]; [done|].
    by rewrite unescape_bs_bs.
  - by rewrite unescape_copy.
Qed.

(** Escaping what unescaping produced, from any point of the scan. *)
Lemma escape_unescape_from n : forall t p q,
  String.length t <= n ->
  no_ctrl t = true ->
  (q = Some BS -> starts_bs_letter t = false) ->
  escape_from p (unescape_from q t) = t.
Proof.
  induction n as [|n IH]; intros t p q Hlen Hgood Hq.
  { destruct t; [done | simpl in Hlen; lia]. }
  destruct t as [|c t]; [done|]. simpl in Hlen, Hgood.
  apply andb_true_iff in Hgood as [Hc%negb_true_iff Hgood].
  destruct (_UNESCAPE_RX q (String c t)) as [k|] eqn:Hrx.
  - apply unescape_rx_cases in Hrx
      as [(Hq' & -> & l & s' & -> & Hl) | [-> (m & s' & -> & Hm)]].
    + (* backslash letter: becomes the control character, escaped again *)
      rewrite unescape_letter // escape_ctrl; [apply ctrl_of_ctrl|].
      rewrite letter_of_ctrl_of //. do 2 f_equal.
      simpl in Hgood, Hlen. apply andb_true_iff in Hgood as [_ Hgood].
      apply IH; [lia | done |].
      intros [= Heq]. rewrite Heq in Hl. done.
    + (* two backslashes and a letter: one backslash is dropped, then doubled again *)
      rewrite unescape_bs_bs // escape_bs_letter //. do 3 f_equal.
      simpl in Hgood, Hlen. apply andb_true_iff in Hgood as [_ Hgood].
      apply IH; [lia | done |].
      intros [= Heq]. rewrite Heq in Hm. done.
  - (* any other character: copied by both *)
    rewrite unescape_copy // escape_copy //.
    + destruct (is_bs c) eqn:Hbs; [|done]. apply is_bs_eq in Hbs as ->. simpl.
      pose proof (unescape_hd_after_bs t) as Hh.
      destruct (unescape_from (Some BS) t) as [|h u]; [done|].
      destruct t as [|d t]; [done|]. simpl in Hh. injection Hh as ->. simpl.
      destruct (is_nrt d) eqn:Hd; [|done].
      (* the first alternative was refused: a backslash came before *)
      unfold _UNESCAPE_RX in Hrx. simpl in Hrx. rewrite Hd in Hrx.
      destruct (bool_decide (q = Some BS)) eqn:Hqb; [|done].
      apply bool_decide_eq_true in Hqb. specialize (Hq Hqb). simpl in Hq.
      by rewrite Hd in Hq.
    + f_equal. apply IH; [lia | done |].
      intros [= ->]. destruct t as [|l [|m t]]; [done | done |]. simpl.
      destruct (is_bs l && is_nrt m) eqn:Hlm; [|done].
      unfold _UNESCAPE_RX in Hrx. simpl in Hrx.
      apply andb_true_iff in Hlm as [Hl Hm]. rewrite Hl Hm in Hrx.
      apply is_bs_eq in Hl as ->. simpl in Hrx. by rewrite andb_false_r in Hrx.
Qed.

Lemma no_bs_before_ctrl_of_no_ctrl t : no_ctrl t = true -> no_bs_before_ctrl t = true.
Proof.
  induction t as [|c t IH]; [done|]. simpl.
  intros [Hc Ht]%andb_true_iff. destruct t as [|d t]; [done|].
  rewrite IH //. simpl in Ht. apply andb_true_iff in Ht as [Hd%negb_true_iff _].
  by rewrite Hd andb_false_r.
Qed.

(** Every text a pattern matches is a key of its replacement table:
    the subscript in the replacement function never raises. *)
Lemma escape_group_is_key p s k :
  _ESCAPE_RX p s = Some k ->
  is_Some (dict_get _ESCAPE_REPLACEMENTS (substring 0 k s)).
Proof.
  unfold _ESCAPE_RX. destruct s as [|c s]; [done|].
  assert (Hctrl : is_ctrl c = true ->
                  is_Some (dict_get _ESCAPE_REPLACEMENTS (substring 0 1 (String c s)))).
  { intros Hc. simpl. rewrite substring_0_0.
    by destruct (is_ctrl_cases _ Hc) as [-> | [-> | ->]]. }
  destruct s as [|l s].
  - destruct (is_ctrl c) eqn:Hc; [|done]. intros [= <-]. by apply Hctrl.
  - destruct (is_bs c && is_nrt l) eqn:Hb.
    + intros [= <-]. apply andb_true_iff in Hb as [->%is_bs_eq Hl].
      simpl. rewrite substring_0_0.
      by destruct (is_nrt_cases _ Hl) as [-> | [-> | ->]].
    + destruct (is_ctrl c) eqn:Hc; [|done]. intros [= <-]. by apply Hctrl.
Qed.

Lemma unescape_group_is_key q s k :
  _UNESCAPE_RX q s = Some k ->
  is_Some (dict_get _UNESCAPE_REPLACEMENTS (substring 0 k s)).
Proof.
  destruct s as [|c s]; [done|]. intros Hrx.
  destruct (unescape_rx_cases _ _ _ _ Hrx)
    as [(Hq & -> & l & s' & -> & Hl) | [-> (m & s' & -> & Hm)]].
  - unfold _UNESCAPE_RX in Hrx. rewrite bool_decide_eq_false_2 // Hl /= in Hrx.
    injection Hrx as <-. simpl. rewrite substring_0_0.
    by destruct (is_nrt_cases _ Hl) as [-> | [-> | ->]].
  - unfold _UNESCAPE_RX in Hrx. rewrite Hm /= andb_false_r /= in Hrx.
    injection Hrx as <-. simpl. rewrite substring_0_0.
    by destruct (is_nrt_cases _ Hm) as [-> | [-> | ->]].
Qed.

(** C7 (as amended): [unescape_translation (escape_translation t) = t]
    for every text [t] in which no backslash stands immediately before a
    literal newline, carriage return or tab, and
    [escape_translation (unescape_translation u) = u] for every text [u]
    that contains none of these three control characters. *)
Theorem escape_unescape_inverse (t u : string) :
  no_bs_before_ctrl t = true ->
  no_ctrl u = true ->
  unescape_translation (escape_translation t) = t
  /\ escape_translation (unescape_translation u) = u.
Proof.
  intros Ht Hu. split.
  - by apply (unescape_escape_from (String.length t)).
  - by apply (escape_unescape_from (String.length u)).
Qed.

Lemma escape_unescape_inverse_witness :
  unescape_translation (escape_translation text_with_newline) = text_with_newline
  /\ escape_translation (unescape_translation text_with_backslashes)
     = text_with_backslashes.
Proof.
  apply (escape_unescape_inverse text_with_newline text_with_backslashes); reflexivity.
Defined.

(** C7 as stated fails on the text made of one newline: unescaping
    leaves it alone, escaping then turns it into backslash, n. *)
Lemma escape_unescape_not_inverse :
  ~ (unescape_translation (escape_translation (String LF EmptyString))
     = String LF EmptyString
     /\ escape_translation (unescape_translation (String LF EmptyString))
        = String LF EmptyString).
Proof. intros [_ H]. vm_compute in H. discriminate H. Qed.

(** Escaping maps backslash, newline and backslash, n to the same text,
    so the first round trip fails too once a backslash stands before a
    control character. *)
Example unescape_escape_backslash_newline :
  escape_translation (str2 BS LF) = str3 BS BS "n"
  /\ escape_translation (str2 BS "n") = str3 BS BS "n"
  /\ unescape_translation (escape_translation (str2 BS LF)) = str2 BS "n".
Proof. repeat split. Qed.

End EscapeFacts.

(* ===================================================================== *)
(** * The reverse index and the single dictionary *)
(* ===================================================================== *)

Section ReverseIndexFacts.
Import ReverseStenoDict.

Lemma get_append_key (r : ReverseStenoDict.t) value k value' :
  get (append_key value k r) value'
  = if decide (value = value') then get r value ∪ {[k]} else get r value'.
Proof.
  unfold append_key, get at 1. rewrite lookup_insert.
  case_decide; simplify_eq; done.
Qed.

Lemma get_remove_key (r : ReverseStenoDict.t) value k value' :
  get (remove_key value k r) value'
  = if decide (value = value') then get r value ∖ {[k]} else get r value'.
Proof.
  unfold remove_key, get.
  destruct (decide (value = value')) as [<-|Hne].
  - destruct (r !! value) as [ks|] eqn:Hr.
    + destruct (decide (ks ∖ {[k]} = ∅)) as [He|He].
      * by rewrite lookup_delete_eq /= He.
      * by rewrite lookup_insert_eq.
    + rewrite Hr /=. set_solver.
  - destruct (r !! value) as [ks|] eqn:Hr; [|done].
    destruct (decide (ks ∖ {[k]} = ∅)) as [He|He].
    + by rewrite lookup_delete_ne.
    + by rewrite lookup_insert_ne.
Qed.

Lemma elem_of_match_forward (m : gmap key string) k value :
  k ∈ get (match_forward m) value ↔ m !! k = Some value.
Proof.
  unfold match_forward. revert k value.
  apply (map_fold_weak_ind
           (fun r m => ∀ k value, k ∈ get r value ↔ m !! k = Some value)).
  - intros k value. unfold get. rewrite !lookup_empty /=. set_solver.
  - intros k0 v0 m0 r Hk0 IH k value. rewrite get_append_key.
    destruct (decide (k0 = k)) as [->|Hne].
    + rewrite lookup_insert_eq. case_decide; simplify_eq.
      * split; [done|]. set_solver.
      * rewrite IH Hk0. split; [done | congruence].
    + rewrite lookup_insert_ne //. case_decide; simplify_eq.
      * rewrite elem_of_union IH. set_solver.
      * apply IH.
Qed.

End ReverseIndexFacts.

Section DictFacts.
Import Dict.

Lemma reverse_lookup_get d value :
  reverse_lookup d value = ReverseStenoDict.get (reverse d) value.
Proof. unfold reverse_lookup, ReverseStenoDict.get. by destruct (reverse d !! value). Qed.

Lemma set_longest_key_contents d n :
  data (set_longest_key d n) = data d ∧ reverse (set_longest_key d n) = reverse d
  ∧ readonly (set_longest_key d n) = readonly d
  ∧ enabled (set_longest_key d n) = enabled d
  ∧ _longest_key_length (set_longest_key d n) = n.
Proof. unfold set_longest_key. by case_decide. Qed.

Lemma set_longest_key_fired d n :
  fired (set_longest_key d n) = fired d ->
  _longest_key_length (set_longest_key d n) = _longest_key_length d.
Proof.
  unfold set_longest_key. case_decide; [done|]. simpl.
  intros Hf. apply (f_equal length) in Hf. rewrite length_app /= in Hf. lia.
Qed.

Lemma init_consistent : reverse_consistent __init__.
Proof.
  intros k value. unfold reverse_lookup. simpl. rewrite !lookup_empty. set_solver.
Qed.

Lemma clear_consistent d : reverse_consistent (clear d).
Proof.
  intros k value. unfold clear, reverse_lookup.
  destruct (set_longest_key_contents (with_contents d ∅ (ReverseStenoDict.clear (reverse d))) 0)
    as (-> & -> & _). simpl. unfold ReverseStenoDict.clear.
  rewrite !lookup_empty. set_solver.
Qed.

Lemma setitem_consistent d k value d' :
  reverse_consistent d -> __setitem__ d k value = Ok d' -> reverse_consistent d'.
Proof.
  intros Hd. unfold __setitem__. destruct (readonly d); [done|]. simpl.
  intros [= <-] k' value'. rewrite reverse_lookup_get. simpl.
  rewrite get_append_key.
  destruct (data d !! k) as [old|] eqn:Hk; simpl.
  - rewrite !get_remove_key. pose proof (Hd k' value') as H1. pose proof (Hd k' value) as H2.
    pose proof (Hd k' old) as H3.
    rewrite !reverse_lookup_get in H1 H2 H3.
    destruct (decide (k = k')) as [->|Hne].
    + rewrite lookup_insert_eq. repeat case_decide; simplify_eq; set_solver.
    + rewrite lookup_insert_ne //. repeat case_decide; simplify_eq; set_solver.
  - destruct (set_longest_key_contents d (Nat.max (_longest_key_length d) (length k)))
      as (-> & -> & _).
    pose proof (Hd k' value') as H1. pose proof (Hd k' value) as H2.
    rewrite !reverse_lookup_get in H1 H2.
    destruct (decide (k = k')) as [->|Hne].
    + rewrite lookup_insert_eq. case_decide; simplify_eq; set_solver.
    + rewrite lookup_insert_ne //. case_decide; simplify_eq; set_solver.
Qed.

Lemma calculate_longest_key_contents d :
  data (_calculate_longest_key d) = data d
  ∧ reverse (_calculate_longest_key d) = reverse d.
Proof.
  unfold _calculate_longest_key.
  by destruct (set_longest_key_contents d (max_key_length (data d))) as (-> & -> & _).
Qed.

Lemma reverse_consistent_ext d d' :
  data d' = data d -> reverse d' = reverse d ->
  reverse_consistent d -> reverse_consistent d'.
Proof.
  intros Hdata Hrev Hd k value. unfold reverse_lookup. rewrite Hdata Hrev. apply Hd.
Qed.

Lemma delitem_consistent d k d' :
  reverse_consistent d -> __delitem__ d k = Ok d' -> reverse_consistent d'.
Proof.
  intros Hd. unfold __delitem__. destruct (readonly d); [done|]. simpl.
  destruct (data d !! k) as [value|] eqn:Hk; [|done]. simpl.
  set (d1 := with_contents d _ _). intros [= <-].
  assert (Hd1 : reverse_consistent d1).
  { intros k' value'. rewrite reverse_lookup_get. simpl. rewrite get_remove_key.
    pose proof (Hd k' value') as H1. pose proof (Hd k' value) as H2.
    rewrite !reverse_lookup_get in H1 H2.
    destruct (decide (k = k')) as [->|Hne].
    - rewrite lookup_delete_eq. case_decide; simplify_eq; set_solver.
    - rewrite lookup_delete_ne //. case_decide; simplify_eq; set_solver. }
  case_decide; [|done].
  destruct (calculate_longest_key_contents d1) as [Hdata Hrev].
  by apply (reverse_consistent_ext d1).
Qed.

Lemma setitems_consistent items : forall d d',
  reverse_consistent d -> setitems d items = Ok d' -> reverse_consistent d'.
Proof.
  induction items as [|[k v] items IH]; intros d d' Hd; simpl.
  - by intros [= <-].
  - destruct (__setitem__ d k v) as [d1|e] eqn:Hset; [|done]. simpl.
    apply IH. by eapply setitem_consistent.
Qed.

Lemma update_consistent d pairs d' :
  reverse_consistent d -> update d pairs = Ok d' -> reverse_consistent d'.
Proof.
  intros Hd. unfold update. destruct (readonly d); [done|]. simpl.
  case_decide as Hempty.
  - intros [= <-]. set (d1 := with_contents d _ _).
    destruct (calculate_longest_key_contents d1) as [Hdata Hrev].
    apply (reverse_consistent_ext d1); [done | done |].
    intros k value. rewrite reverse_lookup_get. apply elem_of_match_forward.
  - by apply setitems_consistent.
Qed.

(** On a read-only dictionary [__setitem__], [__delitem__] and [update]
    raise at their first statement. *)
Lemma readonly_mutators_raise d k value pairs :
  readonly d = true ->
  __setitem__ d k value = Raise AssertionError
  ∧ __delitem__ d k = Raise AssertionError
  ∧ update d pairs = Raise AssertionError.
Proof. intros H. unfold __setitem__, __delitem__, update. by rewrite H. Qed.

End DictFacts.

Section ReadonlyFacts.
Import Dict.
Lemma build_consistent pairs : reverse_consistent (build pairs).
Proof.
  unfold build. destruct (update __init__ pairs) as [d|e] eqn:Hu.
  - apply (update_consistent __init__ pairs); [apply init_consistent | done].
  - apply init_consistent.
Qed.

(** C9: [clear] has no [assert not self.readonly]: on a read-only
    dictionary holding an entry it does not fail, it empties the forward
    mapping and the reverse index and resets [longest_key], where
    [__setitem__], [__delitem__] and [update] raise. *)
Theorem clear_on_readonly :
  readonly readonly_sample = true
  ∧ data readonly_sample !! ["KAT"] = Some "cat"
  ∧ data (clear readonly_sample) = ∅
  ∧ reverse (clear readonly_sample) = ∅
  ∧ longest_key readonly_sample = 1
  ∧ longest_key (clear readonly_sample) = 0
  ∧ __setitem__ readonly_sample ["KAT"] "dog" = Raise AssertionError
  ∧ __delitem__ readonly_sample ["KAT"] = Raise AssertionError
  ∧ update readonly_sample [(["KAT"], "dog")] = Raise AssertionError.
Proof. repeat split; vm_compute; reflexivity. Qed.

End ReadonlyFacts.


(* ===================================================================== *)
(** * The dictionary collection *)
(* ===================================================================== *)

Section CollectionFacts.
Import Dict Collection.

Lemma reverse_lookup_loop_app l1 l2 value keys :
  reverse_lookup_loop (l1 ++ l2) value keys
  = reverse_lookup_loop l2 value (reverse_lookup_loop l1 value keys).
Proof. revert keys. induction l1 as [|d l1 IH]; intros keys; simpl; [done | apply IH]. Qed.

Lemma reverse_lookup_cons c d ds value :
  dicts c = d :: ds ->
  reverse_lookup c value
  = reverse_lookup_step d value (reverse_lookup (with_dicts c ds) value).
Proof.
  intros Hc. unfold reverse_lookup. rewrite Hc /=. by rewrite reverse_lookup_loop_app.
Qed.

Lemma elem_of_reverse_lookup_step d value keys k :
  reverse_consistent d ->
  k ∈ reverse_lookup_step d value keys
  ↔ if enabled d
    then (k ∈ keys ∧ data d !! k = None) ∨ data d !! k = Some value
    else k ∈ keys.
Proof.
  intros Hd. unfold reverse_lookup_step. destruct (enabled d); [|done].
  rewrite elem_of_union Hd. case_bool_decide as Hne.
  - rewrite elem_of_difference elem_of_filter. rewrite eq_None_not_Some. naive_solver.
  - subst keys. set_solver.
Qed.

Lemma elem_of_reverse_lookup_loop ds value k :
  Forall reverse_consistent ds ->
  k ∈ reverse_lookup_loop (rev ds) value ∅ ↔ raw_lookup_in ds k = Some value.
Proof.
  induction 1 as [|d ds Hd Hds IH]; simpl.
  - set_solver.
  - rewrite reverse_lookup_loop_app /= elem_of_reverse_lookup_step //.
    destruct (enabled d); [|apply IH].
    rewrite IH. destruct (data d !! k) as [v|]; naive_solver.
Qed.

(** C1: over a collection whose children have a reverse index that
    agrees with their forward mapping, [reverse_lookup text] is exactly
    the set of keys [k] with [raw_lookup k = text]; and the set is built
    child by child from the lowest priority up: at an enabled child the
    keys accumulated so far that are keys of the child are removed, then
    the child's own reverse hits are added. *)
Theorem reverse_lookup_exact (c : StenoDictionaryCollection) (text : string) :
  Forall reverse_consistent (dicts c) ->
  (∀ k : key, k ∈ reverse_lookup c text ↔ raw_lookup c k = Some text)
  ∧ (∀ d ds, dicts c = d :: ds ->
       let keys := reverse_lookup (with_dicts c ds) text in
       reverse_lookup c text
       = if enabled d
         then keys ∖ filter (fun k => is_Some (data d !! k)) keys ∪ Dict.reverse_lookup d text
         else keys).
Proof.
  intros Hc. split.
  - intros k. by apply elem_of_reverse_lookup_loop.
  - intros d ds Hds keys. rewrite (reverse_lookup_cons c d ds) //.
    unfold reverse_lookup_step. fold keys. destruct (enabled d); [|done].
    case_bool_decide as Hne; [done|]. rewrite Hne. set_solver.
Qed.

Lemma reverse_lookup_exact_witness :
  ["B"] ∈ reverse_lookup override_collection "hello"
  ↔ raw_lookup override_collection ["B"] = Some "hello".
Proof.
  apply (reverse_lookup_exact override_collection "hello").
  repeat constructor; apply build_consistent.
Defined.

(** The override scenario: the hit on A of the low-priority dictionary is
    hidden by the high-priority one. *)
Example reverse_lookup_override :
  reverse_lookup override_collection "hello" = {[ ["B"] ]}
  ∧ raw_lookup override_collection ["A"] = Some "hi"
  ∧ raw_lookup override_collection ["B"] = Some "hello".
Proof. repeat split; vm_compute; reflexivity. Qed.

Lemma new_longest_key_max ds : new_longest_key ds = max_longest_key ds.
Proof.
  unfold new_longest_key, max_longest_key. destruct ds as [|d ds]; [done|]. simpl.
  generalize (Dict.longest_key d) as a. induction ds as [|e ds IH]; intros a; simpl.
  - lia.
  - rewrite IH. lia.
Qed.

Lemma max_longest_key_bound ds d :
  d ∈ ds -> Dict.longest_key d <= max_longest_key ds.
Proof.
  unfold max_longest_key. induction 1 as [d ds | d e ds _ IH]; simpl; lia.
Qed.

(** C2 (as amended): after the collection's listener has run, the
    collection's [longest_key] is the maximum of the [longest_key] of all
    its children, enabled or not (0 if there are none), and every
    collection-level callback has been called once with the new value if
    the value changed, and not at all otherwise. *)
Theorem longest_key_counts_every_child (c : StenoDictionaryCollection) :
  let c' := _longest_key_listener c in
  dicts c' = dicts c
  ∧ longest_key c' = max_longest_key (dicts c)
  ∧ (∀ d, d ∈ dicts c -> Dict.longest_key d <= longest_key c')
  ∧ called c'
    = called c ++ (if decide (longest_key c' = longest_key c) then []
                   else map (fun cb => (cb, longest_key c')) (longest_key_callbacks c)).
Proof.
  intros c'. subst c'. unfold _longest_key_listener.
  rewrite new_longest_key_max.
  destruct (decide (max_longest_key (dicts c) ≠ longest_key c)) as [Hne|Heq]; simpl.
  - repeat split; [apply max_longest_key_bound|]. by rewrite decide_False.
  - apply dec_stable in Heq. rewrite -Heq.
    repeat split; [apply max_longest_key_bound|]. rewrite decide_True //. by rewrite app_nil_r.
Qed.

(** C2 as stated fails on a collection whose only child is disabled and
    has a key of two strokes: the aggregate is 2, the maximum over the
    enabled children is 0. *)
Lemma longest_key_ignores_enabled :
  enabled disabled_sample = false
  ∧ longest_key (Collection.__init__ [disabled_sample]) = 2
  ∧ max_enabled_longest_key (dicts (Collection.__init__ [disabled_sample])) = 0
  ∧ longest_key (Collection.__init__ [disabled_sample])
    ≠ max_enabled_longest_key (dicts (Collection.__init__ [disabled_sample])).
Proof. repeat split; vm_compute; (reflexivity || discriminate). Qed.

(** The aggregate is maintained by [set_dicts] and by [set]. *)
Lemma listener_aggregate_ok c : aggregate_ok (_longest_key_listener c).
Proof.
  unfold aggregate_ok, _longest_key_listener. rewrite new_longest_key_max.
  case_decide as Hne; [done | by symmetry].
Qed.

Lemma set_dicts_aggregate_ok c ds : aggregate_ok (set_dicts c ds).
Proof. apply listener_aggregate_ok. Qed.

Lemma setitem_fired d k value d' :
  __setitem__ d k value = Ok d' -> fired d' = fired d ->
  Dict.longest_key d' = Dict.longest_key d.
Proof.
  unfold __setitem__. destruct (readonly d); [done|]. simpl.
  intros [= <-]. simpl. destruct (data d !! k); [done|].
  apply set_longest_key_fired.
Qed.

Lemma max_longest_key_insert ds i d d' :
  ds !! i = Some d -> Dict.longest_key d' = Dict.longest_key d ->
  max_longest_key (<[i := d']> ds) = max_longest_key ds.
Proof.
  unfold max_longest_key. revert i. induction ds as [|e ds IH]; intros [|i]; simpl; try done.
  - intros [= ->] ->. done.
  - intros Hi Hl. by rewrite (IH i).
Qed.

Lemma set_aggregate_ok c k value p c' :
  aggregate_ok c -> Collection.set c k value p = Ok c' -> aggregate_ok c'.
Proof.
  intros Hc. unfold Collection.set.
  destruct (match p with None => _ | Some _ => _ end) as [i|]; [|done]. simpl.
  destruct (dicts c !! i) as [d|] eqn:Hi; [|done]. simpl.
  destruct (__setitem__ d k value) as [d'|] eqn:Hset; [|done]. simpl.
  intros [= <-]. unfold child_changed. case_decide as Hf.
  - unfold aggregate_ok. simpl. rewrite (max_longest_key_insert _ _ d) //.
    by apply (setitem_fired _ k value).
  - apply listener_aggregate_ok.
Qed.

End CollectionFacts.

(* ===================================================================== *)
(** * The orthography joiner *)
(* ===================================================================== *)

Section OrthographyFacts.
Import Orthography.
Variable system : System.

Lemma append_cons x (a b : string) : String x a +:+ b = String x (a +:+ b).
Proof. reflexivity. Qed.

Lemma append_assoc (a b c : string) : (a +:+ b) +:+ c = a +:+ (b +:+ c).
Proof. induction a as [|x a IH]; [done | by rewrite !append_cons IH]. Qed.

Lemma append_empty_r (a : string) : a +:+ EmptyString = a.
Proof. induction a as [|x a IH]; [done | by rewrite append_cons IH]. Qed.

Lemma partition_space_spec s :
  let '(head, sep, rest) := partition_space s in
  s = head +:+ sep +:+ rest
  ∧ no_space head = true
  ∧ ((sep = String SPACE EmptyString)
     ∨ (sep = EmptyString ∧ rest = EmptyString ∧ head = s)).
Proof.
  induction s as [|c s IH]; simpl.
  - split; [done|]. split; [done|]. by right.
  - destruct (Ascii.eqb c SPACE) eqn:Hc.
    + apply Ascii.eqb_eq in Hc as ->. split; [done|]. split; [done|]. by left.
    + destruct (partition_space s) as [[head sep] rest].
      destruct IH as (Hs & Hh & Hsep). simpl. rewrite Hc /=.
      split; [by rewrite {1}Hs|]. split; [done|].
      destruct Hsep as [->|(-> & -> & ->)]; [by left|by right].
Qed.

(** [min_from] returns the first element of least rank. *)
Lemma min_from_spec {A} (rank : A -> nat) (l : list A) : forall best,
  exists i, (best :: l) !! i = Some (min_from rank best l)
    ∧ forall j x, (best :: l) !! j = Some x ->
        rank (min_from rank best l) <= rank x
        ∧ (j < i -> rank (min_from rank best l) < rank x).
Proof.
  induction l as [|y l IH]; intros best; simpl.
  - exists 0. split; [done|]. intros [|j] x; simpl; [|done].
    intros [= ->]. split; lia.
  - destruct (rank y <? rank best) eqn:Hlt.
    + apply Nat.ltb_lt in Hlt. destruct (IH y) as (i & Hi & Hmin).
      exists (S i). split; [done|]. intros [|j] x; simpl.
      * intros [= <-]. destruct (Hmin 0 y eq_refl) as [Hle _]. split; lia.
      * intros Hj. destruct (Hmin j x Hj) as [Hle Hlt']. split; [done|]. lia.
    + apply Nat.ltb_ge in Hlt. destruct (IH best) as (i & Hi & Hmin).
      destruct i as [|i].
      * exists 0. split; [done|]. intros [|[|j]] x; simpl.
        -- intros [= <-]. apply (Hmin 0); done.
        -- intros [= <-]. simpl in Hi. injection Hi as Hi. rewrite -Hi. split; lia.
        -- intros Hj. destruct (Hmin (S j) x Hj) as [Hle _]. split; [done | lia].
      * exists (S (S i)). split; [done|]. intros [|[|j]] x; simpl.
        -- intros [= <-]. destruct (Hmin 0 best eq_refl) as [Hle Hlt']. split; [done|].
           intros _. apply Hlt'. lia.
        -- intros [= <-]. destruct (Hmin 0 best eq_refl) as [Hle Hlt'].
           split; [lia|]. intros _. specialize (Hlt' ltac:(lia)). lia.
        -- intros Hj. destruct (Hmin (S j) x Hj) as [Hle Hlt']. split; [done|]. lia.
Qed.

(** The elements a filter keeps, keep their order: they are found in
    the list at increasing positions. *)
Lemma filter_index {A} (p : A -> bool) (l : list A) :
  exists f : nat -> nat,
    (forall a b, a < b -> f a < f b)
    ∧ (forall k x, List.filter p l !! k = Some x -> l !! f k = Some x)
    ∧ (forall j x, l !! j = Some x -> p x = true ->
                   exists k, f k = j ∧ List.filter p l !! k = Some x).
Proof.
  induction l as [|y l (f & Hmono & Hin & Hout)].
  - exists (fun k => k). split; [done|]. split; [done|]. intros j x Hj. done.
  - simpl. destruct (p y) eqn:Hy.
    + exists (fun k => match k with 0 => 0 | S k => S (f k) end). split; [|split].
      * intros [|a] [|b] Hab; try lia. specialize (Hmono a b). lia.
      * intros [|k] x; simpl; [done | apply Hin].
      * intros [|j] x; simpl.
        -- intros [= ->] _. by exists 0.
        -- intros Hj Hx. destruct (Hout j x Hj Hx) as (k & <- & Hk). by exists (S k).
    + exists (fun k => S (f k)). split; [|split].
      * intros a b Hab. specialize (Hmono a b). lia.
      * intros k x. simpl. apply Hin.
      * intros [|j] x; simpl.
        -- intros [= ->] Hx. by rewrite Hx in Hy.
        -- intros Hj Hx. destruct (Hout j x Hj Hx) as (k & <- & Hk). by exists k.
Qed.

Lemma in_dict_f_spec (w : string) :
  in_dict_f system w = true <-> is_Some (ORTHOGRAPHY_WORDS system !! w).
Proof. unfold in_dict_f. apply bool_decide_eq_true. Qed.

Lemma word_rank_spec (w : string) (rank : nat) :
  ORTHOGRAPHY_WORDS system !! w = Some rank -> word_rank system w = rank.
Proof. unfold word_rank. by intros ->. Qed.

Lemma add_candidates_loop_spec rules : forall candidates input,
  add_candidates_loop system rules candidates input
  = candidates ++ omap (fun rule => (fun m => expand system m rule.2) <$> rule.1 input) rules.
Proof.
  induction rules as [|[rx_match replacement] rules IH]; intros candidates input; simpl.
  - by rewrite app_nil_r.
  - destruct (rx_match input) as [m|]; simpl; [|apply IH].
    by rewrite IH -app_assoc.
Qed.

(** The candidates, in the order in which [_add_suffix] appends them. *)
Lemma collect_candidates_spec (word suffix : string) :
  collect_candidates system word suffix
  = (if bool_decide (is_Some (ORTHOGRAPHY_WORDS system !! (word +:+ suffix)))
     then [word +:+ suffix] else [])
    ++ rule_expansions system word suffix
    ++ match ORTHOGRAPHY_RULES_ALIASES system !! suffix with
       | Some alias => rule_expansions system word alias
       | None => []
       end.
Proof.
  unfold collect_candidates, _add_candidates_from_rules, rule_expansions, in_dict_f.
  rewrite add_candidates_loop_spec.
  destruct (ORTHOGRAPHY_RULES_ALIASES system !! suffix) as [alias|].
  - rewrite add_candidates_loop_spec.
    destruct (bool_decide _); by rewrite -?app_assoc.
  - rewrite app_nil_r. by destruct (bool_decide _).
Qed.

(** C5: [add_suffix word suffix] splits the suffix at its first space,
    joins the part before it, the token, to the word and appends the
    separator and the remainder unchanged.  The candidates for the joined
    form are, in this order: the word followed by the token if that is in
    the word list [ORTHOGRAPHY_WORDS]; the expansions of the rules that
    match the word and the token; those of the rules that match the word
    and the alias of the token, if it has one.  If some candidate is in
    the word list, the joined form is in the word list, no candidate that
    is in it has a smaller rank, and the candidates before it that are in
    it have a greater one.  If there are candidates but none is in the
    word list, it is the first candidate.  If there is no candidate, it
    is the word followed by the token. *)
Theorem add_suffix_selects (word suffix : string) :
  exists (token sep rest joined : string) (candidates : list string),
    (** only the first space-delimited token is joined *)
    suffix = token +:+ sep +:+ rest
    ∧ no_space token = true
    ∧ (sep = " " ∨ (sep = EmptyString ∧ rest = EmptyString))
    ∧ add_suffix system word suffix = joined +:+ sep +:+ rest
    ∧ joined = _add_suffix system word token
    (** the candidates collected *)
    ∧ candidates
      = (if bool_decide (is_Some (ORTHOGRAPHY_WORDS system !! (word +:+ token)))
         then [word +:+ token] else [])
        ++ rule_expansions system word token
        ++ match ORTHOGRAPHY_RULES_ALIASES system !! token with
           | Some alias => rule_expansions system word alias
           | None => []
           end
    (** the choice among them *)
    ∧ (forall c, c ∈ candidates -> is_Some (ORTHOGRAPHY_WORDS system !! c) ->
         exists (i rank : nat),
           candidates !! i = Some joined
           ∧ ORTHOGRAPHY_WORDS system !! joined = Some rank
           ∧ forall j c' rank',
               candidates !! j = Some c' ->
               ORTHOGRAPHY_WORDS system !! c' = Some rank' ->
               rank <= rank' ∧ (j < i -> rank < rank'))
    ∧ (candidates ≠ [] ->
       (forall c, c ∈ candidates -> ORTHOGRAPHY_WORDS system !! c = None) ->
       head candidates = Some joined)
    ∧ (candidates = [] -> joined = word +:+ token).
Proof.
  pose proof (partition_space_spec suffix) as Hp. unfold add_suffix.
  destruct (partition_space suffix) as [[token sep] rest].
  destruct Hp as (Hs & Ht & Hsep).
  exists token, sep, rest, (_add_suffix system word token),
         (collect_candidates system word token).
  split; [done|]. split; [done|]. split; [naive_solver|].
  split; [done|]. split; [done|]. split; [apply collect_candidates_spec|].
  unfold _add_suffix. generalize (collect_candidates system word token).
  intros candidates.
  destruct (filter_index (in_dict_f system) candidates) as (f & Hmono & Hin & Hout).
  assert (Hfiltered : forall d, In d (List.filter (in_dict_f system) candidates) ->
                        is_Some (ORTHOGRAPHY_WORDS system !! d)).
  { intros d [_ Hd]%filter_In. by apply in_dict_f_spec. }
  destruct candidates as [|first cs].
  { split; [|done]. intros c Hc. by apply elem_of_nil in Hc. }
  cbv beta iota.
  remember (first :: cs) as candidates eqn:Hcands.
  destruct (List.filter (in_dict_f system) candidates) as [|d ds] eqn:Hd.
  - split; [|split; [|by rewrite Hcands]].
    + intros c Hc Hw. apply list_elem_of_lookup in Hc as [jc Hjc].
      by destruct (Hout jc c Hjc (proj2 (in_dict_f_spec c) Hw)) as (kc & _ & Hkc).
    + intros _ _. by rewrite Hcands.
  - destruct (min_from_spec (word_rank system) ds d) as (i' & Hi' & Hmin).
    set (joined := min_from (word_rank system) d ds) in *.
    assert (Hjoined : is_Some (ORTHOGRAPHY_WORDS system !! joined)).
    { apply Hfiltered, (proj1 (list_elem_of_In _ _)), list_elem_of_lookup. by exists i'. }
    split; [|split; [|by rewrite Hcands]].
    + intros _ _ _. destruct Hjoined as [rank Hrank].
      exists (f i'), rank. split; [by apply Hin|]. split; [done|].
      intros j c' rank' Hj Hc'.
      destruct (Hout j c' Hj) as (k & <- & Hk).
      { apply in_dict_f_spec. by rewrite Hc'. }
      destruct (Hmin k c' Hk) as [Hle Hlt].
      rewrite (word_rank_spec _ _ Hrank) (word_rank_spec _ _ Hc') in Hle, Hlt.
      split; [done|]. intros Hfk. apply Hlt.
      destruct (Nat.lt_ge_cases k i') as [|Hge]; [done|].
      destruct (decide (k = i')) as [->|Hne]; [lia|].
      specialize (Hmono i' k ltac:(lia)). lia.
    + intros _ Hnone. rewrite Hnone in Hjoined; [|by destruct Hjoined].
      apply list_elem_of_lookup. exists (f i'). by apply Hin.
Qed.

Lemma add_candidates_loop_none rules candidates input :
  Forall (fun rule => rule.1 input = None) rules ->
  add_candidates_loop system rules candidates input = candidates.
Proof.
  induction 1 as [|[rx_match replacement] rules Hr _ IH]; simpl; [done|].
  simpl in Hr. by rewrite Hr.
Qed.

(** C6 (as amended): [add_suffix w ""] is [w] whenever no orthography
    rule matches [w + " ^ "] and, if the empty suffix has an alias, no
    rule matches [w + " ^ " + alias]; whatever the word list contains. *)
Theorem add_suffix_empty_suffix (w : string) :
  Forall (fun rule => rule.1 (w +:+ " ^ ") = None) (ORTHOGRAPHY_RULES system) ->
  (forall alias, ORTHOGRAPHY_RULES_ALIASES system !! EmptyString = Some alias ->
     Forall (fun rule => rule.1 (w +:+ " ^ " +:+ alias) = None)
            (ORTHOGRAPHY_RULES system)) ->
  add_suffix system w EmptyString = w.
Proof.
  intros Hrules Halias. unfold add_suffix. simpl.
  rewrite !append_empty_r. unfold _add_suffix.
  assert (Hc : collect_candidates system w EmptyString
               = if in_dict_f system w then [w] else []).
  { unfold collect_candidates, _add_candidates_from_rules.
    rewrite append_empty_r. rewrite add_candidates_loop_none //.
    destruct (ORTHOGRAPHY_RULES_ALIASES system !! EmptyString) as [alias|] eqn:Ha;
      [|by destruct (in_dict_f system w)].
    rewrite add_candidates_loop_none; [by apply Halias|].
    by destruct (in_dict_f system w). }
  rewrite Hc. destruct (in_dict_f system w) eqn:Hw; simpl.
  - by rewrite Hw.
  - apply append_empty_r.
Qed.

End OrthographyFacts.

Section OrthographyExamples.
(** The choice by rank: of the candidates "walk" and "walks", both in
    the word list, the one of smaller rank is taken, and the first one
    when the ranks are equal. *)
Example add_suffix_by_rank :
  Orthography.add_suffix (ranked_system 53 49) "walk" " on" = "walks on"
  ∧ Orthography.add_suffix (ranked_system 49 53) "walk" " on" = "walk on"
  ∧ Orthography.add_suffix (ranked_system 49 49) "walk" " on" = "walk on".
Proof. split; [|split]; vm_compute; reflexivity. Qed.

(** C6 as stated fails as soon as a rule matches [w + " ^ "]: with the
    one rule of [sample_system] and an empty word list the only
    candidate is the expansion of that rule. *)
Lemma add_suffix_empty_suffix_changes :
  Orthography.add_suffix sample_system "walk" EmptyString = "walks"
  ∧ Orthography.add_suffix sample_system "walk" EmptyString ≠ "walk".
Proof. split; [reflexivity | discriminate]. Qed.

Lemma add_suffix_empty_suffix_witness :
  Orthography.add_suffix no_rule_system "run" EmptyString = "run".
Proof.
  apply (add_suffix_empty_suffix no_rule_system "run").
  - constructor.
  - intros alias H. vm_compute in H. discriminate H.
Defined.

End OrthographyExamples.

(* ===================================================================== *)
(** * The translator state *)
(* ===================================================================== *)

Section StateFacts.
Import Translation Samples.

(** C4 (as amended): for a positive [count], [prev count] views the
    translations without their last [count] elements, and for [count = 0]
    it views the empty list (the slice [[:-0]] is empty); with no count it
    views the whole list.  A non-empty view is returned as it is; for an
    empty one the answer is [[tail]] if there is a tail and absent
    otherwise. *)
Theorem prev_view (st : _State) (count : Z) :
  (0 <= count)%Z ->
  prev st (Some count)
  = prev_answer st (if decide (count = 0%Z) then []
                    else take (length (translations st) - Z.to_nat count)
                              (translations st))
  ∧ prev st None = prev_answer st (translations st).
Proof.
  intros Hc. unfold prev, prev_answer, py_slice_to, py_slice_bound. split.
  - case_decide as H0.
    + subst count. simpl. by destruct (tail st).
    + destruct (Z.ltb_spec (- count) 0); [|lia].
      replace (Z.to_nat (Z.max 0 (- count + Z.of_nat (length (translations st)))))
        with (length (translations st) - Z.to_nat count) by lia.
      destruct (take _ _); [by destruct (tail st) | done].
  - destruct (translations st); [by destruct (tail st) | done].
Qed.

Lemma prev_view_witness :
  prev one_translation_state (Some 1%Z) = None
  ∧ prev one_translation_state None = Some [Samples.t_cat].
Proof. apply (prev_view one_translation_state 1). lia. Defined.

(** C4 as stated fails at [count = 0]: on a state holding one
    translation and no tail, [prev 0] is absent, not the whole list. *)
Lemma prev_zero_is_not_whole_list :
  translations one_translation_state = [Samples.t_cat]
  ∧ prev one_translation_state (Some 0%Z) = None
  ∧ prev one_translation_state (Some 0%Z) ≠ Some (translations one_translation_state).
Proof. repeat split. discriminate. Qed.

Lemma restrict_size_loop_bounds l n : forall stroke_count translation_count,
  translation_count <= restrict_size_loop l n stroke_count translation_count
  ∧ restrict_size_loop l n stroke_count translation_count <= translation_count + length l
  ∧ (l ≠ [] -> translation_count + 1 <= restrict_size_loop l n stroke_count translation_count).
Proof.
  induction l as [|t l IH]; intros sc tc; simpl.
  - split; [lia|]. split; [lia|]. done.
  - case_match.
    + split; [lia|]. split; [lia|]. lia.
    + destruct (IH (sc + Z.of_nat (len t))%Z (tc + 1)) as (H1 & H2 & _).
      split; [lia|]. split; [lia|]. lia.
Qed.

(** The subscript [self.translations[translation_index - 1]] of
    [restrict_size] is in range whenever it is evaluated. *)
Lemma restrict_size_tail_in_range (st : _State) (n : Z) :
  let translation_count := restrict_size_loop (rev (translations st)) n 0 0 in
  let translation_index := length (translations st) - translation_count in
  translation_index ≠ 0 ->
  is_Some (translations st !! (translation_index - 1)).
Proof. intros tc ti Hti. apply lookup_lt_is_Some. lia. Qed.

(** C10: on a state with at least one translation, for any [n],
    [restrict_size n] keeps a non-empty suffix of the translations, the
    newest one included; the tail is left as it was when nothing is
    discarded, and becomes the newest discarded record, never absent,
    when something is. *)
Theorem restrict_size_keeps_newest (st : _State) (n : Z) :
  translations st ≠ [] ->
  exists discarded : list Translation,
    translations st = discarded ++ translations (restrict_size st n)
    ∧ translations (restrict_size st n) ≠ []
    ∧ list.last (translations (restrict_size st n)) = list.last (translations st)
    ∧ (discarded = [] -> tail (restrict_size st n) = tail st)
    ∧ (discarded ≠ [] -> tail (restrict_size st n) = list.last discarded)
    ∧ (discarded ≠ [] -> tail (restrict_size st n) ≠ None)
    ∧ (tail (restrict_size st n) ≠ tail st -> discarded ≠ []).
Proof.
  intros Hne. unfold restrict_size. simpl.
  set (ts := translations st) in *.
  set (tc := restrict_size_loop (rev ts) n 0 0).
  destruct (restrict_size_loop_bounds (rev ts) n 0%Z 0) as (_ & Hub & Hlb).
  fold tc in Hub, Hlb. rewrite length_rev in Hub.
  assert (Hts : 0 < length ts) by (destruct ts; [done | simpl; lia]).
  assert (Htc : 1 <= tc).
  { apply Hlb. intros Hr. apply (f_equal length) in Hr. rewrite length_rev /= in Hr. lia. }
  set (ti := length ts - tc).
  assert (Hdrop : drop ti ts ≠ []).
  { intros Hd. apply (f_equal length) in Hd. rewrite length_drop /= in Hd. lia. }
  exists (take ti ts).
  split; [by rewrite take_drop|]. split; [done|].
  split.
  { rewrite -{2}(take_drop ti ts). rewrite last_app.
    destruct (list.last (drop ti ts)) eqn:Hl; [done|].
    apply last_None in Hl. done. }
  assert (Hlast : ti ≠ 0 -> ts !! (ti - 1) = list.last (take ti ts)).
  { intros Hti. rewrite last_lookup length_take lookup_take_lt; [lia|].
    f_equal. lia. }
  split.
  { intros Hd. apply (f_equal length) in Hd. rewrite length_take /= in Hd.
    rewrite decide_False; [lia | done]. }
  assert (Hpos : take ti ts ≠ [] -> ti ≠ 0).
  { intros Hd ->. by rewrite take_0 in Hd. }
  split.
  { intros Hd. rewrite decide_True; [by apply Hpos|]. apply Hlast. by apply Hpos. }
  split.
  { intros Hd. rewrite decide_True; [by apply Hpos|].
    destruct (restrict_size_tail_in_range st n (Hpos Hd)) as [t Ht].
    fold ts in Ht. fold tc in Ht. fold ti in Ht. by rewrite Ht. }
  intros Hd Hnil. apply Hd. rewrite decide_False; [|done].
  intros Hti. rewrite Hnil in Hpos. rewrite take_0 in Hnil || idtac.
  destruct ti; [done|]. simpl in Hnil. by destruct ts.
Qed.

Lemma restrict_size_keeps_newest_witness :
  exists discarded : list Translation,
    [Samples.t_cat; Samples.t_cat] = discarded ++ translations (restrict_size (mkState [Samples.t_cat; Samples.t_cat] None) 0)
    ∧ translations (restrict_size (mkState [Samples.t_cat; Samples.t_cat] None) 0) ≠ []
    ∧ list.last (translations (restrict_size (mkState [Samples.t_cat; Samples.t_cat] None) 0)) = Some Samples.t_cat
    ∧ (discarded = [] -> tail (restrict_size (mkState [Samples.t_cat; Samples.t_cat] None) 0) = None)
    ∧ (discarded ≠ [] -> tail (restrict_size (mkState [Samples.t_cat; Samples.t_cat] None) 0) = list.last discarded)
    ∧ (discarded ≠ [] -> tail (restrict_size (mkState [Samples.t_cat; Samples.t_cat] None) 0) ≠ None)
    ∧ (tail (restrict_size (mkState [Samples.t_cat; Samples.t_cat] None) 0) ≠ None -> discarded ≠ []).
Proof. apply (restrict_size_keeps_newest (mkState [Samples.t_cat; Samples.t_cat] None) 0). discriminate. Defined.

End StateFacts.
(* ===================================================================== *)
(** * Counting strokes *)
(* ===================================================================== *)

Section StrokeCounts.
Import Translation.

Lemma strokes_in_app ts us : strokes_in (ts ++ us) = (strokes_in ts + strokes_in us)%Z.
Proof. induction ts as [|t ts IH]; simpl; [done|]. rewrite IH. lia. Qed.

Lemma strokes_in_nonneg ts : (0 <= strokes_in ts)%Z.
Proof. induction ts as [|t ts IH]; simpl; lia. Qed.

Lemma strokes_in_rev ts : strokes_in (rev ts) = strokes_in ts.
Proof.
  induction ts as [|t ts IH]; simpl; [done|].
  rewrite strokes_in_app IH /=. lia.
Qed.

Lemma rev_drop_take {A} (l : list A) i :
  i <= length l -> rev (drop i l) = take (length l - i) (rev l).
Proof.
  intros Hi.
  assert (H : rev l = rev (drop i l) ++ rev (take i l))
    by (by rewrite -rev_app_distr take_drop).
  rewrite [X in take _ X]H take_app_length' //.
  rewrite length_rev length_drop. lia.
Qed.

(** The first loop of [_find_translation] counts the newest records
    that fit, with the strokes counted before, in [limit] strokes, and
    stops at the first that does not. *)
Lemma count_loop_spec l limit : forall ns tc,
  exists c, count_loop l limit ns tc = tc + c ∧ c <= length l
    ∧ (1 <= c -> (Z.of_nat ns + strokes_in (take c l) <= Z.of_nat limit)%Z)
    ∧ (c < length l -> (Z.of_nat limit < Z.of_nat ns + strokes_in (take (S c) l))%Z).
Proof.
  induction l as [|t l IH]; intros ns tc; simpl.
  - exists 0. repeat split; try done; lia.
  - destruct (Nat.ltb_spec limit (ns + len t)) as [Hlt|Hge].
    + exists 0. split; [lia|]. split; [lia|]. split; [lia|]. intros _. simpl. lia.
    + destruct (IH (ns + len t) (tc + 1)) as (c & Hc & Hle & Hfit & Hmax).
      exists (S c). split; [rewrite Hc; lia|]. split; [lia|]. split.
      * intros _. simpl. destruct c as [|c]; [simpl; lia|].
        specialize (Hfit ltac:(lia)). lia.
      * intros Hlt. specialize (Hmax ltac:(lia)).
        change (strokes_in (take (S (S c)) (t :: l)))
          with (Z.of_nat (len t) + strokes_in (take (S c) l))%Z. lia.
Qed.

(** The records selected are the longest suffix of the history that,
    with the new stroke, has at most [limit] strokes. *)
Lemma selection_spec (ts : list Translation) (limit : nat) :
  let translation_count := count_loop (rev ts) limit 1 0 in
  let older := take (length ts - translation_count) ts in
  let recent := drop (length ts - translation_count) ts in
  length recent = translation_count
  ∧ (recent ≠ [] -> (1 + strokes_in recent <= Z.of_nat limit)%Z)
  ∧ (forall u, list.last older = Some u ->
               (Z.of_nat limit < 1 + strokes_in (u :: recent))%Z).
Proof.
  intros tc older recent. subst tc.
  destruct (count_loop_spec (rev ts) limit 1 0) as (c & Hc & Hle & Hfit & Hmax).
  rewrite length_rev in Hle, Hmax. simpl in Hc.
  subst older recent. rewrite Hc.
  assert (Hstrokes : forall k, k <= length ts ->
                       strokes_in (drop (length ts - k) ts) = strokes_in (take k (rev ts))).
  { intros k Hk. rewrite -strokes_in_rev rev_drop_take; [lia|]. do 2 f_equal. lia. }
  split; [rewrite length_drop; lia|]. split.
  - intros Hne. assert (1 <= c).
    { destruct c; [|lia]. rewrite Nat.sub_0_r drop_all in Hne. done. }
    rewrite Hstrokes //. specialize (Hfit ltac:(lia)). lia.
  - intros u Hu.
    assert (Hlt : c < length ts).
    { destruct (decide (c < length ts)); [done|].
      replace (length ts - c) with 0 in Hu by lia. done. }
    assert (Hdrop : drop (length ts - S c) ts = u :: drop (length ts - c) ts).
    { apply last_Some in Hu as [l' Hl'].
      assert (Hlen : length l' = length ts - S c).
      { apply (f_equal (@length _)) in Hl'.
        rewrite length_take length_app /= in Hl'. lia. }
      assert (Hts : ts = l' ++ u :: drop (length ts - c) ts)
        by (by rewrite -{1}(take_drop (length ts - c) ts) Hl' -app_assoc).
      rewrite -Hlen [X in drop _ X = _]Hts. by rewrite drop_app_length. }
    rewrite -Hdrop Hstrokes; [lia|]. specialize (Hmax Hlt). lia.
Qed.

End StrokeCounts.
(* ===================================================================== *)
(** * The greedy lookup *)
(* ===================================================================== *)

Section AffixFacts.
Import Translation Greedy.
Variable new_stroke : list string -> Stroke.t.
Variable lookup_f : key -> option string.

Lemma py_setitem_end (prefix : bool) (cur : list string) v :
  cur ≠ [] ->
  py_setitem cur (if prefix then 0%Z else (-1)%Z) v = Ok (replace_end prefix cur v).
Proof.
  intros Hne. unfold py_setitem, replace_end.
  assert (0 < length cur) by (destruct cur; [done | simpl; lia]).
  destruct prefix; simpl.
  - destruct (Z.ltb_spec 0 (Z.of_nat (length cur))); [done | lia].
  - destruct (Z.leb_spec 0 (-1 + Z.of_nat (length cur))); [|lia].
    destruct (Z.ltb_spec (-1 + Z.of_nat (length cur)) (Z.of_nat (length cur))); [|lia].
    simpl. do 2 f_equal. lia.
Qed.

Lemma replace_end_twice prefix seq x v :
  replace_end prefix (replace_end prefix seq x) v = replace_end prefix seq v.
Proof.
  unfold replace_end. destruct prefix.
  - apply list_insert_insert_eq.
  - rewrite length_insert. apply list_insert_insert_eq.
Qed.

Lemma replace_end_nonempty prefix seq v : seq ≠ [] -> replace_end prefix seq v ≠ [].
Proof.
  intros Hne He. apply (f_equal (@length _)) in He. unfold replace_end in He.
  destruct prefix; rewrite length_insert in He; by destruct seq.
Qed.

(** The loop of [_lookup_affixes] overwrites one element of its copy of
    the sequence again and again, so each pair is tried on the sequence
    as it was given. *)
Lemma lookup_affixes_loop_search (prefix : bool) seq pairs : forall cur,
  cur ≠ [] -> (forall v, replace_end prefix cur v = replace_end prefix seq v) ->
  _lookup_affixes_loop new_stroke lookup_f (if prefix then 0%Z else (-1)%Z) prefix cur pairs
  = Ok (affix_search new_stroke lookup_f prefix seq pairs).
Proof.
  induction pairs as [|[k removed] pairs IH]; intros cur Hne Hcur; simpl; [done|].
  rewrite py_setitem_end // /= Hcur.
  assert (Hnext : _lookup_affixes_loop new_stroke lookup_f
                    (if prefix then 0%Z else (-1)%Z) prefix
                    (replace_end prefix seq removed) pairs
                  = Ok (affix_search new_stroke lookup_f prefix seq pairs)).
  { apply IH.
    - rewrite -Hcur. by apply replace_end_nonempty.
    - intros v. apply replace_end_twice. }
  destruct (lookup_f (replace_end prefix seq removed)); [|done].
  by destruct (lookup_f [Stroke.rtfcre (new_stroke [k])]).
Qed.

Lemma lookup_affixes_search (seq : list string) (pairs : list (string * string))
      (prefix : bool) :
  seq ≠ [] ->
  _lookup_affixes new_stroke lookup_f seq pairs prefix
  = Ok (affix_search new_stroke lookup_f prefix seq pairs).
Proof. intros Hne. unfold _lookup_affixes. by apply lookup_affixes_loop_search. Qed.

(** [_test_and_remove_each] gives the affix keys that are in the stroke,
    in the order of the affix keys. *)
Lemma test_and_remove_each_variations keys affixes :
  _test_and_remove_each new_stroke keys affixes = variations new_stroke keys affixes.
Proof.
  unfold _test_and_remove_each, variations.
  induction affixes as [|k affixes IH]; simpl; [done|].
  rewrite IH. by destruct (bool_decide (k ∈ keys)).
Qed.

End AffixFacts.

Section GreedyFacts.
Import Translation Greedy.
Variable new_stroke : list string -> Stroke.t.
Variable lookup_f : key -> option string.
Variable stroke : Stroke.t.
Variable normal : bool.
Variables suffixes prefixes : tuple.
Variable recent : list Translation.
Hypothesis WF : Forall wf_translation recent.

Local Abbreviation test_seq_at := (test_seq_at stroke recent).
Local Abbreviation yields :=
  (yields new_stroke lookup_f stroke (items suffixes) (items prefixes) recent).
Local Abbreviation found := (found stroke recent).
Local Abbreviation pass_of := (pass_of normal suffixes).
Local Abbreviation last_stroke_mods :=
  (_test_and_remove_each new_stroke (Stroke.steno_keys stroke) (items suffixes)).

Lemma py_index_nat {A} (l : list A) i a :
  l !! i = Some a -> py_index l (Z.of_nat i) = Ok a.
Proof.
  intros Hi. unfold py_index. pose proof (lookup_lt_Some _ _ _ Hi) as Hlt.
  destruct (Z.ltb_spec (Z.of_nat i) 0); [lia|].
  destruct (Z.leb_spec 0 (Z.of_nat i)); [|lia].
  destruct (Z.ltb_spec (Z.of_nat i) (Z.of_nat (length l))); [|lia].
  simpl. by rewrite Nat2Z.id Hi.
Qed.

Lemma py_slice_from_nat {A} (l : list A) i :
  i <= length l -> py_slice_from l (Z.of_nat i) = drop i l.
Proof.
  intros Hi. unfold py_slice_from, py_slice_bound.
  destruct (Z.ltb_spec (Z.of_nat i) 0); [lia|]. f_equal. lia.
Qed.

Lemma test_seq_at_nonempty i : test_seq_at i ≠ [].
Proof. unfold Greedy.test_seq_at. by destruct (concat _). Qed.

(** An object that is [suffixes] is no [bool], so its pass is a suffix
    pass; and a suffix pass is made for such an object only. *)
Lemma pass_of_suffixes mode :
  is_ mode (Tuple suffixes) = true <-> pass_of mode = SuffixPass.
Proof.
  unfold Greedy.pass_of. destruct mode as [b|t]; simpl.
  - split; [done|]. by destruct (Bool.eqb b normal).
  - split; [by intros -> | by destruct (ident t =? ident suffixes)].
Qed.

(** Under the invariant, what the body of the inner loop computes is
    what the mode of the pass yields; nothing is raised. *)
Lemma mapping_for_yields mode mods i :
  i <= length recent ->
  (pass_of mode = SuffixPass -> mods = last_stroke_mods) ->
  mapping_for new_stroke lookup_f stroke normal suffixes prefixes (length recent) recent
              mode mods i (test_seq_at i)
  = Ok (yields (pass_of mode) i).
Proof.
  intros Hi Hmods. unfold mapping_for. pose proof (pass_of_suffixes mode) as Hs.
  unfold Greedy.pass_of in *.
  destruct (is_ mode (Bool normal)); [done|].
  destruct (is_ mode (Tuple suffixes)).
  - rewrite Hmods // lookup_affixes_search; [apply test_seq_at_nonempty|].
    by rewrite test_and_remove_each_variations.
  - unfold Greedy.yields, first_stroke_at.
    destruct (Nat.ltb_spec i (length recent)) as [Hlt|Hge].
    + destruct (lookup_lt_is_Some_2 recent i Hlt) as [t Ht].
      rewrite (py_index_nat _ _ _ Ht) /= Ht /=.
      destruct (proj1 (Forall_lookup _ _) WF i t Ht) as [_ Hst].
      destruct (strokes t) as [|s ss]; [done|].
      change (py_index (s :: ss) 0) with (Ok (A:=Stroke.t) s). simpl.
      rewrite test_and_remove_each_variations.
      destruct (variations new_stroke (Stroke.steno_keys s) (items prefixes));
        [done|].
      simpl. rewrite lookup_affixes_search; [apply test_seq_at_nonempty | done].
    + rewrite lookup_ge_None_2 /=; [lia|].
      rewrite test_and_remove_each_variations.
      destruct (variations new_stroke (Stroke.steno_keys stroke) (items prefixes));
        [done|].
      simpl. rewrite lookup_affixes_search; [apply test_seq_at_nonempty | done].
Qed.

Lemma test_seq_at_step i t :
  recent !! i = Some t -> drop (len t) (test_seq_at i) = test_seq_at (S i).
Proof.
  intros Ht. unfold Greedy.test_seq_at.
  destruct (proj1 (Forall_lookup _ _) WF i t Ht) as [Hlen _].
  rewrite (drop_S _ _ _ Ht) /=. unfold len. rewrite -Hlen -app_assoc.
  by rewrite drop_app_length.
Qed.

(** The inner loop returns at the first index that yields a mapping. *)
Lemma length_loop_first_hit mode mods k : forall i,
  i + k = length recent + 1 ->
  (pass_of mode = SuffixPass -> mods = last_stroke_mods) ->
  length_loop new_stroke lookup_f stroke normal suffixes prefixes (length recent) recent
              mode mods (seq i k) (test_seq_at i)
  = Ok ((fun hit => found hit.1 hit.2) <$> first_hit (yields (pass_of mode)) (seq i k)).
Proof.
  induction k as [|k IH]; intros i Hik Hmods; simpl; [done|].
  rewrite mapping_for_yields; [lia | done |]. simpl.
  destruct (yields (pass_of mode) i) as [mapping|].
  - simpl. rewrite py_slice_from_nat; [lia | done].
  - destruct (Nat.ltb_spec i (length recent)) as [Hlt|Hge].
    + destruct (lookup_lt_is_Some_2 recent i Hlt) as [t Ht].
      rewrite (py_index_nat _ _ _ Ht) /=. rewrite (test_seq_at_step _ _ Ht).
      apply IH; [lia | done].
    + assert (k = 0) as -> by lia. done.
Qed.

Lemma first_hit_all_none att indices :
  (forall j, j ∈ indices -> att j = None) -> first_hit att indices = None.
Proof.
  induction indices as [|j rest IH]; intros H; simpl; [done|].
  rewrite H; [left|]. apply IH. intros j' Hj'. apply H. by right.
Qed.

(** The loop over the objects returns for the first pass that yields a
    mapping; a suffix pass for a stroke without suffix key yields
    none. *)
Lemma mode_loop_first_hit ms : forall mods,
  mode_loop new_stroke lookup_f stroke normal suffixes prefixes (length recent) recent
            ms mods (test_seq_at 0)
  = Ok (match first_hit_passes yields (seq 0 (length recent + 1)) (map pass_of ms) with
        | Some (p, j, mapping) => found j mapping
        | None => __init__ [stroke] None
        end).
Proof.
  induction ms as [|mode ms IH]; intros mods; simpl; [done|].
  pose proof (pass_of_suffixes mode) as Hs.
  destruct (is_ mode (Tuple suffixes)) eqn:Hmode; simpl.
  - rewrite (proj1 Hs eq_refl).
    destruct (nonempty last_stroke_mods) eqn:Hne; simpl.
    + rewrite -{2}(proj1 Hs eq_refl).
      rewrite (length_loop_first_hit mode _ (length recent + 1) 0); [lia | done |].
      rewrite (proj1 Hs eq_refl). simpl.
      destruct (first_hit (yields SuffixPass) _) as [[j mapping]|]; [done|]. apply IH.
    + rewrite first_hit_all_none; [|apply IH].
      intros j _. unfold Greedy.yields.
      rewrite -test_and_remove_each_variations.
      by destruct last_stroke_mods.
  - rewrite (length_loop_first_hit mode _ (length recent + 1) 0); [lia | |].
    { intros Hp. apply Hs in Hp. done. }
    simpl. destruct (first_hit (yields (pass_of mode)) _) as [[j mapping]|]; [done|].
    apply IH.
Qed.





(** The passes made for the objects that [filter(None, ...)] keeps. *)
Lemma modes_passes :
  map pass_of (modes normal suffixes prefixes) = passes normal suffixes prefixes.
Proof.
  unfold modes, passes, Greedy.pass_of. simpl.
  destruct normal, (nonempty (items suffixes)), (nonempty (items prefixes)); simpl;
    rewrite ?Nat.eqb_refl //.
Qed.

End GreedyFacts.

Section FindTranslationFacts.
Import Translation Greedy.
Variable new_stroke : list string -> Stroke.t.

Lemma find_translation_first_hit (tr : Translator) (stroke : Stroke.t) (normal : bool)
      (suffixes prefixes : tuple) :
  Forall wf_translation (translations (_state tr)) ->
  let translation_count :=
    count_loop (rev (translations (_state tr)))
               (Collection.longest_key (_dictionary tr)) 1 0 in
  let recent :=
    drop (length (translations (_state tr)) - translation_count)
         (translations (_state tr)) in
  Forall wf_translation recent
  ∧ _find_translation new_stroke tr stroke normal suffixes prefixes
    = Ok (match first_hit_passes
                  (yields new_stroke (Collection.lookup (_dictionary tr)) stroke
                          (items suffixes) (items prefixes) recent)
                  (seq 0 (length recent + 1)) (passes normal suffixes prefixes) with
          | Some (p, j, mapping) => found stroke recent j mapping
          | None => __init__ [stroke] None
          end).
Proof.
  intros WF tc recent.
  destruct (selection_spec (translations (_state tr))
              (Collection.longest_key (_dictionary tr))) as (Hlen & _).
  fold tc in Hlen. fold recent in Hlen.
  assert (WF' : Forall wf_translation recent) by (by apply Forall_drop).
  split; [done|].
  unfold _find_translation. fold tc. fold recent. rewrite -Hlen.
  rewrite -(modes_passes normal suffixes prefixes).
  by apply (mode_loop_first_hit new_stroke _ stroke normal suffixes prefixes recent WF').
Qed.


End FindTranslationFacts.

Section FindTranslationExamples.
Import Translation Greedy Samples.


(** Prefix folding: the new stroke has no suffix key, the first stroke
    of the record before it has the prefix key. *)
Example find_translation_prefix_fold :
  exists t : Translation,
    _find_translation Samples.new_stroke prefix_translator stroke_B true
                      keys_P other_keys_P = Ok t
    ∧ english t = Some "pre ab" ∧ replaced t = [t_pa]
    ∧ strokes t = [stroke_PA; stroke_B].
Proof. eexists. split; [vm_compute; reflexivity | done]. Qed.

(** With one tuple object given for both [suffixes] and [prefixes] the
    third pass is a pass for [suffixes] again, and the prefix is not
    folded. *)
Example find_translation_shared_tuple :
  _find_translation Samples.new_stroke prefix_translator stroke_B true keys_P keys_P
  = Ok (__init__ [stroke_B] None).
Proof. vm_compute. reflexivity. Qed.

End FindTranslationExamples.

(* ===================================================================== *)
(** * Translating one stroke *)
(* ===================================================================== *)

Section TranslateFacts.
Import Translation Greedy Samples.

(** The end-to-end scenarios. *)
Example scenario_retroactive_replace :
  (tr1 ← translate new_stroke toy_registry toy_system toy_translator stroke_KAT;
   tr2 ← translate new_stroke toy_registry toy_system tr1 stroke_HROG;
   Ok (emitted tr2))
  = Ok [ mkOutput 7 [] [t_cat] None;
         mkOutput 7 [t_cat] [t_catalogue] None ].
Proof. vm_compute. reflexivity. Qed.

Example scenario_no_mapping :
  (tr1 ← translate new_stroke toy_registry toy_system toy_translator stroke_ZZZ;
   Ok (emitted tr1))
  = Ok [ mkOutput 7 [] [__init__ [stroke_ZZZ] None] None ].
Proof. vm_compute. reflexivity. Qed.

Example scenario_suffix_folding :
  (tr1 ← translate new_stroke toy_registry suffix_system suffix_translator stroke_WORKD;
   Ok (emitted tr1))
  = Ok [ mkOutput 7 [] [__init__ [stroke_WORKD] (Some "work {^ed}")] None ].
Proof. vm_compute. reflexivity. Qed.

Variable new_stroke : list string -> Stroke.t.
Variable registry_macro :
  string -> option (Translator -> Stroke.t -> string -> result Translator).
Variable system : System.

Lemma found_shape stroke recent j mapping :
  replaced (found stroke recent j mapping) = drop j recent
  ∧ strokes (found stroke recent j mapping)
    = concat (map strokes (drop j recent)) ++ [stroke].
Proof. done. Qed.

(** C8 (as amended): for every stroke whose single-stroke lookup does
    not resolve to a macro, from a state with no translation, no tail and
    nothing pending, [translate] calls each registered listener exactly
    once, with an empty undo list and a do list of one record, made of
    that stroke. *)
Theorem translate_from_empty_state (tr : Translator) (s : Stroke.t) :
  _state tr = empty_state -> _to_undo tr = [] -> _to_do tr = 0 ->
  _mapping_to_macro (Collection.lookup (_dictionary tr) [Stroke.rtfcre s]) s = None ->
  exists (tr' : Translator) (t : Translation),
    translate new_stroke registry_macro system tr s = Ok tr'
    ∧ strokes t = [s]
    ∧ emitted tr'
      = emitted tr ++ map (fun callback => mkOutput callback [] [t] None) (_listeners tr).
Proof.
  intros Hst Hundo Hdo Hmacro.
  destruct (find_translation_first_hit new_stroke tr s true
              (SUFFIX_KEYS system) (PREFIX_KEYS system)) as (_ & Hfind).
  { rewrite Hst. constructor. }
  rewrite Hst in Hfind.
  change (translations empty_state) with (@nil Translation) in Hfind.
  rewrite drop_nil in Hfind.
  set (t := match first_hit_passes _ _ _ with
            | Some (p, j, mapping) => found s [] j mapping
            | None => __init__ [s] None
            end) in Hfind.
  assert (Ht : replaced t = [] ∧ strokes t = [s]).
  { subst t. destruct (first_hit_passes _ _ _) as [[[p j] mapping]|]; [|done].
    destruct (found_shape s [] j mapping) as [-> ->]. by rewrite drop_nil. }
  destruct Ht as [Hrep Hstrokes].
  eexists _, t. split; [|split; [exact Hstrokes|]].
  - unfold translate, translate_stroke, lookup. simpl.
    destruct (Collection.lookup (_dictionary tr) [Stroke.rtfcre s]) as [mapping|] eqn:Hl;
      simpl; rewrite Hmacro Hfind /=; unfold translate_translation, _undo;
      rewrite Hrep /=; reflexivity.
  - unfold flush, _do, with_pending, with_translations, with_state. simpl.
    rewrite Hdo Hundo Hst /=. done.
Qed.

End TranslateFacts.

Section TranslateExamples.
Import Translation Greedy Samples.

Lemma translate_from_empty_state_witness :
  exists (tr' : Translator) (t : Translation),
    translate Samples.new_stroke toy_registry toy_system toy_translator stroke_KAT = Ok tr'
    ∧ strokes t = [stroke_KAT]
    ∧ emitted tr' = map (fun callback => mkOutput callback [] [t] None) [7].
Proof.
  apply (translate_from_empty_state Samples.new_stroke toy_registry toy_system
           toy_translator stroke_KAT); vm_compute; reflexivity.
Defined.

(** C8 as stated fails for a stroke that resolves to a macro: the macro
    is run in place of the lookup, and one that calls no operation of the
    translator leaves nothing to emit; the listener is not called. *)
Lemma translate_macro_stroke_emits_nothing :
  _state toy_translator = empty_state
  ∧ _to_undo toy_translator = [] ∧ _to_do toy_translator = 0
  ∧ _listeners toy_translator = [7]
  ∧ exists tr', translate Samples.new_stroke toy_registry toy_system toy_translator stroke_TEFT
                = Ok tr'
      ∧ emitted tr' = [].
Proof.
  split; [reflexivity|]. split; [reflexivity|]. split; [reflexivity|].
  split; [reflexivity|]. eexists. split; [vm_compute; reflexivity | reflexivity].
Qed.

End TranslateExamples.

(* ===================================================================== *)
(** * More on escaping and unescaping *)
(* ===================================================================== *)

Section EscapeMore.
Import Escape EscapeScan.

Lemma escape_from_no_ctrl n : forall t p,
  String.length t <= n -> no_ctrl (escape_from p t) = true.
Proof.
  induction n as [|n IH]; intros t p Hlen.
  { destruct t; [done | simpl in Hlen; lia]. }
  destruct t as [|c t]; [done|]. simpl in Hlen.
  destruct (is_ctrl c) eqn:Hc.
  - rewrite escape_ctrl //. simpl. rewrite (nrt_not_ctrl _ (letter_of_nrt c)) /=.
    apply IH. lia.
  - destruct (is_bs c && hd_is is_nrt t) eqn:Hb.
    + apply andb_true_iff in Hb as [->%is_bs_eq Hs].
      destruct t as [|l t]; [done|]. simpl in Hs, Hlen.
      rewrite escape_bs_letter //. simpl. rewrite (nrt_not_ctrl _ Hs) /=.
      apply IH. lia.
    + rewrite escape_copy //. simpl. rewrite Hc /=. apply IH. lia.
Qed.

(** X1: the escaped text never holds a literal newline, carriage return
    or tab. *)
Theorem escape_has_no_ctrl (t : string) : no_ctrl (escape_translation t) = true.
Proof. by apply (escape_from_no_ctrl (String.length t)). Qed.

(** X2: escaping, unescaping and escaping again gives the escaped text,
    for every text. *)
Theorem escape_unescape_escape (t : string) :
  escape_translation (unescape_translation (escape_translation t)) = escape_translation t.
Proof.
  apply (escape_unescape_from (String.length (escape_translation t))); [done | | done].
  by apply (escape_from_no_ctrl (String.length t)).
Qed.

Lemma escape_from_fixed t : forall p,
  escape_from p t = t <-> no_ctrl t && no_bs_letter t = true.
Proof.
  induction t as [|c t IH]; intros p; [done|].
  destruct (is_ctrl c) eqn:Hc.
  - rewrite escape_ctrl //. simpl. rewrite Hc /=. split; [|done].
    intros [= Hbs _]. rewrite -Hbs in Hc. done.
  - destruct (is_bs c && hd_is is_nrt t) eqn:Hb.
    + pose proof Hb as Hb'. apply andb_true_iff in Hb' as [->%is_bs_eq Hs].
      destruct t as [|l t]; [done|]. simpl in Hs.
      rewrite escape_bs_letter //. simpl. rewrite Hs /=.
      rewrite andb_false_r. split; [|done].
      intros [= Hl _]. rewrite -Hl in Hs. done.
    + rewrite escape_copy //.
      assert (Hrw : no_ctrl (String c t) && no_bs_letter (String c t)
                    = no_ctrl t && no_bs_letter t).
      { simpl. rewrite Hc /=. destruct t as [|l t]; [done|].
        simpl in Hb. rewrite Hb /=. done. }
      rewrite Hrw -(IH (Some c)). split; [by intros [= ->] | by intros ->].
Qed.

(** X3: escaping leaves a text as it is exactly when the text holds no
    control character and no backslash followed by n, r or t. *)
Theorem escape_fixed_points (t : string) :
  escape_translation t = t <-> no_ctrl t && no_bs_letter t = true.
Proof. apply escape_from_fixed. Qed.

Lemma unescape_from_fixed t : forall q,
  (q = Some BS -> starts_bs_letter t = false) ->
  unescape_from q t = t <-> no_bs_letter t = true.
Proof.
  induction t as [|c t IH]; intros q Hq; [done|].
  destruct (_UNESCAPE_RX q (String c t)) as [k|] eqn:Hrx.
  - apply unescape_rx_cases in Hrx
      as [(Hq' & -> & l & s' & -> & Hl) | [-> (m & s' & -> & Hm)]].
    + rewrite unescape_letter //. simpl. rewrite Hl /=. split; [|done].
      intros [= Hc _]. pose proof (ctrl_of_ctrl l) as Hctrl. by rewrite Hc in Hctrl.
    + rewrite unescape_bs_bs //. simpl. rewrite Hm /=. split.
      * intros [= Hc _]. by rewrite Hc in Hm.
      * by destruct s'.
  - rewrite unescape_copy //.
    assert (Hhead : is_bs c && hd_is is_nrt t = false).
    { destruct (is_bs c) eqn:Hbs; [|done]. apply is_bs_eq in Hbs as ->.
      destruct t as [|l t]; [done|]. simpl. destruct (is_nrt l) eqn:Hl; [|done].
      unfold _UNESCAPE_RX in Hrx. simpl in Hrx. rewrite Hl in Hrx.
      destruct (bool_decide (q = Some BS)) eqn:Hqb; [|done].
      apply bool_decide_eq_true in Hqb. specialize (Hq Hqb). simpl in Hq.
      by rewrite Hl in Hq. }
    assert (Hrw : no_bs_letter (String c t) = no_bs_letter t).
    { destruct t as [|l t]; [done|]. simpl in *. by rewrite Hhead. }
    assert (Hnext : Some c = Some BS -> starts_bs_letter t = false).
    { intros [= ->]. destruct t as [|l [|m t]]; [done | done |]. simpl.
      destruct (is_bs l && is_nrt m) eqn:Hlm; [|done].
      unfold _UNESCAPE_RX in Hrx. simpl in Hrx.
      apply andb_true_iff in Hlm as [Hl Hm]. rewrite Hl Hm in Hrx.
      apply is_bs_eq in Hl as ->. simpl in Hrx. by rewrite andb_false_r in Hrx. }
    rewrite Hrw. specialize (IH (Some c) Hnext). rewrite -IH.
    split; [by intros [= ->] | by intros ->].
Qed.

(** X4: unescaping leaves a text as it is exactly when the text holds no
    backslash followed by n, r or t. *)
Theorem unescape_fixed_points (t : string) :
  unescape_translation t = t <-> no_bs_letter t = true.
Proof. unfold unescape_translation. by apply (unescape_from_fixed t None). Qed.
End EscapeMore.

(* ===================================================================== *)
(** * More on StenoDictionary: invariants of the mutators *)
(* ===================================================================== *)

Section DictMore.
Import Dict.

Lemma max_key_length_comm (j1 j2 : key) (z1 z2 : string) (y : nat) :
  Nat.max (length j1) (Nat.max (length j2) y)
  = Nat.max (length j2) (Nat.max (length j1) y).
Proof. lia. Qed.

Lemma max_key_length_insert_new (m : gmap key string) k v :
  m !! k = None -> max_key_length (<[k:=v]> m) = Nat.max (length k) (max_key_length m).
Proof.
  intros Hk. unfold max_key_length.
  rewrite map_fold_insert_L //. intros. apply max_key_length_comm; done.
Qed.

Lemma max_key_length_delete (m : gmap key string) k v :
  m !! k = Some v -> max_key_length m = Nat.max (length k) (max_key_length (delete k m)).
Proof.
  intros Hk. rewrite -{1}(insert_delete_id m k v) //.
  apply max_key_length_insert_new. apply lookup_delete_eq.
Qed.

Lemma max_key_length_insert_old (m : gmap key string) k v old :
  m !! k = Some old -> max_key_length (<[k:=v]> m) = max_key_length m.
Proof.
  intros Hk. rewrite (max_key_length_delete m k old) //.
  rewrite -(insert_delete_eq m). apply max_key_length_insert_new, lookup_delete_eq.
Qed.

Lemma max_key_length_bound (m : gmap key string) k v :
  m !! k = Some v -> length k <= max_key_length m.
Proof. intros Hk. rewrite (max_key_length_delete m k v) //. lia. Qed.

Lemma max_key_length_attained (m : gmap key string) :
  m ≠ ∅ -> exists k v, m !! k = Some v ∧ length k = max_key_length m.
Proof.
  induction m as [|k v m Hk IH] using map_ind.
  - done.
  - intros _. rewrite max_key_length_insert_new //.
    destruct (decide (m = ∅)) as [->|Hne].
    + exists k, v. rewrite lookup_insert_eq. split; [done|].
      unfold max_key_length. rewrite map_fold_empty. lia.
    + destruct (IH Hne) as (k' & v' & Hk' & Hlen).
      destruct (Nat.le_gt_cases (length k) (max_key_length m)).
      * exists k', v'. rewrite lookup_insert_ne; [congruence|]. split; [done | lia].
      * exists k, v. rewrite lookup_insert_eq. split; [done | lia].
Qed.

Lemma set_longest_key_ok d n :
  n = max_key_length (data d) -> longest_key_ok (set_longest_key d n).
Proof.
  intros ->. unfold longest_key_ok, longest_key.
  by destruct (set_longest_key_contents d (max_key_length (data d))) as (-> & _ & _ & _ & ->).
Qed.

Lemma init_longest_key_ok : longest_key_ok __init__.
Proof. unfold longest_key_ok, longest_key, max_key_length. simpl. by rewrite map_fold_empty. Qed.

Lemma clear_longest_key_ok d : longest_key_ok (clear d).
Proof.
  unfold clear, longest_key_ok, longest_key.
  destruct (set_longest_key_contents (with_contents d ∅ (ReverseStenoDict.clear (reverse d))) 0)
    as (-> & _ & _ & _ & ->).
  simpl. unfold max_key_length. by rewrite map_fold_empty.
Qed.

Lemma setitem_longest_key_ok d k v d' :
  longest_key_ok d -> __setitem__ d k v = Ok d' -> longest_key_ok d'.
Proof.
  unfold longest_key_ok, longest_key. intros Hd. unfold __setitem__.
  destruct (readonly d); [done|]. simpl. intros [= <-]. simpl.
  destruct (data d !! k) as [old|] eqn:Hk; simpl.
  - by rewrite (max_key_length_insert_old _ _ _ old).
  - destruct (set_longest_key_contents d (Nat.max (_longest_key_length d) (length k)))
      as (-> & _ & _ & _ & ->).
    rewrite max_key_length_insert_new // Hd. lia.
Qed.

Lemma delitem_longest_key_ok d k d' :
  longest_key_ok d -> __delitem__ d k = Ok d' -> longest_key_ok d'.
Proof.
  intros Hd. unfold __delitem__. destruct (readonly d); [done|]. simpl.
  destruct (data d !! k) as [v|] eqn:Hk; [|done]. simpl.
  set (d1 := with_contents d _ _). intros [= <-].
  case_decide as Hlen.
  - by apply set_longest_key_ok.
  - unfold longest_key_ok, longest_key in *. simpl in *.
    pose proof (max_key_length_delete _ _ _ Hk) as Hmax. lia.
Qed.

Lemma setitems_longest_key_ok items : forall d d',
  longest_key_ok d -> setitems d items = Ok d' -> longest_key_ok d'.
Proof.
  induction items as [|[k v] items IH]; intros d d' Hd; simpl.
  - by intros [= <-].
  - destruct (__setitem__ d k v) as [d1|e] eqn:Hset; [|done]. simpl.
    apply IH. by eapply setitem_longest_key_ok.
Qed.

Lemma update_longest_key_ok d pairs d' :
  longest_key_ok d -> update d pairs = Ok d' -> longest_key_ok d'.
Proof.
  intros Hd. unfold update. destruct (readonly d); [done|]. simpl.
  case_decide as Hempty.
  - intros [= <-]. by apply set_longest_key_ok.
  - by apply setitems_longest_key_ok.
Qed.

(** X5: the reverse index agrees with the forward mapping after every
    mutator, if it did before. *)
Theorem mutators_keep_reverse_index d :
  reverse_consistent d ->
  reverse_consistent (clear d)
  ∧ (forall k v d', __setitem__ d k v = Ok d' -> reverse_consistent d')
  ∧ (forall k d', __delitem__ d k = Ok d' -> reverse_consistent d')
  ∧ (forall pairs d', update d pairs = Ok d' -> reverse_consistent d').
Proof.
  intros Hd. split; [apply clear_consistent|]. split; [|split].
  - intros k v d'. by apply setitem_consistent.
  - intros k d'. by apply delitem_consistent.
  - intros pairs d'. by apply update_consistent.
Qed.

Lemma longest_key_ok_iff d : longest_key_ok d <-> longest_key_is_longest d.
Proof.
  unfold longest_key_ok, longest_key_is_longest. split.
  - intros ->. split; [apply max_key_length_bound|]. split.
    + apply max_key_length_attained.
    + intros ->. unfold max_key_length. by rewrite map_fold_empty.
  - intros (Hbound & Hattained & Hempty).
    destruct (decide (data d = ∅)) as [He|Hne].
    + rewrite (Hempty He) He. unfold max_key_length. by rewrite map_fold_empty.
    + destruct (Hattained Hne) as (k & v & Hk & Hlen).
      destruct (max_key_length_attained (data d) Hne) as (k' & v' & Hk' & Hlen').
      pose proof (max_key_length_bound _ _ _ Hk). pose proof (Hbound _ _ Hk'). lia.
Qed.

(** X6: if [longest_key] is the length of the longest key (no key is
    longer, some key is that long, and it is 0 when there is no key), it
    still is after [clear], and after every [__setitem__], [__delitem__]
    and [update] that does not raise. *)
Theorem mutators_keep_longest_key d :
  longest_key_is_longest d ->
  longest_key_is_longest (clear d)
  ∧ (forall k v d', __setitem__ d k v = Ok d' -> longest_key_is_longest d')
  ∧ (forall k d', __delitem__ d k = Ok d' -> longest_key_is_longest d')
  ∧ (forall pairs d', update d pairs = Ok d' -> longest_key_is_longest d').
Proof.
  intros Hd%longest_key_ok_iff.
  split; [apply longest_key_ok_iff, clear_longest_key_ok|]. split; [|split].
  - intros k v d' H. by apply longest_key_ok_iff, (setitem_longest_key_ok d k v).
  - intros k d' H. by apply longest_key_ok_iff, (delitem_longest_key_ok d k).
  - intros pairs d' H. by apply longest_key_ok_iff, (update_longest_key_ok d pairs).
Qed.

(** X7: what the recomputation [max(map(len, self), default=0)] stores:
    no key is longer, some key is that long unless the dictionary is
    empty, and it is 0 for an empty one. *)
Theorem calculated_longest_key_is_longest d :
  let d' := _calculate_longest_key d in
  data d' = data d
  ∧ (forall k v, data d !! k = Some v -> length k <= longest_key d')
  ∧ (data d ≠ ∅ -> exists k v, data d !! k = Some v ∧ length k = longest_key d')
  ∧ (data d = ∅ -> longest_key d' = 0).
Proof.
  intros d'. subst d'. unfold _calculate_longest_key, longest_key.
  destruct (set_longest_key_contents d (max_key_length (data d)))
    as (-> & _ & _ & _ & ->).
  split; [done|]. split; [|split].
  - apply max_key_length_bound.
  - apply max_key_length_attained.
  - intros ->. unfold max_key_length. by rewrite map_fold_empty.
Qed.

Lemma setitem_data d k v d' :
  __setitem__ d k v = Ok d' -> data d' = <[k:=v]> (data d) ∧ readonly d' = readonly d.
Proof.
  unfold __setitem__. destruct (readonly d) eqn:Hr; [done|]. simpl.
  intros [= <-]. simpl. destruct (data d !! k); simpl; [done|].
  by destruct (set_longest_key_contents d (Nat.max (_longest_key_length d) (length k)))
    as (-> & _ & -> & _).
Qed.

Lemma setitem_writable d k v :
  readonly d = false -> exists d', __setitem__ d k v = Ok d'.
Proof. intros Hr. unfold __setitem__. rewrite Hr /=. by eexists. Qed.

Lemma delitem_data d k d' :
  __delitem__ d k = Ok d' -> data d' = delete k (data d).
Proof.
  unfold __delitem__. destruct (readonly d); [done|]. simpl.
  destruct (data d !! k) as [v|]; [|done]. simpl. intros [= <-].
  case_decide; [|done]. apply calculate_longest_key_contents.
Qed.

Lemma reverse_lookup_ext d1 d2 value :
  reverse_consistent d1 -> reverse_consistent d2 -> data d1 = data d2 ->
  reverse_lookup d1 value = reverse_lookup d2 value.
Proof.
  intros H1 H2 Hd. apply set_eq. intros k. by rewrite H1 H2 Hd.
Qed.

(** X8: on a writable dictionary whose reverse index and [longest_key]
    are consistent, setting a key that is absent and deleting it again
    raises nothing and gives back the forward mapping, the reverse
    look-ups and the longest key length; in between the key maps to the
    value and is among the reverse look-ups of the value. *)
Theorem setitem_then_delitem d k v :
  readonly d = false -> data d !! k = None ->
  reverse_consistent d -> longest_key_is_longest d ->
  exists d1 d2,
    __setitem__ d k v = Ok d1 ∧ __delitem__ d1 k = Ok d2
    ∧ data d1 !! k = Some v
    ∧ k ∈ reverse_lookup d1 v
    ∧ data d2 = data d
    ∧ (forall value, reverse_lookup d2 value = reverse_lookup d value)
    ∧ longest_key d2 = longest_key d.
Proof.
  intros Hr Hk Hrev Hlong%longest_key_ok_iff.
  destruct (setitem_writable d k v Hr) as [d1 Hset].
  destruct (setitem_data _ _ _ _ Hset) as [Hd1 Hr1].
  assert (Hk1 : data d1 !! k = Some v) by (by rewrite Hd1 lookup_insert_eq).
  assert (Hdel : exists d2, __delitem__ d1 k = Ok d2).
  { unfold __delitem__. rewrite Hr1 Hr /= Hk1 /=. by eexists. }
  destruct Hdel as [d2 Hdel].
  pose proof (setitem_consistent _ _ _ _ Hrev Hset) as Hrev1.
  pose proof (delitem_consistent _ _ _ Hrev1 Hdel) as Hrev2.
  pose proof (setitem_longest_key_ok _ _ _ _ Hlong Hset) as Hlong1.
  pose proof (delitem_longest_key_ok _ _ _ Hlong1 Hdel) as Hlong2.
  assert (Hd2 : data d2 = data d).
  { rewrite (delitem_data _ _ _ Hdel) Hd1 delete_insert_eq. by apply delete_id. }
  exists d1, d2. split; [done|]. split; [done|]. split; [done|].
  split; [by apply Hrev1|]. split; [done|]. split.
  - intros value. by apply reverse_lookup_ext.
  - unfold longest_key_ok in *. by rewrite Hlong2 Hlong Hd2.
Qed.

(** The mutators record one round of callbacks, with the new length,
    when the longest key length changes. *)
Lemma set_longest_key_announced d n :
  fired (set_longest_key d n) = fired d ++ announced d (set_longest_key d n).
Proof.
  unfold announced, longest_key, set_longest_key. case_decide as Hn; simpl.
  - rewrite decide_True //. by rewrite app_nil_r.
  - by rewrite decide_False.
Qed.

Lemma announced_nothing d : fired d = fired d ++ announced d d.
Proof. unfold announced. rewrite decide_True //. by rewrite app_nil_r. Qed.

(** X9: [__setitem__], [__delitem__], [clear] and [update] on an empty
    dictionary call the longest-key callbacks once, with the new length,
    if the longest key length changed, and not at all otherwise. *)
Theorem callbacks_fire_on_change d :
  fired (clear d) = fired d ++ announced d (clear d)
  ∧ (forall k v d', __setitem__ d k v = Ok d' -> fired d' = fired d ++ announced d d')
  ∧ (forall k d', __delitem__ d k = Ok d' -> fired d' = fired d ++ announced d d')
  ∧ (forall pairs d', data d = ∅ -> update d pairs = Ok d' ->
                      fired d' = fired d ++ announced d d').
Proof.
  split; [|split; [|split]].
  - exact (set_longest_key_announced
             (with_contents d ∅ (ReverseStenoDict.clear (reverse d))) 0).
  - intros k v d'. unfold __setitem__. destruct (readonly d); [done|]. simpl.
    intros [= <-]. destruct (data d !! k).
    + exact (announced_nothing d).
    + exact (set_longest_key_announced d _).
  - intros k d'. unfold __delitem__. destruct (readonly d); [done|]. simpl.
    destruct (data d !! k) as [v|]; [|done]. simpl. intros [= <-].
    case_decide.
    + exact (set_longest_key_announced (with_contents d _ _) _).
    + exact (announced_nothing d).
  - intros pairs d' Hempty. unfold update. destruct (readonly d); [done|]. simpl.
    rewrite decide_True //. intros [= <-].
    exact (set_longest_key_announced (with_contents d _ _) _).
Qed.

Lemma setitems_data items : forall d d',
  setitems d items = Ok d' -> data d' = updated_with (data d) items.
Proof.
  induction items as [|[k v] items IH]; intros d d'; simpl.
  - by intros [= <-].
  - destruct (__setitem__ d k v) as [d1|e] eqn:Hset; [|done]. simpl.
    intros H. rewrite (IH _ _ H). by destruct (setitem_data _ _ _ _ Hset) as [-> _].
Qed.

Lemma updated_with_insert_fresh (l : list (key * string)) : forall (m : gmap key string) k v,
  k ∉ l.*1 -> updated_with (<[k:=v]> m) l = <[k:=v]> (updated_with m l).
Proof.
  induction l as [|[k' v'] l IH]; intros m k v Hk; simpl; [done|].
  rewrite fmap_cons not_elem_of_cons /= in Hk. destruct Hk as [Hne Hk].
  rewrite insert_insert_ne // IH //.
Qed.

Lemma assoc_set_keys k v l :
  NoDup l.*1 -> NoDup (assoc_set k v l).*1
                ∧ forall k', k' ∈ (assoc_set k v l).*1 <-> k' = k ∨ k' ∈ l.*1.
Proof.
  induction l as [|[k0 v0] l IH]; simpl.
  - intros _. split; [apply list.NoDup_singleton|]. intros k'. set_solver.
  - rewrite list.NoDup_cons. intros [Hk0 Hl]. destruct (IH Hl) as [IH1 IH2].
    case_decide as Heq; simpl.
    + subst k0. split; [by apply list.NoDup_cons|]. intros k'. set_solver.
    + split.
      * apply list.NoDup_cons. split; [|done]. rewrite IH2. set_solver.
      * intros k'. rewrite !elem_of_cons IH2. set_solver.
Qed.

Lemma updated_with_assoc_set (l : list (key * string)) : forall (m : gmap key string) k v,
  NoDup l.*1 -> updated_with m (assoc_set k v l) = <[k:=v]> (updated_with m l).
Proof.
  induction l as [|[k0 v0] l IH]; intros m k v; simpl; [done|].
  rewrite list.NoDup_cons. intros [Hk0 Hl]. case_decide as Heq; simpl.
  - subst k0. rewrite !updated_with_insert_fresh //. by rewrite insert_insert_eq.
  - by apply IH.
Qed.

Lemma updated_with_dict_items_from (pairs : list (key * string)) :
  forall (m : gmap key string) acc,
    NoDup acc.*1 ->
    updated_with m (foldl (fun acc kv => assoc_set kv.1 kv.2 acc) acc pairs)
    = updated_with (updated_with m acc) pairs.
Proof.
  induction pairs as [|[k v] pairs IH]; intros m acc Hacc; simpl; [done|].
  rewrite IH; [by apply assoc_set_keys|]. by rewrite updated_with_assoc_set.
Qed.

(** X10: whichever path [update] takes, it leaves in the forward mapping
    the pairs written over the old contents in order. *)
Theorem update_forward_mapping d pairs d' :
  update d pairs = Ok d' -> data d' = updated_with (data d) pairs.
Proof.
  unfold update. destruct (readonly d); [done|]. simpl. case_decide as Hempty.
  - intros [= <-]. apply calculate_longest_key_contents.
  - intros H. rewrite (setitems_data _ _ _ H). unfold dict_items.
    rewrite updated_with_dict_items_from //. simpl. apply NoDup_nil_2.
Qed.
End DictMore.

(* ===================================================================== *)
(** * More on StenoDictionaryCollection *)
(* ===================================================================== *)

Section CollectionMore.
Import Dict Collection.

(** X11: [lookup] is [raw_lookup] followed by the filters: where
    [raw_lookup] finds a value, [lookup] gives it unless some filter
    rejects the pair, and then nothing, without looking at the
    dictionaries of lower priority. *)
Theorem lookup_is_filtered_raw_lookup (c : StenoDictionaryCollection) (k : key) :
  lookup c k
  = match raw_lookup c k with
    | Some value => if existsb (fun f => f k value) (filters c) then None else Some value
    | None => None
    end.
Proof.
  unfold lookup, raw_lookup. induction (dicts c) as [|d ds IH]; simpl; [done|].
  by destruct (if enabled d then data d !! k else None).
Qed.

Lemma raw_lookup_in_first ds k v :
  raw_lookup_in ds k = Some v
  <-> exists i d, ds !! i = Some d ∧ enabled d = true ∧ data d !! k = Some v
        ∧ forall j d0, j < i -> ds !! j = Some d0 ->
             enabled d0 = false ∨ data d0 !! k = None.
Proof.
  induction ds as [|d ds IH]; simpl.
  - split; [done|]. by intros (i & d & Hi & _).
  - destruct (if enabled d then data d !! k else None) as [v'|] eqn:Hd.
    + assert (Hen : enabled d = true ∧ data d !! k = Some v')
        by (by destruct (enabled d)).
      destruct Hen as [Hen Hk]. split.
      * intros [= ->]. exists 0, d. repeat split; try done. lia.
      * intros ([|i] & d1 & Hi & Hen1 & Hk1 & Hfirst).
        -- simpl in Hi. by simplify_eq.
        -- destruct (Hfirst 0 d ltac:(lia) eq_refl); congruence.
    + assert (Hnot : enabled d = false ∨ data d !! k = None)
        by (destruct (enabled d); auto).
      rewrite IH. split.
      * intros (i & d1 & Hi & Hen1 & Hk1 & Hfirst). exists (S i), d1.
        repeat split; try done. intros [|j] d0 Hj Hd0; simpl in Hd0.
        -- by simplify_eq.
        -- apply (Hfirst j); [lia | done].
      * intros ([|i] & d1 & Hi & Hen1 & Hk1 & Hfirst); simpl in Hi.
        -- simplify_eq. destruct Hnot; congruence.
        -- exists i, d1. repeat split; try done.
           intros j d0 Hj Hd0. apply (Hfirst (S j)); [lia | done].
Qed.

(** X12: [raw_lookup] finds a value exactly when it is the value of the
    key in the first child, in priority order, that is enabled and has
    the key. *)
Theorem raw_lookup_first_enabled (c : StenoDictionaryCollection) (k : key) (v : string) :
  raw_lookup c k = Some v
  <-> exists i d, dicts c !! i = Some d ∧ enabled d = true ∧ data d !! k = Some v
        ∧ forall j d0, j < i -> dicts c !! j = Some d0 ->
             enabled d0 = false ∨ data d0 !! k = None.
Proof. apply raw_lookup_in_first. Qed.

Lemma first_writable_from_spec ds : forall n,
  match first_writable_from n ds with
  | Ok i => exists d, n <= i ∧ ds !! (i - n) = Some d ∧ readonly d = false
              ∧ forall j d0, j < i - n -> ds !! j = Some d0 -> readonly d0 = true
  | Raise e => e = KeyError ∧ forall d, d ∈ ds -> readonly d = true
  end.
Proof.
  induction ds as [|d ds IH]; intros n; simpl.
  - split; [done|]. intros d Hd. by apply elem_of_nil in Hd.
  - destruct (readonly d) eqn:Hr.
    + specialize (IH (S n)). destruct (first_writable_from (S n) ds) as [i|e].
      * destruct IH as (d1 & Hle & Hi & Hr1 & Hfirst). exists d1.
        split; [lia|]. replace (i - n) with (S (i - S n)) by lia.
        split; [done|]. split; [done|].
        intros [|j] d0 Hj Hd0; simpl in Hd0; [by simplify_eq|].
        apply (Hfirst j); [lia | done].
      * destruct IH as [-> Hall]. split; [done|].
        intros d1 [->|Hd1]%elem_of_cons; [done | by apply Hall].
    + exists d. rewrite Nat.sub_diag. repeat split; try done. lia.
Qed.

(** X13: [first_writable] gives the first child, in priority order, that
    is not read-only, and raises [KeyError] exactly when every child is
    read-only. *)
Theorem first_writable_is_first (c : StenoDictionaryCollection) :
  match first_writable c with
  | Ok i => exists d, dicts c !! i = Some d ∧ readonly d = false
              ∧ forall j d0, j < i -> dicts c !! j = Some d0 -> readonly d0 = true
  | Raise e => e = KeyError ∧ forall d, d ∈ dicts c -> readonly d = true
  end.
Proof.
  unfold first_writable. pose proof (first_writable_from_spec (dicts c) 0) as H.
  destruct (first_writable_from 0 (dicts c)) as [i|e]; [|done].
  destruct H as (d & _ & Hi & Hr & Hfirst). rewrite Nat.sub_0_r in Hi, Hfirst.
  by exists d.
Qed.

(** X14: after [set(key, value)] with no path, [raw_lookup(key)] is the
    value, provided the first writable child is enabled and no enabled
    child of higher priority has the key; the other children are as
    they were, and the collection's longest key is still the maximum over its
    children if it was. *)
Theorem set_then_raw_lookup (c c' : StenoDictionaryCollection) (k : key) (v : string) :
  Collection.set c k v None = Ok c' ->
  exists i d d',
    first_writable c = Ok i ∧ dicts c !! i = Some d
    ∧ __setitem__ d k v = Ok d'
    ∧ dicts c' = <[i := d']> (dicts c)
    ∧ data d' = <[k := v]> (data d)
    ∧ (aggregate_ok c -> aggregate_ok c')
    ∧ (enabled d = true ->
       (forall j d0, j < i -> dicts c !! j = Some d0 ->
                     enabled d0 = false ∨ data d0 !! k = None) ->
       raw_lookup c' k = Some v).
Proof.
  intros Hset. pose proof Hset as Hset'. unfold Collection.set in Hset.
  destruct (first_writable c) as [i|e] eqn:Hfw; [|done]. simpl in Hset.
  destruct (dicts c !! i) as [d|] eqn:Hi; [|done]. simpl in Hset.
  destruct (__setitem__ d k v) as [d'|e] eqn:Hd'; [|done]. simpl in Hset.
  injection Hset as <-.
  destruct (setitem_data _ _ _ _ Hd') as [Hdata _].
  assert (Hdicts : dicts (child_changed c i d d') = <[i := d']> (dicts c)).
  { unfold child_changed. case_decide; [done|].
    unfold _longest_key_listener. by case_decide. }
  exists i, d, d'. split; [done|]. split; [done|]. split; [done|].
  split; [done|]. split; [done|]. split.
  { intros Hagg. by apply (set_aggregate_ok c k v None). }
  intros Hen Hfirst. unfold raw_lookup. apply raw_lookup_in_first. rewrite Hdicts.
  assert (Hen' : enabled d' = enabled d).
  { unfold __setitem__ in Hd'. destruct (readonly d); [done|]. simpl in Hd'.
    injection Hd' as <-. simpl. destruct (data d !! k); [done|].
    by destruct (set_longest_key_contents d (Nat.max (_longest_key_length d) (length k)))
      as (_ & _ & _ & -> & _). }
  exists i, d'. split.
  { apply list_lookup_insert_eq. by eapply lookup_lt_Some. }
  split; [by rewrite Hen'|]. split; [by rewrite Hdata lookup_insert_eq|].
  intros j d0 Hj Hd0. rewrite list_lookup_insert_ne in Hd0; [lia|].
  by apply (Hfirst j).
Qed.







End CollectionMore.

(* ===================================================================== *)
(** * More on restrict_size *)
(* ===================================================================== *)

Section StateMore.
Import Translation.

(** The loop of [restrict_size] stops at the first record, counted from
    the newest, with which the strokes counted reach [n]. *)
Lemma restrict_size_loop_spec l n : forall sc tc,
  exists c, restrict_size_loop l n sc tc = tc + c ∧ c <= length l
    ∧ (l ≠ [] -> 1 <= c)
    ∧ (forall j, 1 <= j < c -> (sc + strokes_in (take j l) < n)%Z)
    ∧ (c < length l -> (n <= sc + strokes_in (take c l))%Z).
Proof.
  induction l as [|t l IH]; intros sc tc; simpl.
  - exists 0. repeat split; try done; try lia.
  - destruct (Z.geb_spec (sc + Z.of_nat (len t)) n) as [Hge|Hlt].
    + exists 1. split; [done|]. split; [lia|]. split; [done|]. split.
      * intros j Hj. lia.
      * intros _. simpl. lia.
    + destruct (IH (sc + Z.of_nat (len t))%Z (tc + 1)) as (c & Hc & Hle & _ & Hbefore & Hstop).
      exists (S c). split; [rewrite Hc; lia|]. split; [lia|]. split; [lia|]. split.
      * intros [|[|j]] Hj; [lia | simpl; lia |].
        simpl. specialize (Hbefore (S j) ltac:(lia)). simpl in Hbefore. lia.
      * intros Hlt'. simpl. specialize (Hstop ltac:(lia)). lia.
Qed.

Lemma restrict_size_loop_take l n : forall sc tc c,
  restrict_size_loop l n sc tc = tc + c ->
  restrict_size_loop (take c l) n sc tc = tc + c.
Proof.
  induction l as [|t l IH]; intros sc tc c; simpl.
  - intros H. assert (c = 0) as -> by lia. done.
  - destruct (Z.geb_spec (sc + Z.of_nat (len t)) n) as [Hge|Hlt].
    + intros H. assert (c = 1) as -> by lia. simpl.
      destruct (Z.geb_spec (sc + Z.of_nat (len t)) n); [done | lia].
    + intros H.
      destruct (restrict_size_loop_bounds l n (sc + Z.of_nat (len t))%Z (tc + 1))
        as (Hlb & _ & _).
      destruct c as [|c]; [lia|]. simpl.
      destruct (Z.geb_spec (sc + Z.of_nat (len t)) n); [lia|].
      rewrite (IH _ _ c); lia.
Qed.

(** X16: [restrict_size n] keeps the shortest suffix of the translations
    whose strokes number at least [n], or all of them if they have fewer:
    if something is discarded the strokes kept are at least [n], and no
    shorter non-empty suffix of what is kept has [n] strokes. *)
Theorem restrict_size_keeps_shortest_suffix (st : _State) (n : Z) :
  let kept := translations (restrict_size st n) in
  (kept ≠ translations st -> (n <= strokes_in kept)%Z)
  ∧ (forall j, 0 < j < length kept -> (strokes_in (drop j kept) < n)%Z).
Proof.
  intros kept. subst kept. unfold restrict_size. simpl.
  set (ts := translations st).
  destruct (restrict_size_loop_spec (rev ts) n 0%Z 0) as (c & Hc & Hle & _ & Hbefore & Hstop).
  rewrite Hc /=. rewrite length_rev in Hle, Hstop.
  assert (Hkept : forall j, drop j (drop (length ts - c) ts)
                            = rev (take (c - j) (rev ts))).
  { intros j. rewrite drop_drop -(rev_involutive (drop _ ts)).
    destruct (Nat.le_gt_cases (length ts - c + j) (length ts)).
    - rewrite rev_drop_take //. f_equal. f_equal. lia.
    - rewrite drop_ge; [lia|]. simpl. replace (c - j) with 0 by lia. by rewrite take_0. }
  split.
  - intros Hne. assert (c < length ts).
    { destruct (decide (c = length ts)) as [->|]; [|lia].
      rewrite Nat.sub_diag drop_0 in Hne. done. }
    pose proof (Hkept 0) as H0. rewrite drop_0 Nat.sub_0_r in H0.
    rewrite H0 strokes_in_rev. specialize (Hstop ltac:(lia)). lia.
  - intros j Hj. rewrite length_drop in Hj. rewrite Hkept strokes_in_rev.
    specialize (Hbefore (c - j) ltac:(lia)). lia.
Qed.

Lemma restrict_size_again (st : _State) (n : Z) :
  restrict_size (restrict_size st n) n = restrict_size st n.
Proof.
  set (ts := translations st).
  destruct (restrict_size_loop_spec (rev ts) n 0%Z 0) as (c & Hc & Hle & _).
  rewrite length_rev in Hle.
  assert (Hkept : translations (restrict_size st n) = drop (length ts - c) ts).
  { unfold restrict_size. simpl. fold ts. by rewrite Hc. }
  set (st' := restrict_size st n) in *. clearbody st'.
  unfold restrict_size. rewrite Hkept rev_drop_take; [lia|].
  replace (length ts - (length ts - c)) with c by lia.
  rewrite (restrict_size_loop_take _ _ _ _ c Hc) /= length_drop.
  replace (length ts - (length ts - c) - c) with 0 by lia.
  rewrite drop_0 -Hkept /=. by destruct st'.
Qed.

Lemma restrict_size_loop_take_more l m : forall sc tc c c',
  restrict_size_loop l m sc tc = tc + c -> c <= c' ->
  restrict_size_loop (take c' l) m sc tc = tc + c.
Proof.
  induction l as [|t l IH]; intros sc tc c c'; simpl.
  - intros H _. assert (c = 0) as -> by lia. by rewrite take_nil.
  - destruct (Z.geb_spec (sc + Z.of_nat (len t)) m) as [Hge|Hlt].
    + intros H Hle. assert (c = 1) as -> by lia. destruct c' as [|c']; [lia|]. simpl.
      destruct (Z.geb_spec (sc + Z.of_nat (len t)) m); [done | lia].
    + intros H Hle.
      destruct (restrict_size_loop_bounds l m (sc + Z.of_nat (len t))%Z (tc + 1))
        as (Hlb & _ & _).
      destruct c as [|c]; [lia|]. destruct c' as [|c']; [lia|]. simpl.
      destruct (Z.geb_spec (sc + Z.of_nat (len t)) m); [lia|].
      rewrite (IH _ _ c c'); lia.
Qed.

(** X17: restricting to a size and then to a smaller or equal one is
    restricting to the latter at once, for the records kept and for the
    tail. *)
Theorem restrict_size_compose (st : _State) (n m : Z) :
  (m <= n)%Z ->
  restrict_size (restrict_size st n) m = restrict_size st m.
Proof.
  intros Hmn. set (ts := translations st).
  destruct (restrict_size_loop_spec (rev ts) n 0%Z 0)
    as (cn & Hcn & Hlen & Hposn & _ & Hstopn).
  destruct (restrict_size_loop_spec (rev ts) m 0%Z 0)
    as (cm & Hcm & Hlem & _ & Hbeforem & _).
  rewrite length_rev in Hlen, Hlem, Hstopn.
  assert (Hle : cm <= cn).
  { destruct (decide (cn = length ts)) as [->|Hne]; [done|].
    specialize (Hstopn ltac:(lia)).
    destruct (Nat.le_gt_cases cm cn) as [|Hgt]; [done|].
    assert (1 <= cn).
    { apply Hposn. intros Hr. apply (f_equal (@length _)) in Hr.
      rewrite length_rev /= in Hr. lia. }
    specialize (Hbeforem cn ltac:(lia)). lia. }
  assert (Hn : restrict_size st n
               = {| translations := drop (length ts - cn) ts;
                    tail := if decide (length ts - cn ≠ 0)
                            then ts !! (length ts - cn - 1) else tail st |}).
  { unfold restrict_size. fold ts. by rewrite Hcn. }
  assert (Hm : restrict_size st m
               = {| translations := drop (length ts - cm) ts;
                    tail := if decide (length ts - cm ≠ 0)
                            then ts !! (length ts - cm - 1) else tail st |}).
  { unfold restrict_size. fold ts. by rewrite Hcm. }
  rewrite Hn Hm. unfold restrict_size. simpl.
  rewrite rev_drop_take; [lia|].
  replace (length ts - (length ts - cn)) with cn by lia.
  rewrite (restrict_size_loop_take_more _ _ _ _ cm cn Hcm Hle) /= length_drop.
  replace (length ts - (length ts - cn)) with cn by lia.
  rewrite drop_drop. replace (length ts - cn + (cn - cm)) with (length ts - cm) by lia.
  f_equal. destruct (decide (cn - cm ≠ 0)) as [Hd|Hd].
  - rewrite decide_True; [lia|]. rewrite lookup_drop. f_equal. lia.
  - assert (cm = cn) as -> by lia. done.
Qed.
End StateMore.

(* ===================================================================== *)
(** * Undo and do *)
(* ===================================================================== *)

Section UndoDo.
Import Translation.

Lemma py_index_last {A} (l : list A) x : py_index (l ++ [x]) (-1) = Ok x.
Proof.
  unfold py_index. rewrite length_app /=.
  destruct (Z.leb_spec 0 (-1 + Z.of_nat (length l + 1))); [|lia].
  destruct (Z.ltb_spec (-1 + Z.of_nat (length l + 1)) (Z.of_nat (length l + 1))); [|lia].
  simpl. replace (Z.to_nat (-1 + Z.of_nat (length l + 1))) with (length l) by lia.
  by rewrite list_lookup_middle.
Qed.

Lemma undo_takes_suffix ts : forall tr base,
  translations (_state tr) = base ++ ts ->
  _undo tr ts
  = Ok (with_pending (with_translations tr base) (undone tr ts) (_to_do tr - length ts)).
Proof.
  unfold _undo, undone.
  induction ts as [|t ts IH] using rev_ind; intros tr base Hst.
  - simpl. rewrite app_nil_r in Hst. rewrite Nat.sub_0_r.
    destruct tr as [ul di li [tl ta] tu td em]. simpl in *. by subst.
  - rewrite rev_app_distr /=. rewrite Hst app_assoc py_index_last /=.
    rewrite removelast_last /eqb bool_decide_eq_true_2 //=.
    rewrite (length_app ts [t]) /=. case_decide as Hdo.
    + rewrite (IH _ (base)) //=.
      f_equal. unfold with_pending, with_translations, with_state. simpl.
      f_equal; [|lia]. f_equal.
      rewrite take_app_le; [lia|]. f_equal. lia.
    + rewrite (IH _ base) //=.
      f_equal. unfold with_pending, with_translations, with_state. simpl.
      assert (_to_do tr = 0) as -> by lia.
      rewrite !Nat.sub_0_r firstn_all.
      assert (Hall : take (length ts + 1) (ts ++ [t]) = ts ++ [t])
        by (apply take_ge; rewrite length_app /=; lia).
      by rewrite Hall -app_assoc /=.
Qed.

(** X18: when the history ends with the records given, [_undo] takes them
    off; of these records the newest, as many as were still to do, only
    lower the count of records to do, and the others are put, in order,
    before the records to undo. *)
Theorem undo_removes_suffix (tr : Translator) (base ts : list Translation) :
  translations (_state tr) = base ++ ts ->
  exists tr', _undo tr ts = Ok tr'
    ∧ translations (_state tr') = base
    ∧ tail (_state tr') = tail (_state tr)
    ∧ _to_do tr' = _to_do tr - length ts
    ∧ _to_undo tr' = take (length ts - _to_do tr) ts ++ _to_undo tr
    ∧ emitted tr' = emitted tr.
Proof.
  intros Hst. rewrite (undo_takes_suffix ts tr base Hst). by eexists.
Qed.

(** X19: [_undo] of the records just given to [_do] gives back the
    translator as it was. *)
Theorem do_then_undo (tr : Translator) (ts : list Translation) :
  _undo (_do tr ts) ts = Ok tr.
Proof.
  rewrite (undo_takes_suffix ts (_do tr ts) (translations (_state tr))) //.
  unfold undone, _do, with_pending, with_translations, with_state. simpl.
  replace (length ts - (_to_do tr + length ts)) with 0 by lia.
  rewrite take_0 /=. replace (_to_do tr + length ts - length ts) with (_to_do tr) by lia.
  by destruct tr as [ul di li [tl ta] tu td em].
Qed.
End UndoDo.

(* ===================================================================== *)
(** * More on translating a stroke *)
(* ===================================================================== *)

Section SelectionFacts.
Import Translation Greedy.
Variable new_stroke : list string -> Stroke.t.

Lemma strokes_in_drop_le ts i : (strokes_in (drop i ts) <= strokes_in ts)%Z.
Proof.
  rewrite -{2}(take_drop i ts) strokes_in_app.
  pose proof (strokes_in_nonneg (take i ts)). lia.
Qed.

Lemma strokes_in_concat ts :
  Z.of_nat (length (concat (map strokes ts))) = strokes_in ts.
Proof.
  induction ts as [|t ts IH]; simpl; [done|].
  rewrite length_app Nat2Z.inj_add IH /len. lia.
Qed.

(** X20: on well-formed records, the record [_find_translation]
    returns has at most [longest_key] strokes, or one stroke when
    [longest_key] is 0, and is well-formed itself: it has as many keys as
    strokes, and at least one stroke. *)
Theorem find_translation_fits_longest_key (tr : Translator) (stroke : Stroke.t)
        (normal : bool) (suffixes prefixes : tuple) :
  Forall wf_translation (translations (_state tr)) ->
  exists t : Translation,
    _find_translation new_stroke tr stroke normal suffixes prefixes = Ok t
    ∧ (Z.of_nat (length (strokes t))
       <= Z.max 1 (Z.of_nat (Collection.longest_key (_dictionary tr))))%Z
    ∧ length (rtfcre t) = length (strokes t)
    ∧ strokes t ≠ [].
Proof.
  intros WF.
  destruct (find_translation_first_hit new_stroke tr stroke normal suffixes prefixes WF)
    as (_ & Hfind).
  destruct (selection_spec (translations (_state tr))
              (Collection.longest_key (_dictionary tr))) as (_ & Hfit & _).
  set (recent := drop _ (translations (_state tr))) in *.
  eexists. split; [exact Hfind|].
  destruct (first_hit_passes _ _ _) as [[[p j] mapping]|].
  - change (strokes (found stroke recent j mapping))
      with (concat (map strokes (drop j recent)) ++ [stroke]).
    change (rtfcre (found stroke recent j mapping))
      with (map Stroke.rtfcre (concat (map strokes (drop j recent)) ++ [stroke])).
    split; [|split; [by rewrite length_map | by destruct (concat _)]].
    rewrite length_app /= Nat2Z.inj_add strokes_in_concat.
    pose proof (strokes_in_drop_le recent j) as Hj.
    destruct (decide (recent = [])) as [He|Hne].
    + rewrite He drop_nil /=. lia.
    + specialize (Hfit Hne). lia.
  - simpl. split; [lia | done].
Qed.
End SelectionFacts.

Section TranslateMore.
Import Translation Greedy.
Variable new_stroke : list string -> Stroke.t.
Variable registry_macro :
  string -> option (Translator -> Stroke.t -> string -> result Translator).
Variable system : System.

Lemma found_wf stroke recent j mapping :
  rtfcre (found stroke recent j mapping)
  = map Stroke.rtfcre (strokes (found stroke recent j mapping))
  ∧ english (found stroke recent j mapping) = Some mapping.
Proof. done. Qed.

(** The record [_find_translation] returns replaces a suffix of the
    history and is made of the strokes of that suffix and the new
    stroke. *)
Lemma find_translation_shape (tr : Translator) (s : Stroke.t) normal suffixes prefixes :
  Forall wf_translation (translations (_state tr)) ->
  exists t base,
    _find_translation new_stroke tr s normal suffixes prefixes = Ok t
    ∧ translations (_state tr) = base ++ replaced t
    ∧ strokes t = concat (map strokes (replaced t)) ++ [s]
    ∧ rtfcre t = map Stroke.rtfcre (strokes t).
Proof.
  intros WF.
  destruct (find_translation_first_hit new_stroke tr s normal suffixes prefixes WF)
    as (_ & Hfind).
  set (recent := drop _ (translations (_state tr))) in Hfind.
  destruct (first_hit_passes _ _ _) as [[[p j] mapping]|].
  - exists (found s recent j mapping),
           (take (length (translations (_state tr)) - length (drop j recent))
                 (translations (_state tr))).
    split; [done|]. split; [|done].
    change (replaced (found s recent j mapping)) with (drop j recent).
    subst recent. rewrite drop_drop.
    set (k := _ + j). rewrite length_drop.
    destruct (Nat.le_gt_cases k (length (translations (_state tr)))).
    + replace (length (translations (_state tr)) - (length (translations (_state tr)) - k))
        with k by lia. by rewrite take_drop.
    + rewrite drop_ge; [lia|]. rewrite app_nil_r take_ge //. lia.
  - exists (__init__ [s] None), (translations (_state tr)).
    split; [done|]. by rewrite app_nil_r.
Qed.

Lemma py_slice_last {A} (base news : list A) :
  news ≠ [] ->
  py_slice_to (base ++ news) (- Z.of_nat (length news)) = base
  ∧ py_slice_from (base ++ news) (- Z.of_nat (length news)) = news.
Proof.
  intros Hne. unfold py_slice_to, py_slice_from, py_slice_bound.
  assert (0 < length news) by (destruct news; [done | simpl; lia]).
  destruct (Z.ltb_spec (- Z.of_nat (length news)) 0); [|lia].
  rewrite length_app.
  replace (Z.to_nat (Z.max 0 (- Z.of_nat (length news)
                              + Z.of_nat (length base + length news))))
    with (length base) by lia.
  by rewrite take_app_length drop_app_length.
Qed.

(** [flush] with records still to do: they are emitted as the do list,
    with the records to undo, and the context is taken from what comes
    before them. *)
Lemma flush_pending (tr : Translator) (base news : list Translation) :
  translations (_state tr) = base ++ news -> _to_do tr = length news -> news ≠ [] ->
  flush tr None
  = _resize_translations
      (_output (with_pending tr [] 0) (_to_undo tr) news (prev_answer (_state tr) base)).
Proof.
  intros Hst Hdo Hne. unfold flush.
  assert (Hpos : _to_do tr ≠ 0) by (rewrite Hdo; destruct news; [done | simpl; lia]).
  rewrite decide_True // Hst Hdo.
  destruct (py_slice_last base news Hne) as [Hto Hfrom].
  unfold prev. rewrite Hst Hto Hfrom.
  destruct news as [|n news]; [done|]. unfold prev_answer.
  by destruct (_to_undo tr), base.
Qed.

Lemma lookup_no_suffixes (tr : Translator) (s : Stroke.t) :
  lookup new_stroke tr [s] empty_tuple = Ok (Collection.lookup (_dictionary tr) [Stroke.rtfcre s]).
Proof. unfold lookup. simpl. by destruct (Collection.lookup _ _). Qed.

(** What one stroke that is no macro does, from a translator with
    nothing pending. *)
Lemma translate_steps (tr : Translator) (s : Stroke.t) :
  Forall wf_translation (translations (_state tr)) ->
  _to_undo tr = [] -> _to_do tr = 0 ->
  _mapping_to_macro (Collection.lookup (_dictionary tr) [Stroke.rtfcre s]) s = None ->
  exists t base,
    translations (_state tr) = base ++ replaced t
    ∧ strokes t = concat (map strokes (replaced t)) ++ [s]
    ∧ rtfcre t = map Stroke.rtfcre (strokes t)
    ∧ translate new_stroke registry_macro system tr s
      = Ok (_resize_translations
              (_output (with_pending (with_translations tr (base ++ [t])) [] 0)
                       (replaced t) [t]
                       (prev_answer (_state tr) base))).
Proof.
  intros WF Hundo Hdo Hmacro.
  destruct (find_translation_shape tr s true (SUFFIX_KEYS system) (PREFIX_KEYS system) WF)
    as (t & base & Hfind & Hst & Hstrokes & Hrtfcre).
  exists t, base. split; [done|]. split; [done|]. split; [done|].
  unfold translate, translate_stroke. rewrite lookup_no_suffixes /= Hmacro Hfind /=.
  unfold translate_translation.
  rewrite (undo_takes_suffix (replaced t) tr base Hst) /=. f_equal.
  set (tr1 := with_pending _ _ _).
  rewrite (flush_pending (_do tr1 [t]) base [t]); [done | | done |].
  { simpl. rewrite Hdo. simpl. lia. }
  subst tr1. unfold _do, undone, with_pending, with_translations, with_state,
    _output, prev_answer. simpl.
  rewrite Hdo Hundo Nat.sub_0_r firstn_all app_nil_r. done.
Qed.

(** X21: a stroke that is no macro, on a translator with nothing pending
    and well-formed records, is translated without error and makes one
    call of each listener.  The undo list is the records the new one
    replaces, which are the newest of the history; the do list is the new
    record alone, whose strokes are those of the records replaced and
    the new stroke, so it has one stroke more than what is undone; the
    context is what comes before the records replaced. *)
Theorem translate_emits_once (tr : Translator) (s : Stroke.t) :
  Forall wf_translation (translations (_state tr)) ->
  _to_undo tr = [] -> _to_do tr = 0 ->
  _mapping_to_macro (Collection.lookup (_dictionary tr) [Stroke.rtfcre s]) s = None ->
  exists tr' t base,
    translate new_stroke registry_macro system tr s = Ok tr'
    ∧ translations (_state tr) = base ++ replaced t
    ∧ strokes t = concat (map strokes (replaced t)) ++ [s]
    ∧ strokes_in [t] = (strokes_in (replaced t) + 1)%Z
    ∧ emitted tr'
      = emitted tr
        ++ map (fun callback =>
                  mkOutput callback (replaced t) [t] (prev_answer (_state tr) base))
               (_listeners tr).
Proof.
  intros WF Hundo Hdo Hmacro.
  destruct (translate_steps tr s WF Hundo Hdo Hmacro)
    as (t & base & Hst & Hstrokes & _ & Htr).
  eexists _, t, base. split; [exact Htr|]. split; [done|]. split; [done|].
  split; [|done].
  simpl. unfold len. rewrite Hstrokes length_app Nat2Z.inj_add strokes_in_concat /=. lia.
Qed.

Lemma restrict_size_suffix (st : _State) (n : Z) :
  exists older, translations st = older ++ translations (restrict_size st n)
    ∧ (translations st ≠ [] ->
       list.last (translations (restrict_size st n)) = list.last (translations st)).
Proof.
  unfold restrict_size. simpl. set (ts := translations st).
  destruct (restrict_size_loop_spec (rev ts) n 0%Z 0) as (c & Hc & Hle & Hpos & _).
  rewrite Hc /=. rewrite length_rev in Hle.
  exists (take (length ts - c) ts). split; [by rewrite take_drop|].
  intros Hne. assert (1 <= c).
  { apply Hpos. intros Hr. apply (f_equal (@length _)) in Hr.
    rewrite length_rev /= in Hr. destruct ts; [done | simpl in Hr; lia]. }
  transitivity (list.last (take (length ts - c) ts ++ drop (length ts - c) ts));
    [|by rewrite take_drop].
  rewrite last_app.
  destruct (list.last (drop (length ts - c) ts)) eqn:Hl; [done|].
  apply last_None in Hl. apply (f_equal (@length _)) in Hl.
  rewrite length_drop /= in Hl. lia.
Qed.

(** X22: after a stroke that is no macro, translated from a translator
    with nothing pending and well-formed records, nothing is pending, the
    dictionary and the listeners are as before, and the history is what
    [restrict_size] keeps of the old history with the records replaced
    taken off and the new record put on: a suffix of it that ends with
    the new record; and its records are well-formed again. *)
Theorem translate_keeps_history (tr : Translator) (s : Stroke.t) :
  Forall wf_translation (translations (_state tr)) ->
  _to_undo tr = [] -> _to_do tr = 0 ->
  _mapping_to_macro (Collection.lookup (_dictionary tr) [Stroke.rtfcre s]) s = None ->
  exists tr' t base older,
    translate new_stroke registry_macro system tr s = Ok tr'
    ∧ translations (_state tr) = base ++ replaced t
    ∧ _state tr'
      = restrict_size {| translations := base ++ [t]; tail := tail (_state tr) |}
                      (horizon tr)
    ∧ base ++ [t] = older ++ translations (_state tr')
    ∧ list.last (translations (_state tr')) = Some t
    ∧ Forall wf_translation (translations (_state tr'))
    ∧ _to_undo tr' = [] ∧ _to_do tr' = 0
    ∧ _dictionary tr' = _dictionary tr ∧ _listeners tr' = _listeners tr.
Proof.
  intros WF Hundo Hdo Hmacro.
  destruct (translate_steps tr s WF Hundo Hdo Hmacro)
    as (t & base & Hst & Hstrokes & Hrtfcre & Htr).
  set (st1 := {| translations := base ++ [t]; tail := tail (_state tr) |}).
  destruct (restrict_size_suffix st1 (horizon tr)) as (older & Hsuffix & Hlast).
  eexists _, t, base, older. split; [exact Htr|]. split; [done|]. simpl.
  split; [done|]. split; [done|]. split.
  { rewrite Hlast; [by destruct base|]. simpl. by rewrite last_snoc. }
  split; [|done].
  assert (WF1 : Forall wf_translation (base ++ [t])).
  { apply Forall_app. split.
    - rewrite Hst in WF. by apply Forall_app in WF as [? _].
    - constructor; [|done]. split.
      + by rewrite Hrtfcre length_map.
      + rewrite Hstrokes. by destruct (concat _). }
  simpl in Hsuffix. rewrite Hsuffix in WF1. by apply Forall_app in WF1 as [_ ?].
Qed.

(** X23: a second [flush] right after a [flush] changes nothing and calls
    no listener. *)
Theorem flush_twice (tr : Translator) (extra : option (list Translation)) :
  flush (flush tr extra) None = flush tr extra.
Proof.
  unfold flush at 1.
  assert (Hp : _to_do (flush tr extra) = 0 ∧ _to_undo (flush tr extra) = []).
  { unfold flush. destruct (decide (_to_do tr ≠ 0)); simpl;
      destruct extra; simpl; repeat case_match; done. }
  destruct Hp as [Hdo Hundo]. rewrite Hdo Hundo /=.
  assert (Hst : exists tr0, flush tr extra = _resize_translations tr0
                            ∧ _to_do tr0 = 0 ∧ _to_undo tr0 = []).
  { unfold flush. destruct (decide (_to_do tr ≠ 0)); simpl;
      destruct extra; simpl; repeat case_match; by eexists. }
  destruct Hst as (tr0 & -> & Hdo0 & Hundo0).
  unfold _resize_translations, with_pending, with_state. simpl.
  rewrite restrict_size_again. by rewrite Hdo0 Hundo0.
Qed.
End TranslateMore.

(* ===================================================================== *)
(** * Affix lookups and macros *)
(* ===================================================================== *)

Section AffixSearchFacts.
Import Translation.
Variable new_stroke : list string -> Stroke.t.
Variable lookup_f : key -> option string.

(** X24: on a non-empty sequence [_lookup_affixes] raises nothing and
    gives the joined mappings of the first pair for which the sequence
    with its first (for a prefix) or last stroke replaced, and the affix
    key alone, both have a mapping; each pair is tried on the sequence as
    it was given.  On an empty sequence with a pair to try it raises
    [IndexError]. *)
Theorem lookup_affixes_first_pair (seq : list string) (pairs : list (string * string))
        (prefix : bool) :
  (seq ≠ [] ->
   _lookup_affixes new_stroke lookup_f seq pairs prefix
   = Ok (affix_search new_stroke lookup_f prefix seq pairs))
  ∧ (seq = [] -> pairs ≠ [] ->
     _lookup_affixes new_stroke lookup_f seq pairs prefix = Raise IndexError).
Proof.
  split.
  - intros Hne. unfold _lookup_affixes. by apply lookup_affixes_loop_search.
  - intros -> Hp. unfold _lookup_affixes. destruct pairs as [|[k removed] pairs]; [done|].
    by destruct prefix.
Qed.
End AffixSearchFacts.

Section MacroFacts.
Import Translation.

Lemma split_colon_name name cmd :
  no_colon name = true ->
  split_colon (name +:+ String ":" cmd) = (name, Some cmd)
  ∧ split_colon name = (name, None).
Proof.
  induction name as [|c name IH]; simpl; [done|].
  intros [Hc Hn]%andb_true_iff. apply negb_true_iff in Hc.
  destruct (IH Hn) as [IH1 IH2].
  change (String c name +:+ String ":" cmd) with (String c (name +:+ String ":" cmd)).
  simpl. by rewrite Hc IH1 IH2.
Qed.

Lemma length_append (a b : string) :
  String.length (a +:+ b) = String.length a + String.length b.
Proof.
  induction a as [|c a IH]; [done|].
  change (String c a +:+ b) with (String c (a +:+ b)). simpl. by rewrite IH.
Qed.

(** X25: a mapping "=name" or "=name:cmdline", with a non-empty name that
    holds no colon, is the macro of that name with that command line
    (empty if there is none); "=" alone and "=:cmdline" are no macro;
    with no mapping at all the macro is "undo" if the stroke is the
    correction stroke, and there is none otherwise. *)
Theorem mapping_to_macro_parses (stroke : Stroke.t) (name cmd : string) :
  name ≠ EmptyString -> no_colon name = true ->
  _mapping_to_macro (Some (String "=" name)) stroke
  = Some (mkMacro name stroke EmptyString)
  ∧ _mapping_to_macro (Some (String "=" (name +:+ String ":" cmd))) stroke
    = Some (mkMacro name stroke cmd)
  ∧ _mapping_to_macro (Some (String "=" EmptyString)) stroke = None
  ∧ _mapping_to_macro (Some (String "=" (String ":" cmd))) stroke = None
  ∧ _mapping_to_macro None stroke
    = if Stroke.is_correction stroke
      then Some (mkMacro "undo" stroke EmptyString) else None.
Proof.
  intros Hne Hcolon. destruct (split_colon_name name cmd Hcolon) as [H1 H2].
  assert (Htruthy : truthy name = true) by (by destruct name).
  assert (Hlen : forall rest, (1 <? String.length (String "=" (name +:+ rest))) = true).
  { intros rest. simpl. rewrite length_append. destruct name; [done|]. simpl.
    apply Nat.ltb_lt. lia. }
  split; [|split; [|split; [|split]]].
  - unfold _mapping_to_macro. simpl dict_get. cbv iota beta.
    change (Ascii.eqb "=" "=") with true.
    assert (Hl : (1 <? String.length (String "=" name)) = true).
    { simpl. destruct name; [done|]. simpl. by apply Nat.ltb_lt; lia. }
    rewrite Hl /= H2 /= Htruthy. done.
  - unfold _mapping_to_macro. simpl dict_get. cbv iota beta.
    change (Ascii.eqb "=" "=") with true.
    rewrite Hlen /= H1 /= Htruthy. done.
  - done.
  - done.
  - unfold _mapping_to_macro. by destruct (Stroke.is_correction stroke).
Qed.
End MacroFacts.

(* ===================================================================== *)
(** * Joining without a rule; key order *)
(* ===================================================================== *)

Section OrthographyMore.
Import Orthography.
Variable system : System.

(** X26: when no orthography rule matches, for the first token of the
    suffix or for its alias, [add_suffix] is plain concatenation,
    whatever the word list holds. *)
Theorem add_suffix_without_match (word suffix : string) :
  Forall (fun rule => rule.1 (word +:+ " ^ " +:+ (partition_space suffix).1.1) = None)
         (ORTHOGRAPHY_RULES system) ->
  (forall alias,
     ORTHOGRAPHY_RULES_ALIASES system !! (partition_space suffix).1.1 = Some alias ->
     Forall (fun rule => rule.1 (word +:+ " ^ " +:+ alias) = None)
            (ORTHOGRAPHY_RULES system)) ->
  add_suffix system word suffix = word +:+ suffix.
Proof.
  pose proof (partition_space_spec suffix) as Hp. unfold add_suffix.
  destruct (partition_space suffix) as [[token sep] rest]. simpl.
  destruct Hp as (Hs & _ & _). intros Hrules Halias.
  assert (Hc : collect_candidates system word token
               = if in_dict_f system (word +:+ token) then [word +:+ token] else []).
  { unfold collect_candidates, _add_candidates_from_rules.
    rewrite add_candidates_loop_none //.
    destruct (ORTHOGRAPHY_RULES_ALIASES system !! token) as [alias|] eqn:Ha;
      [|by destruct (in_dict_f system (word +:+ token))].
    rewrite add_candidates_loop_none; [by apply Halias|].
    by destruct (in_dict_f system (word +:+ token)). }
  assert (Hj : _add_suffix system word token = word +:+ token).
  { unfold _add_suffix. rewrite Hc.
    destruct (in_dict_f system (word +:+ token)) eqn:Hw; simpl; [|done].
    by rewrite Hw. }
  by rewrite Hj Hs append_assoc.
Qed.
End OrthographyMore.

Section KeyOrderFacts.
Import SystemInit.

Lemma lookup_foldl_insert (l : list (string * Z)) : forall (m : gmap string Z),
  NoDup l.*1 ->
  (forall k i, (k, i) ∈ l -> foldl (fun m ki => <[ki.1 := ki.2]> m) m l !! k = Some i)
  ∧ (forall k, k ∉ l.*1 -> foldl (fun m ki => <[ki.1 := ki.2]> m) m l !! k = m !! k).
Proof.
  induction l as [|[k0 i0] l IH]; intros m Hnd; simpl.
  - split; [|done]. intros k i Hk. by apply elem_of_nil in Hk.
  - apply list.NoDup_cons in Hnd as [Hk0 Hnd]. destruct (IH (<[k0:=i0]> m) Hnd) as [IH1 IH2].
    split.
    + intros k i [Heq|Hin]%elem_of_cons.
      * injection Heq as -> ->. rewrite IH2 //. by rewrite lookup_insert_eq.
      * by apply IH1.
    + intros k Hk. apply not_elem_of_cons in Hk as [Hne Hk]. simpl in Hne.
      rewrite IH2 //. by rewrite lookup_insert_ne.
Qed.

Lemma zip_count_lookup (keys : list string) :
  NoDup keys ->
  (forall i k, keys !! i = Some k -> zip_count keys !! k = Some (Z.of_nat i))
  ∧ (forall k, k ∉ keys -> zip_count keys !! k = None).
Proof.
  intros Hnd. unfold zip_count.
  set (l := zip keys (Z.of_nat <$> seq 0 (length keys))).
  assert (Hfst : l.*1 = keys).
  { subst l. apply fst_zip. rewrite length_fmap length_seq. lia. }
  destruct (lookup_foldl_insert l ∅) as [H1 H2]; [by rewrite Hfst|].
  split.
  - intros i k Hi. apply H1. subst l. apply list_elem_of_lookup. exists i.
    apply lookup_zip_with_Some. exists k, (Z.of_nat i). split; [done|]. split; [done|].
    rewrite list_lookup_fmap lookup_seq_lt; [by eapply lookup_lt_Some | done].
  - intros k Hk. rewrite H2; [by rewrite Hfst | done].
Qed.

Lemma number_loop_spec (items : list (string * string)) : forall (m : gmap string Z),
  (forall key number, (key, number) ∈ items -> is_Some (m !! key)) ->
  (forall key number key' number',
      (key, number) ∈ items -> (key', number') ∈ items -> number ≠ key') ->
  NoDup items.*2 ->
  exists m', number_loop items m = Ok m'
    ∧ (forall key number, (key, number) ∈ items -> m' !! number = m !! key)
    ∧ (forall k, k ∉ items.*2 -> m' !! k = m !! k).
Proof.
  induction items as [|[key0 number0] items IH]; intros m Hdom Hsep Hnd; simpl.
  - exists m. split; [done|]. split; [|done].
    intros key number H. by apply elem_of_nil in H.
  - apply list.NoDup_cons in Hnd as [Hn0 Hnd]. simpl in Hn0.
    destruct (Hdom key0 number0 ltac:(left)) as [i0 Hi0]. rewrite Hi0.
    assert (Hkeys : forall key number, (key, number) ∈ items ->
                      <[number0:=i0]> m !! key = m !! key).
    { intros key number Hin. rewrite lookup_insert_ne //.
      apply (Hsep key0 number0 key number); [left | by right]. }
    destruct (IH (<[number0:=i0]> m)) as (m' & Hm' & Hnum & Hother).
    { intros key number Hin. rewrite (Hkeys key number Hin). apply (Hdom key number).
      by right. }
    { intros key number key' number' H1 H2.
      apply (Hsep key number key' number'); by right. }
    { done. }
    exists m'. split; [done|]. split.
    + intros key number [Heq|Hin]%elem_of_cons.
      * injection Heq as -> ->. rewrite Hother //. by rewrite lookup_insert_eq.
      * rewrite (Hnum key number Hin). by apply (Hkeys key number).
    + intros k Hk. apply not_elem_of_cons in Hk as [Hne Hk]. simpl in Hne.
      rewrite Hother //. by rewrite lookup_insert_ne.
Qed.

(** X27: for distinct key names, and numbers that stand for keys and are
    no key names themselves, [_key_order] raises nothing; each key has
    its position as ordinal, each number has the ordinal of its key, and
    any other name has ordinal -1. *)
Theorem key_order_ordinals (keys : list string) (numbers : list (string * string)) :
  NoDup keys -> NoDup numbers.*2 ->
  (forall key number, (key, number) ∈ numbers -> key ∈ keys ∧ number ∉ keys) ->
  exists key_order,
    _key_order keys numbers = Ok key_order
    ∧ (forall i k, keys !! i = Some k -> key_order_get key_order k = Z.of_nat i)
    ∧ (forall key number, (key, number) ∈ numbers ->
         key_order_get key_order number = key_order_get key_order key)
    ∧ (forall k, k ∉ keys -> k ∉ numbers.*2 -> key_order_get key_order k = (-1)%Z).
Proof.
  intros Hnd Hnums Hnumbers. unfold _key_order.
  destruct (zip_count_lookup keys Hnd) as [Hz1 Hz2].
  destruct (number_loop_spec numbers (zip_count keys)) as (m' & Hm' & Hnum & Hother).
  { intros key number Hin. destruct (Hnumbers key number Hin) as [Hk _].
    apply list_elem_of_lookup in Hk as [i Hi]. rewrite (Hz1 i key Hi). by eexists. }
  { intros key number key' number' H1 H2 ->.
    destruct (Hnumbers _ _ H1) as [_ Hn]. by destruct (Hnumbers _ _ H2) as [Hk _]. }
  { done. }
  assert (Hkey : forall k, k ∈ keys -> m' !! k = zip_count keys !! k).
  { intros k Hk. apply Hother. intros Hin.
    apply list_elem_of_fmap in Hin as [[key number] [-> Hin]].
    by destruct (Hnumbers _ _ Hin) as [_ Hn]. }
  exists m'. split; [done|]. unfold key_order_get. split; [|split].
  - intros i k Hi. rewrite Hkey; [by eapply list_elem_of_lookup_2|]. by rewrite (Hz1 i k).
  - intros key number Hin. rewrite (Hnum key number Hin).
    destruct (Hnumbers _ _ Hin) as [Hk _]. by rewrite Hkey.
  - intros k Hk Hn. by rewrite Hother // Hz2.
Qed.
End KeyOrderFacts.

(* ===================================================================== *)
(** * Instances of the theorems above that have hypotheses *)
(* ===================================================================== *)

Section MoreExamples.
Import Dict Collection Translation Greedy Samples.

Lemma mutators_keep_reverse_index_witness :
  (forall k d', Dict.__delitem__ (build [(["A"], "hi")]) k = Ok d' -> reverse_consistent d')
  ∧ reverse_consistent (clear (build [(["A"], "hi")])).
Proof.
  destruct (mutators_keep_reverse_index (build [(["A"], "hi")])) as (Hc & _ & Hd & _).
  - apply build_consistent.
  - split; [exact Hd | exact Hc].
Defined.

Lemma mutators_keep_longest_key_witness :
  (forall k d', Dict.__delitem__ (build [(["A"], "hi")]) k = Ok d' ->
                longest_key_is_longest d')
  ∧ longest_key_is_longest (clear (build [(["A"], "hi")])).
Proof.
  destruct (mutators_keep_longest_key (build [(["A"], "hi")])) as (Hc & _ & Hd & _).
  - apply longest_key_ok_iff. vm_compute. reflexivity.
  - split; [exact Hd | exact Hc].
Defined.

Lemma setitem_then_delitem_witness :
  exists d1 d2,
    Dict.__setitem__ (build [(["A"], "hi")]) ["B"; "C"] "x" = Ok d1
    ∧ Dict.__delitem__ d1 ["B"; "C"] = Ok d2
    ∧ Dict.data d2 = Dict.data (build [(["A"], "hi")])
    ∧ Dict.longest_key d2 = 1.
Proof.
  destruct (setitem_then_delitem (build [(["A"], "hi")]) ["B"; "C"] "x")
    as (d1 & d2 & H1 & H2 & _ & _ & Hdata & _ & Hlong).
  - vm_compute. reflexivity.
  - vm_compute. reflexivity.
  - apply build_consistent.
  - apply longest_key_ok_iff. vm_compute. reflexivity.
  - exists d1, d2. split; [exact H1|]. split; [exact H2|]. split; [exact Hdata|].
    rewrite Hlong. vm_compute. reflexivity.
Defined.

Lemma update_forward_mapping_witness :
  Dict.data (value_of (Dict.update (build [(["A"], "hi")]) update_pairs) Dict.__init__)
  = updated_with (Dict.data (build [(["A"], "hi")])) update_pairs.
Proof.
  apply (update_forward_mapping (build [(["A"], "hi")]) update_pairs).
  vm_compute. reflexivity.
Defined.

Lemma set_then_raw_lookup_witness :
  exists i d d',
    first_writable override_collection = Ok i
    ∧ dicts override_collection !! i = Some d
    ∧ Dict.__setitem__ d ["C"] "x" = Ok d'
    ∧ dicts (value_of (Collection.set override_collection ["C"] "x" None)
                      override_collection)
      = <[i := d']> (dicts override_collection).
Proof.
  destruct (set_then_raw_lookup override_collection
              (value_of (Collection.set override_collection ["C"] "x" None)
                        override_collection) ["C"] "x")
    as (i & d & d' & H1 & H2 & H3 & H4 & _).
  - vm_compute. reflexivity.
  - exists i, d, d'. split; [exact H1|]. split; [exact H2|]. split; [exact H3 | exact H4].
Defined.

Lemma restrict_size_compose_witness :
  restrict_size (restrict_size three_records 3) 2 = restrict_size three_records 2.
Proof. apply restrict_size_compose. lia. Defined.

Lemma undo_removes_suffix_witness :
  exists tr', _undo cat_translator [t_cat] = Ok tr'
    ∧ translations (_state tr') = []
    ∧ _to_undo tr' = [t_cat].
Proof.
  destruct (undo_removes_suffix cat_translator [] [t_cat])
    as (tr' & H1 & H2 & _ & _ & H4 & _).
  - reflexivity.
  - exists tr'. split; [exact H1|]. split; [exact H2 | exact H4].
Defined.

Lemma find_translation_fits_longest_key_witness :
  exists t : Translation,
    _find_translation Samples.new_stroke cat_translator stroke_HROG true
                      empty_tuple empty_tuple = Ok t
    ∧ (Z.of_nat (length (strokes t))
       <= Z.max 1 (Z.of_nat (Collection.longest_key (_dictionary cat_translator))))%Z.
Proof.
  destruct (find_translation_fits_longest_key Samples.new_stroke cat_translator stroke_HROG
              true empty_tuple empty_tuple) as (t & H1 & H2 & _).
  - constructor; [|constructor]. split; [reflexivity | discriminate].
  - exists t. split; [exact H1 | exact H2].
Defined.

Lemma translate_emits_once_witness :
  exists tr' t base,
    translate Samples.new_stroke toy_registry toy_system cat_translator stroke_HROG = Ok tr'
    ∧ translations (_state cat_translator) = base ++ replaced t
    ∧ strokes t = concat (map strokes (replaced t)) ++ [stroke_HROG].
Proof.
  destruct (translate_emits_once Samples.new_stroke toy_registry toy_system
              cat_translator stroke_HROG)
    as (tr' & t & base & H1 & H2 & H3 & _).
  - constructor; [|constructor]. split; [reflexivity | discriminate].
  - reflexivity.
  - reflexivity.
  - vm_compute. reflexivity.
  - exists tr', t, base. split; [exact H1|]. split; [exact H2 | exact H3].
Defined.

Lemma translate_keeps_history_witness :
  exists tr' t,
    translate Samples.new_stroke toy_registry toy_system cat_translator stroke_HROG = Ok tr'
    ∧ list.last (translations (_state tr')) = Some t
    ∧ _to_undo tr' = [] ∧ _to_do tr' = 0.
Proof.
  destruct (translate_keeps_history Samples.new_stroke toy_registry toy_system
              cat_translator stroke_HROG)
    as (tr' & t & base & older & H1 & _ & _ & _ & H2 & _ & H3 & H4 & _).
  - constructor; [|constructor]. split; [reflexivity | discriminate].
  - reflexivity.
  - reflexivity.
  - vm_compute. reflexivity.
  - exists tr', t. split; [exact H1|]. split; [exact H2|]. split; [exact H3 | exact H4].
Defined.

Lemma mapping_to_macro_parses_witness :
  _mapping_to_macro (Some "=undo") stroke_KAT = Some (mkMacro "undo" stroke_KAT EmptyString)
  ∧ _mapping_to_macro (Some "=retrospective_insert_space:now") stroke_KAT
    = Some (mkMacro "retrospective_insert_space" stroke_KAT "now").
Proof.
  split.
  - apply (mapping_to_macro_parses stroke_KAT "undo" EmptyString); [discriminate | reflexivity].
  - apply (mapping_to_macro_parses stroke_KAT "retrospective_insert_space" "now");
      [discriminate | reflexivity].
Defined.

Lemma add_suffix_without_match_witness :
  Orthography.add_suffix no_rule_system "run" "ing home" = "run" +:+ "ing home".
Proof.
  apply add_suffix_without_match.
  - constructor.
  - intros alias H. constructor.
Defined.

Lemma key_order_ordinals_witness :
  exists key_order,
    SystemInit._key_order ["S-"; "T-"; "K-"] [("S-", "1-"); ("T-", "2-")] = Ok key_order
    ∧ SystemInit.key_order_get key_order "2-" = SystemInit.key_order_get key_order "T-".
Proof.
  destruct (key_order_ordinals ["S-"; "T-"; "K-"] [("S-", "1-"); ("T-", "2-")])
    as (ko & H1 & _ & H2 & _).
  - apply (bool_decide_unpack _). vm_compute. exact I.
  - apply (bool_decide_unpack _). vm_compute. exact I.
  - intros key number Hin.
    apply elem_of_cons in Hin as [[= -> ->] | Hin];
      [| apply list_elem_of_singleton in Hin as [= -> ->]];
      (split; [set_solver | set_solver]).
  - exists ko. split; [done|]. apply H2. set_solver.
Defined.
End MoreExamples.
